(** * IMDbStream: catalog classification, caching and query serving

    A shallow embedding of the server's catalog pipeline (the Express server
    with the "ghosting" block: getCache/setCache, getMeta,
    getTypedMetaDeterministic, typedPage, hasType, bumpStats, the genre
    canonicalizer, sortMetas and handleCatalog), of lib/prefetch.js
    (applySearchAndSort, classifyAndFetch and the split of warmList), of
    lib/classifier.mjs (the per-id worker of classifyAndWriteSplit and the
    files it writes) and of visibility-gate.mjs; further of the
    configure API and the manifest (list management, listGenresForType),
    of the classifier's helpers (the episode cache, the title type of a
    detail page, uniqById), of extractTtIds, and of the sort-parameter and
    genre helpers of the other server variants.

    Conventions.
    - JavaScript strings are [string]s of 8-bit code units; the case mappings
      below are the ASCII ones, which is what toLowerCase/toUpperCase do on
      the ASCII titles, genres and identifiers handled here.
    - JavaScript numbers that reach the sort are [num]: [NaN], an infinity,
      or a finite value held as a rational [Q]. Page offsets, page sizes and
      the statistics counters are integers [Z].
    - Effects (the in-memory cache [mem], the clock, the metadata service,
      exceptions) are threaded through a small state-and-exception monad.
    - What the catalog path only reads (the metadata service, the list
      source, the user files that the visibility gate opens) is part of the
      environment and may change with time. *)

From Stdlib Require Import ZArith QArith Ascii String List Bool Lia Permutation.
From stdpp Require Import base option gmap strings list sorting.

Local Open Scope Z_scope.

(** ** 1. JavaScript string primitives *)

Module Js.

Definition chars (s : string) : list ascii := list_ascii_of_string s.
Definition str (l : list ascii) : string := string_of_list_ascii l.

Definition code (c : ascii) : N := N_of_ascii c.

Definition isUpper (c : ascii) : bool := ((65 <=? code c) && (code c <=? 90))%N.
Definition isLower (c : ascii) : bool := ((97 <=? code c) && (code c <=? 122))%N.
Definition isDigit (c : ascii) : bool := ((48 <=? code c) && (code c <=? 57))%N.

(** The regular-expression class [\s] restricted to 8-bit code units. *)
Definition isSpace (c : ascii) : bool :=
  (((9 <=? code c) && (code c <=? 13)) || (code c =? 32) || (code c =? 160))%N.

Definition lowerChar (c : ascii) : ascii :=
  if isUpper c then ascii_of_N (code c + 32) else c.
Definition upperChar (c : ascii) : ascii :=
  if isLower c then ascii_of_N (code c - 32) else c.

Definition toLowerCase (s : string) : string := str (map lowerChar (chars s)).

Fixpoint dropSpaces (l : list ascii) : list ascii :=
  match l with
  | c :: r => if isSpace c then dropSpaces r else l
  | [] => []
  end.

Definition trimChars (l : list ascii) : list ascii :=
  rev (dropSpaces (rev (dropSpaces l))).

Definition trim (s : string) : string := str (trimChars (chars s)).

Definition eqChar (a b : ascii) : bool := (code a =? code b)%N.

(** [startsWith p l]: the characters [p] are a prefix of [l]. *)
Fixpoint startsWith (p l : list ascii) : bool :=
  match p, l with
  | [], _ => true
  | a :: p', b :: l' => eqChar a b && startsWith p' l'
  | _ :: _, [] => false
  end.

Fixpoint includesChars (l needle : list ascii) : bool :=
  startsWith needle l ||
  match l with
  | [] => false
  | _ :: r => includesChars r needle
  end.

(** String.prototype.includes *)
Definition includes (s needle : string) : bool :=
  includesChars (chars s) (chars needle).

Definition strEq (a b : string) : bool := String.eqb a b.

(** Truthiness of a string and the idiom [x || d]. *)
Definition truthy (s : string) : bool := negb (strEq s "").

Definition orStr (x : option string) (d : string) : string :=
  match x with
  | Some s => if truthy s then s else d
  | None => d
  end.

(** Relational comparison [a < b] of two strings: lexicographic on code units. *)
Fixpoint ltChars (a b : list ascii) : bool :=
  match a, b with
  | [], [] => false
  | [], _ :: _ => true
  | _ :: _, [] => false
  | x :: a', y :: b' =>
      if (code x <? code y)%N then true
      else if (code y <? code x)%N then false
      else ltChars a' b'
  end.

Definition strLt (a b : string) : bool := ltChars (chars a) (chars b).

(** [s.split(c)] for a one-character separator. *)
Fixpoint splitOn (sep : ascii) (cur : list ascii) (l : list ascii)
  : list (list ascii) :=
  match l with
  | [] => [rev cur]
  | c :: r =>
      if eqChar c sep then rev cur :: splitOn sep [] r
      else splitOn sep (c :: cur) r
  end.

Definition split (s : string) (sep : ascii) : list string :=
  map str (splitOn sep [] (chars s)).

Fixpoint joinWith (sep : string) (l : list string) : string :=
  match l with
  | [] => ""
  | [x] => x
  | x :: r => x +:+ sep +:+ joinWith sep r
  end.

(** [arr[i]] for an array of strings, [undefined] out of range. *)
Definition nthStr (l : list string) (i : nat) : option string := l !! i.

End Js.

(** ** 2. Genre canonicalizer *)

Definition DEFAULT_GENRES : list string :=
  ["Action"; "Adventure"; "Animation"; "Biography"; "Comedy"; "Crime";
   "Documentary"; "Drama"; "Family"; "Fantasy"; "History"; "Horror";
   "Music"; "Musical"; "Mystery"; "Romance"; "Sci-Fi"; "Sport"; "Thriller";
   "War"; "Western"].

Definition GENRE_ALIASES : list (string * string) :=
  [("sci fi", "Sci-Fi"); ("scifi", "Sci-Fi"); ("sci-fi", "Sci-Fi");
   ("science fiction", "Sci-Fi");
   ("doc", "Documentary"); ("docs", "Documentary");
   ("documentaries", "Documentary"); ("documentary", "Documentary");
   ("biopic", "Biography"); ("bio", "Biography"); ("biography", "Biography");
   ("tvmovie", "TV Movie"); ("tv movie", "TV Movie");
   ("reality tv", "Reality-TV"); ("reality-tv", "Reality-TV");
   ("talk show", "Talk-Show"); ("talk-show", "Talk-Show");
   ("game show", "Game-Show"); ("game-show", "Game-Show");
   ("kids", "Family"); ("children", "Family"); ("childrens", "Family");
   ("action & adventure", "Action & Adventure");
   ("sci-fi & fantasy", "Sci-Fi & Fantasy")].

Definition GENRE_EXPANDS : list (string * list string) :=
  [("Action & Adventure", ["Action"; "Adventure"]);
   ("Sci-Fi & Fantasy", ["Sci-Fi"; "Fantasy"])].

(** [Map.prototype.get] on a map given by its entries (keys are distinct). *)
Fixpoint mapGet {V} (m : list (string * V)) (k : string) : option V :=
  match m with
  | [] => None
  | (k', v) :: r => if Js.strEq k' k then Some v else mapGet r k
  end.

(** The class [[\s._-]] of the normalising regular expression. *)
Definition isGenreSep (c : ascii) : bool :=
  Js.isSpace c || Js.eqChar c "."%char || Js.eqChar c "_"%char
  || Js.eqChar c "-"%char.

(** [.replace(/[\s._-]+/g, ' ')]: every maximal run of separators becomes one
    space. [inRun] tells that the previous character was a separator. *)
Fixpoint collapseSeps (inRun : bool) (l : list ascii) : list ascii :=
  match l with
  | [] => []
  | c :: r =>
      if isGenreSep c
      then (if inRun then collapseSeps true r else " "%char :: collapseSeps true r)
      else c :: collapseSeps false r
  end.

Definition _normGenre (s : string) : string :=
  Js.trim (Js.str (collapseSeps false (Js.chars (Js.toLowerCase s)))).

(** [w ? (w[0].toUpperCase() + w.slice(1)) : w] *)
Definition capitalize (w : string) : string :=
  match w with
  | EmptyString => w
  | String c r => String (Js.upperChar c) r
  end.

(** [canonicalizeGenre]: [None] is [null]. *)
Definition canonicalizeGenre (input : string) : option string :=
  if negb (Js.truthy input) then None
  else
    let key := _normGenre input in
    match mapGet GENRE_ALIASES key with
    | Some aliased => Some aliased
    | None =>
        let words := Js.joinWith " " (map capitalize (Js.split key " "%char)) in
        if Js.strEq words "Sci Fi" then Some "Sci-Fi" else Some words
    end.

(** [String(raw).split(/[,&/]| and /i)] *)
Definition isListSep (c : ascii) : bool :=
  Js.eqChar c ","%char || Js.eqChar c "&"%char || Js.eqChar c "/"%char.

Definition andWord : list ascii := Js.chars " and ".

Fixpoint splitGenres (fuel : nat) (cur : list ascii) (l : list ascii)
  : list (list ascii) :=
  match fuel with
  | O => [rev cur ++ l]
  | S fuel' =>
      match l with
      | [] => [rev cur]
      | c :: r =>
          if isListSep c then rev cur :: splitGenres fuel' [] r
          else if Js.startsWith andWord (map Js.lowerChar l)
          then rev cur :: splitGenres fuel' [] (drop 5 l)
          else splitGenres fuel' (c :: cur) r
      end
  end.

Definition splitGenreString (s : string) : list string :=
  let l := Js.chars s in map Js.str (splitGenres (S (length l)) [] l).

(** A raw genre field of a metadata record: absent, a string, or an array of
    strings. *)
Inductive genreField :=
  | GUndef
  | GStr (s : string)
  | GArr (l : list string).

Definition genreTruthy (g : genreField) : bool :=
  match g with
  | GUndef => false
  | GStr s => Js.truthy s
  | GArr _ => true
  end.

(** A JavaScript [Set] of strings: the members in insertion order. *)
Definition setHas (s : list string) (x : string) : bool :=
  existsb (Js.strEq x) s.
Definition setAdd (s : list string) (x : string) : list string :=
  if setHas s x then s else s ++ [x].

(** One round of the loop of [explodeToCanonicalSet]; [if (!c) continue]
    passes over a part without canonical form, the empty one included. *)
Definition explodeStep (canon : list string) (p : string) : list string :=
  match canonicalizeGenre p with
  | None => canon
  | Some c =>
      if negb (Js.truthy c) then canon
      else
        match mapGet GENRE_EXPANDS c with
        | Some expand => fold_left setAdd expand canon
        | None => setAdd canon c
        end
  end.

Definition explodeToCanonicalSet (raw : genreField) : list string :=
  if negb (genreTruthy raw) then []
  else
    let parts := match raw with
                 | GArr l => l
                 | GStr s => splitGenreString s
                 | GUndef => []
                 end in
    fold_left explodeStep parts [].

(** The genre filter of [handleCatalog]: the wanted set and the test applied
    to each item's raw genre field. *)
Definition wantedSet (genreRaw : string) : list string :=
  match canonicalizeGenre genreRaw with
  | Some wantedCanon =>
      match mapGet GENRE_EXPANDS wantedCanon with
      | Some expand => fold_left setAdd expand []
      | None => [wantedCanon]
      end
  | None => []
  end.

Definition genreMatches (genreRaw : string) (raw : genreField) : bool :=
  let metaSet := explodeToCanonicalSet raw in
  existsb (setHas metaSet) (wantedSet genreRaw).

(** ** 3. Numbers, [parseInt] and the page window *)

(** A JavaScript number: [NaN], a finite value, or an infinity. *)
Inductive num :=
  | NaN
  | Fin (q : Q)
  | PInf
  | NInf.

Module Num.

(** Sign of [a - b]; [None] when the difference is [NaN]. *)
Definition subSign (a b : num) : option comparison :=
  match a, b with
  | NaN, _ | _, NaN => None
  | Fin x, Fin y => Some (x ?= y)%Q
  | PInf, PInf | NInf, NInf => None
  | PInf, _ => Some Gt
  | _, PInf => Some Lt
  | NInf, _ => Some Lt
  | _, NInf => Some Gt
  end.

(** [a < b] and [a === b] on numbers. *)
Definition lt (a b : num) : bool :=
  match a, b with
  | NaN, _ | _, NaN => false
  | Fin x, Fin y => match (x ?= y)%Q with Lt => true | _ => false end
  | PInf, _ => false
  | _, PInf => true
  | NInf, NInf => false
  | NInf, _ => true
  | _, NInf => false
  end.

Definition eq (a b : num) : bool :=
  match a, b with
  | Fin x, Fin y => Qeq_bool x y
  | PInf, PInf | NInf, NInf => true
  | _, _ => false
  end.

Definition truthy (a : num) : bool :=
  match a with
  | NaN => false
  | Fin q => negb (Qeq_bool q 0)
  | PInf | NInf => true
  end.

Definition isFinite (a : num) : bool :=
  match a with Fin _ => true | _ => false end.

Definition zero : num := Fin 0.

End Num.

Fixpoint digitsValue (acc : Z) (l : list ascii) : Z :=
  match l with
  | c :: r =>
      if Js.isDigit c
      then digitsValue (10 * acc + Z.of_N (Js.code c - 48)) r
      else acc
  | [] => acc
  end.

(** [parseInt(s, 10)]: leading white space, an optional sign, then the longest
    run of decimal digits; [None] is [NaN]. *)
Definition parseInt (s : string) : option Z :=
  let l := Js.dropSpaces (Js.chars s) in
  let '(neg, body) :=
    match l with
    | c :: r =>
        if Js.eqChar c "-"%char then (true, r)
        else if Js.eqChar c "+"%char then (false, r)
        else (false, l)
    | [] => (false, l)
    end in
  match body with
  | c :: _ =>
      if Js.isDigit c
      then Some (if neg then - digitsValue 0 body else digitsValue 0 body)
      else None
  | [] => None
  end.

(** [n || d] on the result of [parseInt]: [NaN] and [0] are falsy. *)
Definition orNum (n : option Z) (d : Z) : Z :=
  match n with
  | Some v => if v =? 0 then d else v
  | None => d
  end.

(** The request's extras: a plain object from parameter names to strings. *)
Abbreviation extrasT := (gmap string string).

(** [const skip = Math.max(0, parseInt(extras.skip || '0', 10) || 0)] *)
Definition skipOf (extras : extrasT) : Z :=
  Z.max 0 (orNum (parseInt (Js.orStr (extras !! "skip") "0")) 0).

(** [const limit = Math.max(1, Math.min(80, parseInt(extras.limit || '50', 10) || 50))] *)
Definition limitOf (extras : extrasT) : Z :=
  Z.max 1 (Z.min 80 (orNum (parseInt (Js.orStr (extras !! "limit") "50")) 50)).

(** [arr.slice(start, end)] for integral [start] and [end]: negative indices
    count from the end of the array. *)
Definition sliceIndex (len k : Z) : Z :=
  if k <? 0 then Z.max 0 (len + k) else Z.min k len.

Definition slice {A} (l : list A) (start stop : Z) : list A :=
  let len := Z.of_nat (length l) in
  let from := sliceIndex len start in
  let to := sliceIndex len stop in
  take (Z.to_nat (to - from)) (drop (Z.to_nat from) l).

(** ** 4. Metadata records *)

(** A field holding a primitive: absent, a number or a string. *)
Inductive scalar :=
  | SUndef
  | SNum (n : num)
  | SStr (s : string).

(** The [rating] field is a primitive or an object with an [imdb] member. *)
Inductive ratingField :=
  | RScalar (s : scalar)
  | RObj (imdb : scalar).

Record meta := Meta {
  m_id : option string;
  m_type : option string;
  m_name : option string;
  m_genres : genreField;
  m_genre : genreField;
  m_year : scalar;
  m_releaseInfo : scalar;
  m_rating : ratingField;
  m_imdbRating : scalar;
  m_imdb_rating : scalar;
  m_runtimeMinutes : scalar;
  m_runtime : scalar;
  m_addedAt : scalar
}.

Definition scalarTruthy (x : scalar) : bool :=
  match x with
  | SUndef => false
  | SNum n => Num.truthy n
  | SStr s => Js.truthy s
  end.

(** [a || b] on primitives. *)
Definition orScalar (a b : scalar) : scalar := if scalarTruthy a then a else b.

(** [String(x || '')] for an optional string. *)
Definition strOr (x : option string) : string := Js.orStr x "".

(** Exceptions raised by the modelled code. *)
Inductive exn :=
  | TypeError
  | URIError
  | NetworkError
  | SyntaxError.

Inductive result (A : Type) :=
  | Ok (a : A)
  | Throw (e : exn).
Arguments Ok {A} a.
Arguments Throw {A} e.

(** ** 5. Sorting *)

Section JsSort.
Context {A : Type} (cmp : A → A → comparison).

(** Array.prototype.sort is stable. [cmp a b] is the sign of the comparator
    on [(a, b)]; a comparator result of [NaN] counts as [Eq]. For a
    comparator that is a total preorder every stable sort returns the same
    array; insertion from the right is one of them. For a comparator
    that is not one (keys that are [NaN]) the language leaves the order to
    the engine; the model then gives one permutation of the array and the
    theorems below do not rely on which. *)
Fixpoint insertSorted (x : A) (l : list A) : list A :=
  match l with
  | [] => [x]
  | y :: r =>
      match cmp x y with
      | Gt => y :: insertSorted x r
      | _ => x :: l
      end
  end.

Definition jsSort (l : list A) : list A := foldr insertSorted [] l.
End JsSort.

(** The first maximal run of digits and dots: [String(x).match(/[\d.]+/)]. *)
Definition isNumChar (c : ascii) : bool := Js.isDigit c || Js.eqChar c "."%char.

Fixpoint takeNumRun (l : list ascii) : list ascii :=
  match l with
  | c :: r => if isNumChar c then c :: takeNumRun r else []
  | [] => []
  end.

Fixpoint firstNumRun (l : list ascii) : option (list ascii) :=
  match l with
  | c :: r => if isNumChar c then Some (takeNumRun l) else firstNumRun r
  | [] => None
  end.

Section Catalog.

(** [Number(s)] on strings (ECMAScript StringToNumber, with its rounding to
    the nearest double) and [String.prototype.localeCompare] with the
    options [{numeric: true, sensitivity: 'base'}] are library functions. *)
Variable toNumber : string → num.
Variable localeCompare : string → string → comparison.

(** [toNum] of [sortMetas]; [None] stands for an object argument, whose
    string form holds no digit. *)
Definition toNum (x : option scalar) : num :=
  match x with
  | None => Num.zero
  | Some SUndef => Num.zero
  | Some (SNum n) => if Num.isFinite n then n else Num.zero
  | Some (SStr s) =>
      match firstNumRun (Js.chars s) with
      | Some run => toNumber (Js.str run)
      | None => Num.zero
      end
  end.

(** [m.releaseInfo.slice(0,4)] *)
Definition slice04 (s : string) : string := Js.str (take 4 (Js.chars s)).

(** [m.year || (m.releaseInfo && m.releaseInfo.slice(0,4))]: a truthy number
    in [releaseInfo] has no [slice] method. *)
Definition getYear (m : meta) : result num :=
  if scalarTruthy (m_year m) then Ok (toNum (Some (m_year m)))
  else match m_releaseInfo m with
       | SStr s => if Js.truthy s then Ok (toNum (Some (SStr (slice04 s))))
                   else Ok (toNum (Some (SStr s)))
       | SNum n => if Num.truthy n then Throw TypeError
                   else Ok (toNum (Some (SNum n)))
       | SUndef => Ok (toNum (Some SUndef))
       end.

(** [(m.rating && (m.rating.imdb || m.rating)) || m.imdbRating || m.imdb_rating] *)
Definition ratingValue (m : meta) : option scalar :=
  match m_rating m with
  | RObj imdb => if scalarTruthy imdb then Some imdb else None
  | RScalar s =>
      if scalarTruthy s then Some s
      else Some (orScalar (m_imdbRating m) (m_imdb_rating m))
  end.

Definition getRating (m : meta) : num := toNum (ratingValue m).

Definition getRuntime (m : meta) : num :=
  toNum (Some (orScalar (m_runtimeMinutes m) (m_runtime m))).

(** [String(s).replace(/^(the|a|an)\s+/i,'').trim()] *)
Definition stripArticleChars (l : list ascii) : list ascii :=
  let low := map Js.lowerChar l in
  let try (art : string) : option (list ascii) :=
    let a := Js.chars art in
    if Js.startsWith a low then
      match drop (length a) l with
      | c :: r => if Js.isSpace c then Some (Js.dropSpaces r) else None
      | [] => None
      end
    else None in
  match try "the" with
  | Some r => r
  | None => match try "a" with
            | Some r => r
            | None => match try "an" with
                      | Some r => r
                      | None => l
                      end
            end
  end.

Definition normalizeTitle (name : option string) : string :=
  let s := match name with Some s => s | None => "" end in
  Js.str (Js.trimChars (stripArticleChars (Js.chars s))).

Definition flipIf (desc : bool) (c : comparison) : comparison :=
  if desc then CompOpp c else c.

(** The comparator handed to [sort] by [sortMetas], on the pairs
    [[m, i]]: [d === 0] falls back to the index, [d * dir] otherwise. *)
Definition pairCmp (d : meta → meta → option comparison) (desc : bool)
    (a b : meta * nat) : comparison :=
  match d a.1 b.1 with
  | None => Eq
  | Some Eq => Nat.compare a.2 b.2
  | Some c => flipIf desc c
  end.

Definition decorate (arr : list meta) : list (meta * nat) :=
  zip arr (seq 0 (length arr)).

Definition sortWith (d : meta → meta → option comparison) (desc : bool)
    (arr : list meta) : list meta :=
  (jsSort (pairCmp d desc) (decorate arr)).*1.

Definition numDiff (get : meta → num) (a b : meta) : option comparison :=
  Num.subSign (get a) (get b).

Definition yearOr0 (m : meta) : num :=
  match getYear m with Ok n => n | Throw _ => Num.zero end.

Definition throws {X} (r : result X) : bool :=
  match r with Throw _ => true | Ok _ => false end.

(** [sortMetas(arr, sortKey, order)]. The comparator is called on every
    element as soon as there are two of them, so a failing [getYear] makes
    the whole sort throw. *)
Definition sortMetas (arr : list meta) (sortKey order : string)
  : result (list meta) :=
  let key := Js.toLowerCase sortKey in
  let desc := Js.strEq (Js.toLowerCase (Js.orStr (Some order) "asc")) "desc" in
  if Js.strEq key "year" then
    if (2 <=? length arr)%nat && existsb (λ m, throws (getYear m)) arr
    then Throw TypeError
    else Ok (sortWith (numDiff yearOr0) desc arr)
  else if Js.strEq key "rating" then Ok (sortWith (numDiff getRating) desc arr)
  else if Js.strEq key "runtime" then Ok (sortWith (numDiff getRuntime) desc arr)
  else if Js.strEq key "name" || Js.strEq key "title"
          || Js.strEq key "alphabetical" then
    Ok (sortWith (λ a b, Some (localeCompare (normalizeTitle (m_name a))
                                             (normalizeTitle (m_name b))))
                 desc arr)
  else Ok (if desc then rev arr else arr).

End Catalog.

(** ** 6. lib/prefetch.js: [applySearchAndSort] *)

Section Prefetch.
Variable toNumber : string → num.

Definition idOf (x : meta) : string := strOr (m_id x).
Definition nameRaw (x : meta) : string := strOr (m_name x).
Definition nameLc (x : meta) : string := Js.toLowerCase (nameRaw x).

(** [Number(v)] for a primitive; [Number(0)] closes the [||] chains. *)
Definition numberOf (v : scalar) : num :=
  match v with
  | SUndef => NaN
  | SNum n => n
  | SStr s => toNumber s
  end.

Definition orZero (v : scalar) : scalar :=
  if scalarTruthy v then v else SNum Num.zero.

(** [Number(x?.imdbRating || x?.rating || 0)]; an object in [rating]
    converts to [NaN]. *)
Definition ratingOf (x : meta) : num :=
  if scalarTruthy (m_imdbRating x) then numberOf (m_imdbRating x)
  else match m_rating x with
       | RObj _ => NaN
       | RScalar s => numberOf (orZero s)
       end.

Definition valOf (sortKey : string) (x : meta) : num :=
  if Js.strEq sortKey "year" then numberOf (orZero (m_year x))
  else if Js.strEq sortKey "rating" then ratingOf x
  else if Js.strEq sortKey "runtime" then numberOf (orZero (m_runtime x))
  else numberOf (orZero (m_addedAt x)).

(** [a < b ? -1 : 1] *)
Definition ltSign (b : bool) : comparison := if b then Lt else Gt.

(** [ai < bi ? -1 : ai > bi ? 1 : 0] *)
Definition idCmp (a b : meta) : comparison :=
  if Js.strLt (idOf a) (idOf b) then Lt
  else if Js.strLt (idOf b) (idOf a) then Gt
  else Eq.

Definition prefetchCmp (sortKey : string) (desc : bool) (a b : meta)
  : comparison :=
  if Js.strEq sortKey "name" then
    if negb (Js.strEq (nameLc a) (nameLc b))
    then flipIf desc (ltSign (Js.strLt (nameLc a) (nameLc b)))
    else if negb (Js.strEq (nameRaw a) (nameRaw b))
    then flipIf desc (ltSign (Js.strLt (nameRaw a) (nameRaw b)))
    else idCmp a b
  else
    let av := valOf sortKey a in
    let bv := valOf sortKey b in
    if negb (Num.eq av bv) then flipIf desc (ltSign (Num.lt av bv))
    else if negb (Js.strEq (nameLc a) (nameLc b))
    then ltSign (Js.strLt (nameLc a) (nameLc b))
    else idCmp a b.

Record sortOpts := {
  o_search : option string;
  o_sort : option string;
  o_order : option string;
  o_skip : Z;
  o_limit : Z
}.

Definition optTruthy (x : option string) : bool :=
  match x with Some s => Js.truthy s | None => false end.

Definition sortKeyOf (o : sortOpts) : string :=
  if optTruthy (o_sort o) then Js.toLowerCase (strOr (o_sort o)) else "added".

Definition sortOrderOf (o : sortOpts) : string :=
  if optTruthy (o_order o) then Js.toLowerCase (strOr (o_order o))
  else if Js.strEq (sortKeyOf o) "rating" then "desc" else "asc".

Definition searched (o : sortOpts) (items : list meta) : list meta :=
  if optTruthy (o_search o)
  then filter (λ x, Js.includes (nameLc x) (Js.toLowerCase (strOr (o_search o))) = true) items
  else items.

(** The array after the search filter and the sort, before the window. *)
Definition sortedItems (o : sortOpts) (items : list meta) : list meta :=
  jsSort (prefetchCmp (sortKeyOf o) (Js.strEq (sortOrderOf o) "desc"))
         (searched o items).

(** [skip = Number(skip) || 0; limit = Math.max(0, Math.min(Number(limit) || 50, 500))] *)
Definition applySearchAndSort (items : list meta) (o : sortOpts) : list meta :=
  let skip := o_skip o in
  let limit := Z.max 0 (Z.min (orNum (Some (o_limit o)) 50) 500) in
  slice (sortedItems o items) skip (skip + limit).

End Prefetch.

(** ** 7. World state, exceptions and the in-memory cache *)

(** A cache entry [{ v, exp }]. *)
Record entry (V : Type) := Entry { e_v : V; e_exp : Z }.
Arguments Entry {V} e_v e_exp.
Arguments e_v {V} e.
Arguments e_exp {V} e.

(** The statistics object [{ movie, series }]; [None] is [null]. *)
Record stats := Stats { st_movie : option Z; st_series : option Z }.

(** Entries of a user's [lists]: a bare list id or a record. *)
Record visFlags := VisFlags { v_discover : option bool; v_home : option bool }.
Record visibility := Visibility {
  vis_movie : option visFlags;
  vis_series : option visFlags
}.
Inductive listEntry :=
  | LStr (s : string)
  | LObj (id lsid showIn : option string) (vis : option visibility).

(** The single [mem] Map of the server holds four kinds of values under the
    disjoint key prefixes [ls:], [meta:], [stats:] and [genres:]; the model
    keeps one map per prefix that the claims involve, keyed by the same
    strings. Statistics objects are shared by reference: [memStats] stores
    the address of the object in [heap]. *)
Record World := MkWorld {
  memMeta : gmap string (entry meta);
  memStats : gmap string (entry nat);
  heap : list stats;
  users : gmap string (list listEntry);
  clock : Z;
  calls : list (string * string)
}.

Definition setMemMeta (w : World) (m : gmap string (entry meta)) : World :=
  MkWorld m (memStats w) (heap w) (users w) (clock w) (calls w).
Definition setMemStats (w : World) (m : gmap string (entry nat)) : World :=
  MkWorld (memMeta w) m (heap w) (users w) (clock w) (calls w).
Definition setHeap (w : World) (h : list stats) : World :=
  MkWorld (memMeta w) (memStats w) h (users w) (clock w) (calls w).
Definition setUsers (w : World) (u : gmap string (list listEntry)) : World :=
  MkWorld (memMeta w) (memStats w) (heap w) u (clock w) (calls w).
Definition setClock (w : World) (t : Z) : World :=
  MkWorld (memMeta w) (memStats w) (heap w) (users w) t (calls w).
Definition setCalls (w : World) (c : list (string * string)) : World :=
  MkWorld (memMeta w) (memStats w) (heap w) (users w) (clock w) c.

(** What a request to the metadata service comes back with. *)
Inductive httpBody :=
  | BadJson
  | Json (m : option meta).
Inductive response :=
  | NetErr
  | Http (ok : bool) (body : httpBody).

(** The environment of the process: configuration and the outside world.
    The answers of the services may depend on the time of the request. *)
Record Env := MkEnv {
  TTL_SEC : Z;
  cinemeta : Z → string → string → response;
  latency : Z → string → string → Z;
  listIds : Z → string → list string;
  listLatency : Z → string → Z;
  decodeURIComponent : string → option string;
  toNumber : string → num;
  localeCompare : string → string → comparison;
  (** what [readUserEntry(uid)] of visibility-gate.mjs finds on disk at a
      given time: the [lists] array of the user's record in data/users.json
      or in one of the per-user files; [None] when no file holds a record
      for the uid or the record has no array [lists] *)
  readUserEntry : Z → string → option (list listEntry)
}.

(** The environment with another content of the files. *)
Definition withUsersFile (env : Env)
    (file : Z → string → option (list listEntry)) : Env :=
  MkEnv (TTL_SEC env) (cinemeta env) (latency env) (listIds env)
        (listLatency env) (decodeURIComponent env) (toNumber env)
        (localeCompare env) file.

(** The files once the server has saved the registry of [w] ([_saveNow]
    writes every user's record to data/users.json). *)
Definition savedUsers (w : World) : Z → string → option (list listEntry) :=
  λ _ uid, users w !! uid.

(** Computations: state passing with exceptions. *)
Definition M (A : Type) : Type := World → result A * World.

Definition ret {A} (a : A) : M A := λ w, (Ok a, w).
Definition throw {A} (e : exn) : M A := λ w, (Throw e, w).
Definition bind {A B} (c : M A) (k : A → M B) : M B :=
  λ w, match c w with
       | (Ok a, w') => k a w'
       | (Throw e, w') => (Throw e, w')
       end.
(** [try { c } catch { h }] *)
Definition tryCatch {A} (c : M A) (h : exn → M A) : M A :=
  λ w, match c w with
       | (Ok a, w') => (Ok a, w')
       | (Throw e, w') => h e w'
       end.
Definition liftResult {A} (r : result A) : M A := λ w, (r, w).
Definition modify (f : World → World) : M unit := λ w, (Ok (), f w).
Definition gets {A} (f : World → A) : M A := λ w, (Ok (f w), w).

Notation "'let*' x ':=' c 'in' k" := (bind c (λ x, k))
  (at level 10, x pattern, c at level 100, k at level 200).
Notation "c ';;' k" := (bind c (λ _, k))
  (at level 100, k at level 200, right associativity).

(** [now()] *)
Definition now : M Z := gets clock.

(** [getCache(key)]: an entry past its expiry is deleted on read. *)
Definition cacheRead {V} (store : gmap string (entry V)) (t : Z) (key : string)
  : option V * gmap string (entry V) :=
  match store !! key with
  | None => (None, store)
  | Some x =>
      if negb (e_exp x =? 0) && (e_exp x <? t)
      then (None, delete key store)
      else (Some (e_v x), store)
  end.

(** [setCache(key, v, ttlSec)] *)
Definition cacheWrite {V} (store : gmap string (entry V)) (t : Z) (key : string)
    (v : V) (ttlSec : Z) : gmap string (entry V) :=
  <[key := Entry v (t + ttlSec * 1000)]> store.

Definition getCacheMeta (key : string) : M (option meta) :=
  λ w, let '(v, s) := cacheRead (memMeta w) (clock w) key in (Ok v, setMemMeta w s).
Definition setCacheMeta (key : string) (v : meta) (ttlSec : Z) : M unit :=
  modify (λ w, setMemMeta w (cacheWrite (memMeta w) (clock w) key v ttlSec)).
Definition getCacheStats (key : string) : M (option nat) :=
  λ w, let '(v, s) := cacheRead (memStats w) (clock w) key in (Ok v, setMemStats w s).
Definition setCacheStats (key : string) (v : nat) (ttlSec : Z) : M unit :=
  modify (λ w, setMemStats w (cacheWrite (memStats w) (clock w) key v ttlSec)).

(** ** 8. Metadata resolver *)

Section Resolver.
Variable env : Env.

(** [await fetch(CIN_BASE/type/tt.json)]: the request is logged, time
    passes, and a network failure rejects. *)
Definition fetchCinemeta (type tt : string) : M (bool * httpBody) :=
  λ w,
    let w' := setClock (setCalls w (calls w ++ [(type, tt)]))
                       (clock w + latency env (clock w) type tt) in
    match cinemeta env (clock w) type tt with
    | NetErr => (Throw NetworkError, w')
    | Http ok body => (Ok (ok, body), w')
    end.

(** [await r.json()] *)
Definition readJson (body : httpBody) : M (option meta) :=
  match body with
  | BadJson => throw SyntaxError
  | Json m => ret m
  end.

Definition metaKey (type tt : string) : string :=
  "meta:" +:+ type +:+ ":" +:+ tt.

Definition getMeta (type tt : string) : M (option meta) :=
  let ck := metaKey type tt in
  let* c := getCacheMeta ck in
  match c with
  | Some m => ret (Some m)
  | None =>
      tryCatch
        (let* r := fetchCinemeta type tt in
         if negb r.1 then ret None
         else
           let* meta := readJson r.2 in
           match meta with
           | Some m => setCacheMeta ck m (TTL_SEC env) ;; ret (Some m)
           | None => ret None
           end)
        (λ _, ret None)
  end.

Definition getTypedMetaDeterministic (type tt : string) : M (option meta) :=
  if Js.strEq type "movie" then
    let* s := getMeta "series" tt in
    match s with
    | Some _ => ret None
    | None => getMeta "movie" tt
    end
  else getMeta "series" tt.

End Resolver.

(** ** 9. Type statistics: [hasType] and [bumpStats] *)

Definition freshStats : stats := Stats None None.

(** [{ movie: null, series: null }]: a new object. *)
Definition allocStats : M nat :=
  λ w, (Ok (length (heap w)), setHeap w (heap w ++ [freshStats])).

Definition derefStats (r : nat) : M stats :=
  gets (λ w, default freshStats (heap w !! r)).

(** [stats.movie = v] or [stats.series = v], in place. *)
Definition writeStats (r : nat) (movie : bool) (v : Z) : M unit :=
  modify (λ w,
    let s := default freshStats (heap w !! r) in
    setHeap w (<[r := if movie then Stats (Some v) (st_series s)
                      else Stats (st_movie s) (Some v)]> (heap w))).

Definition statsKey (lsid : string) : string := "stats:" +:+ lsid.

(** [getCache(ck) || { movie: null, series: null }] *)
Definition statsObject (lsid : string) : M nat :=
  let* c := getCacheStats (statsKey lsid) in
  match c with
  | Some r => ret r
  | None => allocStats
  end.

Definition STATS_TTL : Z := 12 * 3600.

(** [stats[t] || 0] *)
Definition orCount (x : option Z) : Z :=
  match x with Some n => if n =? 0 then 0 else n | None => 0 end.

Definition bumpStats (lsid type : string) (countFound : Z) : M unit :=
  let* r := statsObject lsid in
  let movie := Js.strEq type "movie" in
  let* s := derefStats r in
  let prev := orCount (if movie then st_movie s else st_series s) in
  let next := Z.max prev countFound in
  writeStats r movie next ;;
  setCacheStats (statsKey lsid) r STATS_TTL.

Section HasType.
Variable env : Env.

(** [await fetchImdbIds(lsid)]: the ids of the list as the list source (or
    the server's [ls:] cache in front of it) gives them at that time. Every
    retrieval variant is fetched inside its own try/catch, so the call
    never throws. *)
Definition fetchImdbIds (lsid : string) : M (list string) :=
  λ w, (Ok (listIds env (clock w) lsid),
        setClock w (clock w + listLatency env (clock w) lsid)).

(** The probe loop [while (i < ids.length && !any)]: stop at the first id
    whose metadata resolves. *)
Fixpoint probeAny (type : string) (ids : list string) : M bool :=
  match ids with
  | [] => ret false
  | i :: rest =>
      let* meta := getMeta env type i in
      match meta with
      | Some _ => ret true
      | None => probeAny type rest
      end
  end.

(** [hasType(lsid, type, sample)]. [during] is whatever other request
    handlers the event loop runs while this call is suspended at
    [await fetchImdbIds(lsid)]. *)
Definition hasTypeDuring (during : M unit) (lsid type : string) (sample : nat)
  : M bool :=
  let* r := statsObject lsid in
  let* s := derefStats r in
  let isMovie := Js.strEq type "movie" in
  let isSeries := Js.strEq type "series" in
  if negb (isMovie || isSeries) then ret false
  else
    match (if isMovie then st_movie s else st_series s) with
    | Some n => ret (0 <? n)
    | None =>
        let* ids := fetchImdbIds lsid in
        during ;;
        let* any := probeAny type (take sample ids) in
        writeStats r isMovie (if any then 1 else 0) ;;
        setCacheStats (statsKey lsid) r STATS_TTL ;;
        ret any
    end.

(** A call that no other handler overlaps. *)
Definition hasType (lsid type : string) (sample : nat) : M bool :=
  hasTypeDuring (ret ()) lsid type sample.

(** ** 10. [typedPage] *)

(** [parseInt(n, 10)] of a number goes through its string form, which is
    in exponent notation from 1e21 on. *)
Fixpoint leadingDigit (fuel : nat) (n : Z) : Z :=
  match fuel with
  | O => n
  | S f => if n <? 10 then n else leadingDigit f (n / 10)
  end.

Definition parseIntOfNumber (n : Z) : Z :=
  if Z.abs n <? 10 ^ 21 then n
  else Z.sgn n * leadingDigit (Z.to_nat (Z.log2 (Z.abs n))) (Z.abs n).

Record pageOpts := PageOpts { p_skip : Z; p_limit : Z; p_search : string }.

(** The value kept in [slots[my]] for one id, [None] when skipped. *)
Definition slotFor (type search tt : string) : M (option meta) :=
  let* meta := getTypedMetaDeterministic env type tt in
  match meta with
  | None => ret None
  | Some m =>
      if optTruthy (m_type m)
         && negb (Js.strEq (Js.toLowerCase (strOr (m_type m))) type)
      then ret None
      else if Js.truthy search
              && negb (Js.includes (Js.toLowerCase (strOr (m_name m))) search)
      then ret None
      else ret (Some m)
  end.

Fixpoint slotsFor (type search : string) (ids : list string)
  : M (list (option meta)) :=
  match ids with
  | [] => ret []
  | i :: rest =>
      let* s := slotFor type search i in
      let* r := slotsFor type search rest in
      ret (s :: r)
  end.

(** The workers write [slots[my]] for the index they claimed; a slot
    depends only on the answers for its own id, so the slots are those of
    one pass over the ids in list order. *)
Definition typedPage (type : string) (ids : list string) (opts : pageOpts)
  : M (list meta) :=
  let skip := Z.max 0 (orNum (Some (parseIntOfNumber (orNum (Some (p_skip opts)) 0))) 0) in
  let limit := Z.max 1 (orNum (Some (parseIntOfNumber (orNum (Some (p_limit opts)) 50))) 50) in
  let search := Js.trim (Js.toLowerCase (p_search opts)) in
  let* slots := slotsFor type search ids in
  ret (take (Z.to_nat (skip + limit)) (omap id slots)).

End HasType.

(** ** 11. Users and visibility *)

(** [getUser(uid)]: an unknown uid gets a record with no lists. *)
Definition getUser (uid : string) : M (list listEntry) :=
  λ w, match users w !! uid with
       | Some lists => (Ok lists, w)
       | None => (Ok [], setUsers w (<[uid := []]> (users w)))
       end.

Definition entryShowIn (l : listEntry) : option string :=
  match l with LObj _ _ showIn _ => showIn | LStr _ => None end.
Definition entryVisibility (l : listEntry) : option visibility :=
  match l with LObj _ _ _ vis => vis | LStr _ => None end.

Definition flag (b : option bool) : bool := default false b.

(** [visibilityFor(list)]: per-type flags, with the legacy [showIn] as the
    fallback; the result is [(discover, home)] for the movie type and for
    the series type. *)
Definition visibilityFor (l : option listEntry)
  : (bool * bool) * (bool * bool) :=
  let showIn := match l with Some e => entryShowIn e | None => None end in
  let legacy := Js.toLowerCase (Js.orStr showIn "discover") in
  let base := (Js.strEq legacy "discover" || Js.strEq legacy "both",
               Js.strEq legacy "home" || Js.strEq legacy "both") in
  let vis := match l with Some e => entryVisibility e | None => None end in
  let pick (f : visibility → option visFlags) :=
    match vis with
    | Some v => match f v with
                | Some x => (flag (v_discover x), flag (v_home x))
                | None => base
                end
    | None => base
    end in
  (pick vis_movie, pick vis_series).

(** [x.id || x] compared with [lsid]. *)
Definition entryHasId (lsid : string) (x : listEntry) : bool :=
  match x with
  | LStr s => Js.strEq s lsid
  | LObj id _ _ _ => optTruthy id && Js.strEq (strOr id) lsid
  end.

Definition findEntry (lists : list listEntry) (lsid : string) : option listEntry :=
  find (entryHasId lsid) lists.

Definition homeOnlyFlags (v : bool * bool) : bool := v.2 && negb v.1.

(** ** 12. The catalog request *)

Record Request := MkRequest {
  (** [req.params.type] and [req.params.catalogId] *)
  r_type : string;
  r_catalogId : string;
  (** [req.query.uid || req.query.user || req.query.u] *)
  r_queryUid : option string;
  (** the [name=value] pieces of the Cookie header *)
  r_cookies : list (string * string);
  (** the pairs of the last path component read as a parameter string *)
  r_lastSegment : list (string * string);
  (** the pairs of the query string *)
  r_query : list (string * string);
  (** the path segments after [/catalog/<type>/<id>] *)
  r_tail : list string;
  (** the capture of [/\/genre\/([^/]+)\.json$/i] on [req.path] and
      [req.params.genre] *)
  r_pathGenre : option string;
  r_paramGenre : option string
}.

(** [Object.fromEntries(pairs)]: a later pair overrides an earlier one. *)
Definition fromEntries (pairs : list (string * string)) : extrasT :=
  fold_left (λ m kv, <[kv.1 := kv.2]> m) pairs ∅.

(** [URLSearchParams.get]: the first pair with that name. *)
Definition searchGet (pairs : list (string * string)) (k : string) : option string :=
  snd <$> find (λ kv, Js.strEq kv.1 k) pairs.

(** The truth value of [req.query[k]] as Express parses the query string:
    absent when no pair has the name, the value of the pair when there is
    one, and an array (which is truthy) when the name is repeated. Names in
    bracket notation are not modelled. *)
Definition queryTruthy (pairs : list (string * string)) (k : string) : bool :=
  match filter (λ kv, Js.strEq kv.1 k = true) pairs with
  | [] => false
  | [kv] => Js.truthy kv.2
  | _ :: _ :: _ => true
  end.

(** [v.replace(/\.json$/i, '')] *)
Definition stripJson (v : string) : string :=
  let l := Js.chars v in
  let n := length l in
  if (5 <=? n)%nat && Js.strEq (Js.toLowerCase (Js.str (drop (n - 5) l))) ".json"
  then Js.str (take (n - 5) l) else v.

Inductive body :=
  | Metas (metas : list meta)
  | ErrBody (err : string).
Record Response := MkResponse { status : Z; payload : body }.

(** [res.json(x)] answers with status 200. *)
Definition json (b : body) : Response := MkResponse 200 b.

Section Server.
Variable env : Env.

Definition decode (s : string) : M string :=
  match decodeURIComponent env s with
  | Some d => ret d
  | None => throw URIError
  end.

(** [parseCookies(req)]: every value is decoded, a malformed one throws. *)
Fixpoint parseCookies (cs : list (string * string)) (out : extrasT) : M extrasT :=
  match cs with
  | [] => ret out
  | (k, v) :: rest =>
      let* d := decode v in
      parseCookies rest (<[Js.trim k := d]> out)
  end.

Definition getUidFromReq (req : Request) : M string :=
  if optTruthy (r_queryUid req) then ret (strOr (r_queryUid req))
  else
    let* c := parseCookies (r_cookies req) ∅ in
    ret (Js.orStr (c !! "uid") "default").

(** [readExtras(req)]: the query pairs, then the [key/value] pairs of the
    path tail. *)
Fixpoint readTail (tail : list string) (extras : extrasT) : M extrasT :=
  match tail with
  | [] => ret extras
  | [k] => ret extras
  | k :: v :: rest =>
      let v' := stripJson v in
      if Js.truthy k && Js.truthy v'
      then let* d := decode v' in readTail rest (<[k := d]> extras)
      else readTail rest extras
  end.

Definition readExtras (req : Request) : M extrasT :=
  readTail (r_tail req) (fromEntries (r_query req)).

Definition getGenreFromReq (req : Request) : M string :=
  let qg := searchGet (r_query req) "genre" in
  if optTruthy qg then decode (strOr qg)
  else match r_pathGenre req with
       | Some g => decode g
       | None => ret ""
       end.

(** [catalogId.match(/^imdb-(.+?)-(ls\d+)-(movies|series)$/i)], giving
    [m[1]] and [m[2]]. *)
Definition isLineEnd (c : ascii) : bool :=
  Js.eqChar c "010"%char || Js.eqChar c "013"%char.

Fixpoint takeDigits (l : list ascii) : list ascii :=
  match l with
  | c :: r => if Js.isDigit c then c :: takeDigits r else []
  | [] => []
  end.

(** [-(ls\d+)-(movies|series)$] at the head of [l]. *)
Definition matchTail (l : list ascii) : option (list ascii) :=
  match l with
  | d :: a :: b :: r =>
      if Js.eqChar d "-"%char && Js.eqChar (Js.lowerChar a) "l"%char
         && Js.eqChar (Js.lowerChar b) "s"%char
      then
        let ds := takeDigits r in
        let after := drop (length ds) r in
        let suffix := Js.toLowerCase (Js.str after) in
        if negb (length ds =? 0)%nat
           && (Js.strEq suffix "-movies" || Js.strEq suffix "-series")
        then Some (a :: b :: ds) else None
      else None
  | _ => None
  end.

(** the lazy [(.+?)]: the shortest non-empty prefix after which the rest
    of the pattern matches. *)
Fixpoint matchUid (uid : list ascii) (l : list ascii)
  : option (list ascii * list ascii) :=
  match l with
  | [] => None
  | c :: r =>
      if isLineEnd c then None
      else
        let uid' := uid ++ [c] in
        match matchTail r with
        | Some ls => Some (uid', ls)
        | None => matchUid uid' r
        end
  end.

Definition matchCatalogId (catalogId : string) : option (string * string) :=
  let l := Js.chars catalogId in
  if Js.startsWith (Js.chars "imdb-") (map Js.lowerChar l) then
    match matchUid [] (drop 5 l) with
    | Some (uid, ls) => Some (Js.str uid, Js.str ls)
    | None => None
    end
  else None.

(** The ghosting block: is this catalog home-only? It re-derives the uid
    and the list id by splitting the catalog id on dashes. *)
Definition isHomeOnly (req : Request) : M bool :=
  let type := Js.toLowerCase (r_type req) in
  let segs := Js.split (r_catalogId req) "-"%char in
  let uidFromId := Js.orStr (segs !! 1%nat) "default" in
  let lsid := Js.orStr (segs !! 2%nat) "" in
  let* lists := getUser uidFromId in
  let vis := visibilityFor (findEntry lists lsid) in
  let tVis := if Js.strEq type "movie" then vis.1 else vis.2 in
  ret (homeOnlyFlags tVis).

(** The genre filter, the sort and the page window applied to the metas
    that [typedPage] returned. *)
Definition genreStage (genreRaw : string) (metas : list meta) : list meta :=
  if Js.truthy genreRaw && negb (Js.strEq (Js.toLowerCase genreRaw) "top")
  then filter (λ m, genreMatches genreRaw
                      (if genreTruthy (m_genres m) then m_genres m
                       else m_genre m) = true) metas
  else metas.

Definition sortStage (extras : extrasT) (metas : list meta)
  : result (list meta) :=
  let sort := Js.orStr (extras !! "sort") "" in
  let order := Js.orStr (extras !! "order") "asc" in
  if Js.truthy sort
  then sortMetas (toNumber env) (localeCompare env) metas sort order
  else Ok metas.

Definition unionExtras (a b : extrasT) : extrasT := b ∪ a.

(** From the list ids to the filtered and sorted metas. [typedPage] is asked
    for [Math.max(limit + skip, 80)] items from the start of the list. *)
Definition sortedMetas (type lsid : string) (extras : extrasT)
    (search genreRaw : string) (typedLimit : Z) : M (list meta) :=
  let* ids := fetchImdbIds env lsid in
  let* metas := typedPage env type ids (PageOpts 0 typedLimit search) in
  liftResult (sortStage extras (genreStage genreRaw metas)).

(** The page window, the statistics update and the answer. *)
Definition respondPage (type lsid : string) (skip limit : Z)
    (metas : list meta) : M Response :=
  let metas := slice metas skip (skip + limit) in
  (if (0 <? length metas)%nat
   then bumpStats lsid type (Z.of_nat (length metas))
   else ret ()) ;;
  ret (json (Metas metas)).

(** [extras.genre || getGenreFromReq(req) || ''] *)
Definition genreOf (req : Request) (extras : extrasT) : M string :=
  if optTruthy (extras !! "genre") then ret (strOr (extras !! "genre"))
  else getGenreFromReq req.

(** The test of the ghosting block: a genre other than Top, or a search. *)
Definition discoverQuery (extras : extrasT) (genreRaw : string) : bool :=
  negb (Js.strEq (Js.toLowerCase (Js.orStr (Some genreRaw) "Top")) "top")
  || (optTruthy (extras !! "search")
      && Js.truthy (Js.trim (strOr (extras !! "search")))).

(** The body of the [try] block of [handleCatalog]. *)
Definition catalogBody (req : Request) : M Response :=
  let type := r_type req in
  if negb (Js.strEq type "movie" || Js.strEq type "series")
  then ret (json (Metas []))
  else
    match matchCatalogId (r_catalogId req) with
    | None => ret (json (Metas []))
    | Some (uidFromId, ls) =>
        let lsid := Js.toLowerCase ls in
        let* fromPath := readExtras req in
        let extras := unionExtras (fromEntries (r_lastSegment req)) fromPath in
        let* homeOnly := tryCatch (isHomeOnly req) (λ _, ret false) in
        let skip := skipOf extras in
        let limit := limitOf extras in
        let search := Js.trim (Js.orStr (extras !! "search") "") in
        let* genreRaw := genreOf req extras in
        if homeOnly && discoverQuery extras genreRaw
        then ret (json (Metas []))
        else
          let* sorted :=
            sortedMetas type lsid extras search genreRaw (Z.max (limit + skip) 80) in
          respondPage type lsid skip limit sorted
    end.

(** [handleCatalog(req, res)]: the uid is resolved before the [try]
    block; everything after it is inside. *)
Definition handleCatalog (req : Request) : M Response :=
  let* uid := getUidFromReq req in
  tryCatch (catalogBody req) (λ _, ret (json (Metas []))).

End Server.

(** ** 13. visibility-gate.mjs *)

Section Gate.
Variable env : Env.

(** [/^imdb-([^-\s]+)-(ls\d+)-(movies|series)$/i]: the uid, the list id and
    the type named by the suffix ([m[3] === "movies"], case-sensitive). *)
Fixpoint takeUid (l : list ascii) : list ascii :=
  match l with
  | c :: r => if Js.eqChar c "-"%char || Js.isSpace c then [] else c :: takeUid r
  | [] => []
  end.

Definition gateParse (catalogId : string) : option (string * string * string) :=
  let l := Js.chars catalogId in
  if Js.startsWith (Js.chars "imdb-") (map Js.lowerChar l) then
    let uid := takeUid (drop 5 l) in
    let rest := drop (5 + length uid) l in
    if (length uid =? 0)%nat then None
    else match matchTail rest with
         | Some ls =>
             let suffix := Js.str (drop (length ls + 2) rest) in
             Some (Js.str uid, Js.str ls,
                   if Js.strEq suffix "movies" then "movie" else "series")
         | None => None
         end
  else None.

(** [x?.id || x?.lsid || x] compared with [lsid]. *)
Definition gateHasId (lsid : string) (x : listEntry) : bool :=
  match x with
  | LStr s => Js.strEq s lsid
  | LObj id ls _ _ =>
      if optTruthy id then Js.strEq (strOr id) lsid
      else optTruthy ls && Js.strEq (strOr ls) lsid
  end.

(** [getVisibilityFor(uid, lsid, type)] reads the user's record from the
    files on disk, not from the registry in memory; a flag that is not a
    boolean counts as [true]. *)
Definition getVisibilityFor (uid lsid type : string) : M (bool * bool) :=
  gets (λ w,
    match readUserEntry env (clock w) uid with
    | None => (true, true)
    | Some lists =>
        match find (gateHasId lsid) lists with
        | Some hit =>
            match entryVisibility hit with
            | Some v =>
                match (if Js.strEq type "movie" then vis_movie v else vis_series v) with
                | Some x => (default true (v_discover x), default true (v_home x))
                | None => (true, true)
                end
            | None => (true, true)
            end
        | None => (true, true)
        end
    end).

(** [Boolean(req.query?.genre || req.params?.genre)] *)
Definition asksGenre (req : Request) : bool :=
  queryTruthy (r_query req) "genre" || optTruthy (r_paramGenre req).

(** The middleware: [Some] response when it answers itself, [None] when it
    calls [next()]. *)
Definition visibilityGate (req : Request) : M (option Response) :=
  tryCatch
    (match gateParse (r_catalogId req) with
     | None => ret None
     | Some (rawUid, ls, type) =>
         let* uid := decode env rawUid in
         let lsid := Js.toLowerCase ls in
         let* vis := getVisibilityFor uid lsid type in
         let isDiscover := asksGenre req in
         if negb vis.1 && negb vis.2
         then ret (Some (MkResponse 404 (ErrBody "CATALOG_DISABLED")))
         else if negb vis.1 && vis.2 && isDiscover
         then ret (Some (MkResponse 404 (ErrBody "HIDDEN_FROM_DISCOVER")))
         else ret None
     end)
    (λ _, ret None).

(** The catalog routes with the gate mounted in front of the handler. *)
Definition gatedCatalog (req : Request) : M Response :=
  let* g := visibilityGate req in
  match g with
  | Some resp => ret resp
  | None => handleCatalog env req
  end.

End Gate.

(** ** 14. lib/classifier.mjs: the per-id worker *)

(** The detail pages of the list source, as the scraping helpers read them. *)
Record Pages := MkPages {
  INCLUDE_MUSIC_VIDEO : bool;
  parentOf : Z → string → option string;
  titleTypeOf : Z → string → option string
}.

Inductive classified :=
  | CMovie (i : string) (m : meta)
  | CSeries (i : string) (m : meta) (mapped : option string)
  | CExclude (i : string) (reason : string).

(** [mapTitleTypeToBucket(ttype)] *)
Definition mapTitleTypeToBucket (includeMusicVideo : bool) (ttype : option string)
  : string :=
  if negb (optTruthy ttype) then "unknown"
  else
    let t := Js.toLowerCase (strOr ttype) in
    if Js.includes t "music video"
    then (if includeMusicVideo then "movie" else "exclude")
    else if Js.includes t "video game" then "exclude"
    else if Js.includes t "podcast" then "exclude"
    else if Js.strEq t "movie" || Js.includes t "tv movie"
            || Js.includes t "tv special" || Js.includes t "short"
            || Js.includes t "tv short" || Js.strEq t "video"
            || Js.includes t "video"
    then "movie"
    else if Js.includes t "tv series" || Js.includes t "tv miniseries"
            || Js.includes t "tv mini series" || Js.includes t "miniseries"
            || Js.includes t "mini series"
    then "series"
    else if Js.includes t "episode" then "episode"
    else "unknown".

Section Classifier.
Variable env : Env.
Variable pages : Pages.

(** [tryCinemeta(tt, type)]: the fetch is outside the try block, so a
    network failure rejects; a body that does not parse gives [null]. *)
Definition tryCinemeta (i type : string) : M (option meta) :=
  let* r := fetchCinemeta env type i in
  if negb r.1 then ret None
  else match r.2 with
       | Json (Some m) => if optTruthy (m_id m) then ret (Some m) else ret None
       | _ => ret None
       end.

Definition resolveParentSeriesFromImdb (i : string) : M (option string) :=
  gets (λ w, parentOf pages (clock w) i).
Definition resolveTitleTypeFromImdb (i : string) : M (option string) :=
  gets (λ w, titleTypeOf pages (clock w) i).

(** Episode up-mapping: the parent's series metadata, when both resolve. *)
Definition upMap (i : string) : M (option classified) :=
  let* parent := resolveParentSeriesFromImdb i in
  if optTruthy parent && negb (Js.strEq (strOr parent) i) then
    let* pMeta := tryCinemeta (strOr parent) "series" in
    match pMeta with
    | Some p => ret (Some (CSeries i p parent))
    | None => ret None
    end
  else ret None.

(** Steps 3 and 4 of the worker: the page-level title type. *)
Definition byTitleType (i : string) : M classified :=
  let* ttype := resolveTitleTypeFromImdb i in
  let bucket := mapTitleTypeToBucket (INCLUDE_MUSIC_VIDEO pages) ttype in
  if Js.strEq bucket "movie" then
    let* mm := tryCinemeta i "movie" in
    match mm with
    | Some m => ret (CMovie i m)
    | None => ret (CExclude i "movie-no-cinemeta")
    end
  else if Js.strEq bucket "series" then
    let* sm := tryCinemeta i "series" in
    match sm with
    | Some s => ret (CSeries i s None)
    | None => ret (CExclude i "series-no-cinemeta")
    end
  else if Js.strEq bucket "episode" then
    let* up := upMap i in
    match up with
    | Some c => ret c
    | None => ret (CExclude i "episode-no-parent")
    end
  else ret (CExclude i "unknown").

(** The worker that [classifyAndWriteSplit] hands to the pool. *)
Definition classifyOne (i : string) : M classified :=
  let* mMeta := tryCinemeta i "movie" in
  let* sMeta := tryCinemeta i "series" in
  match mMeta, sMeta with
  | Some m, None => ret (CMovie i m)
  | None, Some s => ret (CSeries i s None)
  | Some _, Some s => ret (CSeries i s None)
  | None, None =>
      let* up := upMap i in
      match up with
      | Some c => ret c
      | None => byTitleType i
      end
  end.

(** The pool stores [null] for a worker that threw. *)
Fixpoint classifyAll (ids : list string) : M (list (option classified)) :=
  match ids with
  | [] => ret []
  | i :: rest =>
      let* r := tryCatch (let* c := classifyOne i in ret (Some c))
                         (λ _, ret None) in
      let* rs := classifyAll rest in
      ret (r :: rs)
  end.

End Classifier.

(** ** Catalog ids: from the manifest back to the handler *)

(** The id that the manifest gives a catalog:
    [`imdb-${uid}-${lsid}-movies`] or [`imdb-${uid}-${lsid}-series`]. *)
Definition catalogIdOf (uid lsid suffix : string) : string :=
  "imdb-" +:+ uid +:+ "-" +:+ lsid +:+ "-" +:+ suffix.

(** A list id as the configure API stores it: [ls] and at least one digit. *)
Definition isLsid (lsid : string) : bool :=
  match Js.chars lsid with
  | a :: b :: ds =>
      Js.eqChar a "l"%char && Js.eqChar b "s"%char
      && negb (length ds =? 0)%nat && forallb Js.isDigit ds
  | _ => false
  end.

(** ** lib/classifier.mjs: the title type read from a detail page *)

(** The first loop of [resolveTitleTypeFromImdb]: the [@type] of a JSON-LD
    block, in lower case, is turned into a title type or passed over. *)
Definition ldTitleType (ty : string) : option string :=
  let t := Js.toLowerCase ty in
  if Js.strEq t "movie" then Some "movie"
  else if Js.strEq t "tvseries" then Some "tvSeries"
  else if Js.strEq t "tvepisode" || Js.strEq t "episode" then Some "tvEpisode"
  else if Js.strEq t "tvminiseries" || Js.includes t "miniseries"
  then Some "tvMiniSeries"
  else None.

Fixpoint firstLdType (types : list string) : option string :=
  match types with
  | [] => None
  | ty :: rest =>
      match ldTitleType ty with
      | Some k => Some k
      | None => firstLdType rest
      end
  end.

(** The object [map] of the second step: label text to title type. *)
Definition TITLE_TYPE_LABELS : list (string * string) :=
  [("TV Series", "tvSeries"); ("TV Mini Series", "tvMiniSeries");
   ("TV Movie", "tvMovie"); ("TV Special", "tvSpecial");
   ("TV Short", "tvShort"); ("Short", "short");
   ("Music Video", "musicVideo"); ("Video Game", "videoGame");
   ("Podcast Series", "podcastSeries"); ("Podcast Episode", "podcastEpisode");
   ("Video", "video")].

(** [resolveTitleTypeFromImdb] once the page is fetched. [ldTypes] are the
    [@type] members (as strings) of the JSON-LD blocks that have one, in
    page order; [label] is the text matched by the label pattern, without
    its angle brackets and trimmed, when the pattern matches. *)
Definition titleTypeFromPage (ldTypes : list string) (label : option string)
  : option string :=
  match firstLdType ldTypes with
  | Some k => Some k
  | None =>
      match label with
      | Some l => mapGet TITLE_TYPE_LABELS l
      | None => None
      end
  end.

(** Every title type that a page can give. *)
Definition PAGE_TITLE_TYPES : list string :=
  ["movie"; "tvSeries"; "tvEpisode"; "tvMiniSeries"; "tvMovie"; "tvSpecial";
   "tvShort"; "short"; "musicVideo"; "videoGame"; "podcastSeries";
   "podcastEpisode"; "video"].

(** * lib/classifier.mjs: the episode-to-series cache *)

Module EpParent.

(** The Map [EP_PARENT_LRU]: its entries [tt -> { parent, ts }] in
    insertion order, which is the order in which a Map iterates. *)
Abbreviation lru := (list (string * (string * Z))).

(** [Map.prototype.set]: a present key keeps its place, a new one goes to
    the end. *)
Fixpoint mapSet (k : string) (v : string * Z) (m : lru) : lru :=
  match m with
  | [] => [(k, v)]
  | (k', v') :: r =>
      if Js.strEq k' k then (k', v) :: r else (k', v') :: mapSet k v r
  end.

(** [Map.prototype.delete] *)
Definition mapDelete (k : string) (m : lru) : lru :=
  filter (λ kv, Js.strEq kv.1 k = false) m.

(** [lruGetEpParent(tt)] at time [now]: the parent and the Map afterwards;
    an entry older than [ttl] milliseconds is deleted. *)
Definition lruGetEpParent (ttl now : Z) (i : string) (m : lru)
  : option string * lru :=
  match mapGet m i with
  | None => (None, m)
  | Some (parent, ts) =>
      if ttl <? now - ts then (None, mapDelete i m) else (Some parent, m)
  end.

(** [Math.floor(size * 0.1) || 1]; for the sizes of a Map the product
    rounds to the same integer as the division by ten. *)
Definition toDelete (size : nat) : nat :=
  if (size / 10 =? 0)%nat then 1%nat else (size / 10)%nat.

(** [lruSetEpParent(tt, parent)] at time [now]: above 1000 entries the
    first tenth in iteration order is deleted before the entry is set. *)
Definition lruSetEpParent (now : Z) (i parent : string) (m : lru) : lru :=
  let m := if (1000 <? length m)%nat then drop (toDelete (length m)) m else m in
  mapSet i (parent, now) m.

End EpParent.

(** * Helpers of the classifier, the prefetcher and the other servers *)

(** ** lib/classifier.mjs: [uniqById] *)

(** The loop of [uniqById]: [seen] is the Set of ids met so far. *)
Fixpoint uniqLoop (seen : list string) (arr : list meta) : list meta :=
  match arr with
  | [] => []
  | it :: rest =>
      if negb (optTruthy (m_id it)) then uniqLoop seen rest
      else if setHas seen (idOf it) then uniqLoop seen rest
      else it :: uniqLoop (setAdd seen (idOf it)) rest
  end.

Definition uniqById (arr : list meta) : list meta := uniqLoop [] arr.

(** ** lib/prefetch.js: [extractTtIds] *)

(** [/tt\d{6,}/] at the head of the text: the digits of the match. *)
Definition matchTt (l : list ascii) : option (list ascii) :=
  match l with
  | a :: b :: r =>
      if Js.eqChar a "t"%char && Js.eqChar b "t"%char
      then let ds := takeDigits r in
           if (6 <=? length ds)%nat then Some ds else None
      else None
  | _ => None
  end.

(** [html.matchAll(/tt\d{6,}/g)]: the matches from left to right, each
    search starting where the previous match ended. [fuel] bounds the
    number of steps by the length of the text. *)
Fixpoint matchAllTt (fuel : nat) (l : list ascii) : list (list ascii) :=
  match fuel with
  | O => []
  | S fuel' =>
      match l with
      | [] => []
      | a :: r =>
          match matchTt l with
          | Some ds =>
              ("t"%char :: "t"%char :: ds) :: matchAllTt fuel' (drop (S (length ds)) r)
          | None => matchAllTt fuel' r
          end
      end
  end.

Definition extractTtIds (html : string) : list string :=
  if negb (Js.truthy html) then []
  else
    let l := Js.chars html in
    fold_left setAdd (map Js.str (matchAllTt (S (length l)) l)) [].

(** ** The server with per-list default sorts: sort parameters *)

Definition inList (x : string) (l : list string) : bool := existsb (Js.strEq x) l.

(** [normalizeSortKey(k)]; [None] is a missing key. *)
Definition normalizeSortKey (k : option string) : string :=
  let sk := Js.toLowerCase (Js.orStr k "") in
  if negb (Js.truthy sk) then ""
  else if inList sk ["alpha"; "alphabetical"; "title"; "name"] then "name"
  else if inList sk ["year"; "date"; "released"] then "year"
  else if inList sk ["imdb"; "score"; "rating"; "vote"; "votes"; "popularity";
                     "popular"; "trending"; "hot"] then "rating"
  else if inList sk ["runtime"; "duration"; "length"] then "runtime"
  else if inList sk ["added"; "recent"; "new"; "updated"] then "added"
  else sk.

(** [normalizeOrder(v)] *)
Definition normalizeOrder (v : option string) : string :=
  let ov := Js.toLowerCase (Js.orStr v "asc") in
  if inList ov ["-1"; "desc"; "descending"; "reverse"; "rev"] then "desc"
  else "asc".

(** ** lib/classifier.mjs: the files that [classifyAndWriteSplit] writes *)

(** [x || undefined] *)
Definition keepTruthy (x : option string) : option string :=
  if optTruthy x then x else None.

(** [toMeta(meta, forcedType)]. The members of the answer that the record
    type does not carry ([title], [imdbRatingScore], the pictures, the
    description and the credits) are not modelled; a member that [toMeta]
    does not copy is absent from the result. *)
Definition toMeta (m : meta) (forcedType : string) : meta :=
  Meta (m_id m)
       (if Js.truthy forcedType then Some forcedType else keepTruthy (m_type m))
       (keepTruthy (m_name m))
       (if genreTruthy (m_genres m) then m_genres m else GUndef)
       GUndef
       (orScalar (m_year m) SUndef)
       (orScalar (m_releaseInfo m) SUndef)
       (RScalar SUndef)
       (orScalar (m_imdbRating m) SUndef)
       SUndef
       SUndef
       (orScalar (m_runtime m) SUndef)
       SUndef.

(** The loop over the results: a movie result is pushed to [movies], a
    series result to [seriesArr], each as [toMeta] of its record. *)
Definition filedAs (movie : bool) (r : option classified) : option meta :=
  match r with
  | Some (CMovie _ m) => if movie then Some (toMeta m "movie") else None
  | Some (CSeries _ s _) => if movie then None else Some (toMeta s "series")
  | _ => None
  end.

(** [moviesUniq] and [seriesUniq]: what is written to [<lsid>-movies.json]
    and to [<lsid>-series.json]. *)
Definition moviesFile (results : list (option classified)) : list meta :=
  uniqById (omap (filedAs true) results).
Definition seriesFile (results : list (option classified)) : list meta :=
  uniqById (omap (filedAs false) results).

(** ** lib/imdbTypeClassifier.mjs: title types and buckets *)

Definition MOVIE_TYPES : list string :=
  ["movie"; "tvmovie"; "short"; "tvshort"; "video"; "tvspecial"; "musicvideo"].
Definition SERIES_TYPES : list string := ["tvseries"; "tvminiseries"].

Definition LABEL_TO_TITLETYPE : list (string * string) :=
  [("movie", "movie"); ("feature film", "movie"); ("tv movie", "tvmovie");
   ("short", "short"); ("tv short", "tvshort"); ("video", "video");
   ("tv special", "tvspecial"); ("music video", "musicvideo");
   ("tv series", "tvseries"); ("tv mini series", "tvminiseries");
   ("mini-series", "tvminiseries"); ("miniseries", "tvminiseries");
   ("tv episode", "tvepisode"); ("video game", "videogame");
   ("podcast series", "podcastseries"); ("podcast episode", "podcastepisode")].

(** [titleTypeFromLabel(label)] *)
Definition titleTypeFromLabel (label : option string) : option string :=
  if negb (optTruthy label) then None
  else keepTruthy (mapGet LABEL_TO_TITLETYPE (Js.toLowerCase (Js.trim (strOr label)))).

(** [bucketFor(titleTypeRaw)]; [includeMusic] is the setting
    INCLUDE_MUSIC_VIDEO of the process. A title type of the excluded set
    and an unknown one both give [null]. *)
Definition bucketFor (includeMusic : bool) (titleTypeRaw : string) : option string :=
  if negb (Js.truthy titleTypeRaw) then None
  else
    let tt := Js.toLowerCase (Js.trim titleTypeRaw) in
    if Js.strEq tt "musicvideo" && negb includeMusic then None
    else if setHas MOVIE_TYPES tt then Some "movie"
    else if setHas SERIES_TYPES tt then Some "series"
    else None.

(** ** lib/prefetch.js: [classifyAndFetch] and the split of [warmList] *)

(** A member of the [videos] array of a record. *)
Record video := Video { vd_type : option string; vd_season : scalar }.

(** What the prefetcher reads besides the members that [meta] carries: the
    setting INCLUDE_MUSIC_VIDEO, and the members [videos] (when it is an
    array) and [totalSeasons] of the record that the metadata service
    returns to a request of a given time, type and id. *)
Record Prefetcher := MkPrefetcher {
  includeMusicVideo : bool;
  videosOf : Z → string → string → option (list video);
  totalSeasonsOf : Z → string → string → scalar
}.

(** The second argument of [classifyAndFetch]. *)
Record rawHints := RawHints { titleLabel : option string; titleType : option string }.

Section Warm.
Variable env : Env.
Variable pf : Prefetcher.

(** [looksLikeSeries(meta)] *)
Definition looksLikeSeries (m : option meta) (videos : option (list video))
    (totalSeasons : scalar) : bool :=
  match m with
  | None => false
  | Some x =>
      Js.strEq (Js.toLowerCase (strOr (m_type x))) "series"
      || match videos with
         | Some vs =>
             existsb (λ v, Js.strEq (Js.toLowerCase (strOr (vd_type v))) "series"
                           || scalarTruthy (vd_season v)) vs
         | None => false
         end
      || Num.lt Num.zero (numberOf (toNumber env) (orZero totalSeasons))
  end.

(** [status === 'fulfilled' && value.ok] *)
Definition okOf (r : response) : bool :=
  match r with
  | Http ok _ => ok
  | NetErr => false
  end.

(** [safeMeta(resp)] *)
Definition safeMeta (r : response) : option meta :=
  match r with
  | Http true (Json m) => m
  | _ => None
  end.

(** [value.clone().json()] inside [try], then [.meta] *)
Definition jsonMeta (r : response) : option meta :=
  match r with
  | Http _ (Json m) => m
  | _ => None
  end.

(** [bucketFor(String(titleTypeFromLabel(raw.titleLabel) || raw.titleType
    || '').toLowerCase())] *)
Definition mappedBucket (raw : rawHints) : option string :=
  bucketFor (includeMusicVideo pf)
    (Js.toLowerCase
       (match titleTypeFromLabel (titleLabel raw) with
        | Some t => t
        | None => Js.orStr (titleType raw) ""
        end)).

(** The decision of [classifyAndFetch] from the two settled requests of
    time [t]: the type ([None] is [null]) and the record. *)
Definition classifyFetched (t : Z) (tt : string) (raw : rawHints)
    (m s : response) : option string * option meta :=
  let okM := okOf m in
  let okS := okOf s in
  if okM && negb okS then (Some "movie", safeMeta m)
  else if okS && negb okM then (Some "series", safeMeta s)
  else if okS && okM then
    match mappedBucket raw with
    | Some "series" => (Some "series", safeMeta s)
    | Some "movie" => (Some "movie", safeMeta m)
    | _ =>
        let mm := jsonMeta m in
        let sm := jsonMeta s in
        if looksLikeSeries sm (videosOf pf t "series" tt)
                           (totalSeasonsOf pf t "series" tt)
        then (Some "series", sm)
        else if Js.strEq (Js.toLowerCase
                            (strOr (match mm with Some x => m_type x | None => None end)))
                         "movie"
        then (Some "movie", mm)
        else (Some "series", match sm with Some _ => sm | None => safeMeta s end)
    end
  else (None, None).

(** [classifyAndFetch(tt, raw)]: both requests are sent at once and
    settled together; a request that fails is not an exception here. *)
Definition classifyAndFetch (tt : string) (raw : rawHints)
  : M (option string * option meta) :=
  λ w,
    let t := clock w in
    (Ok (classifyFetched t tt raw (cinemeta env t "movie" tt)
                         (cinemeta env t "series" tt)),
     setClock (setCalls w (calls w ++ [("movie", tt); ("series", tt)]))
              (t + Z.max (latency env t "movie" tt) (latency env t "series" tt))).

(** The item that [warmList] stores for a record, with the members that
    the record type carries ([title], the pictures, the description and
    the credits are not modelled); [addedAt] is the running number. *)
Definition warmItem (tt t : string) (m : meta) (idx : Z) : meta :=
  Meta (Some (Js.orStr (m_id m) tt))
       (Some t)
       (Some (Js.orStr (m_name m) (Js.orStr (m_id m) tt)))
       (m_genres m)
       GUndef
       (m_year m)
       SUndef
       (RScalar SUndef)
       (let n := ratingOf (toNumber env) m in
        if Num.truthy n then SNum n else SUndef)
       SUndef
       SUndef
       (m_runtime m)
       (SNum (Fin (inject_Z idx))).

(** Step 2 of [warmList] ("Classify & enrich"): from the ids that step 1
    collected to the arrays [movies] and [series] that [writeCache]
    stores; [idx] is the next running number. *)
Fixpoint warmSplit (ids : list string) (idx : Z) : M (list meta * list meta) :=
  match ids with
  | [] => ret ([], [])
  | i :: rest =>
      let* r := classifyAndFetch i (RawHints None None) in
      match r with
      | (Some ty, Some m) =>
          let t := if Js.strEq ty "series" then "series" else "movie" in
          let item := warmItem i t m idx in
          let* split := warmSplit rest (idx + 1) in
          ret (if Js.strEq t "movie" then (item :: split.1, split.2)
               else (split.1, item :: split.2))
      | _ => warmSplit rest idx
      end
  end.

End Warm.

(** * The configure API: list management *)

Module Configure.

(** An entry of a user's [lists] with all the members that the configure
    API and the manifest read or write; a bare list id is a string. *)
Record listObj := ListObj {
  l_id : option string;
  l_lsid : option string;
  l_name : option string;
  l_showIn : option string;
  l_visibility : option visibility
}.

Inductive item :=
  | Bare (s : string)
  | Obj (o : listObj).

(** The entry as the catalog handler and the visibility gate see it. *)
Definition erase (x : item) : listEntry :=
  match x with
  | Bare s => LStr s
  | Obj o => LObj (l_id o) (l_lsid o) (l_showIn o) (l_visibility o)
  end.

(** The process state seen by the configure API and the manifest: the
    caches and the clock of the catalog pipeline, the [users] Map with the
    full entries, the contents of users.json as [_saveNow] last wrote them,
    and the cache entries under the key prefix [genres:]. *)
Record Server := MkServer {
  world : World;
  registry : gmap string (list item);
  disk : gmap string (list item);
  memGenres : gmap string (entry (list string))
}.

Definition setWorld (s : Server) (w : World) : Server :=
  MkServer w (registry s) (disk s) (memGenres s).
Definition setRegistry (s : Server) (r : gmap string (list item)) : Server :=
  MkServer (world s) r (disk s) (memGenres s).
Definition setMemGenres (s : Server) (m : gmap string (entry (list string)))
  : Server :=
  MkServer (world s) (registry s) (disk s) m.

Definition S (A : Type) : Type := Server → result A * Server.

Definition sret {A} (a : A) : S A := λ s, (Ok a, s).
Definition sbind {A B} (c : S A) (k : A → S B) : S B :=
  λ s, match c s with
       | (Ok a, s') => k a s'
       | (Throw e, s') => (Throw e, s')
       end.
Definition stry {A} (c : S A) (h : exn → S A) : S A :=
  λ s, match c s with
       | (Ok a, s') => (Ok a, s')
       | (Throw e, s') => h e s'
       end.
(** A computation of the catalog pipeline run on the caches and the clock. *)
Definition liftW {A} (c : M A) : S A :=
  λ s, let '(r, w) := c (world s) in (r, setWorld s w).

Notation "'let!' x ':=' c 'in' k" := (sbind c (λ x, k))
  (at level 10, x pattern, c at level 100, k at level 200).
Notation "c ';;;' k" := (sbind c (λ _, k))
  (at level 100, k at level 200, right associativity).

(** [getUser(uid)]: an unknown uid gets a record with no lists. *)
Definition getUser (uid : string) : S (list item) :=
  λ s, match registry s !! uid with
       | Some lists => (Ok lists, s)
       | None => (Ok [], setRegistry s (<[uid := []]> (registry s)))
       end.

(** [u.lists = lists] for the record of [uid]. *)
Definition setLists (uid : string) (lists : list item) : S unit :=
  λ s, (Ok (), setRegistry s (<[uid := lists]> (registry s))).

(** [_saveNow()]: users.json receives every record of the Map. *)
Definition _saveNow : S unit :=
  λ s, (Ok (), MkServer (world s) (registry s) (registry s) (memGenres s)).

Inductive apiBody :=
  | ApiLists (lists : list item)
  | ApiError (error : string)
  | ApiId (id : string)
  | ApiOk.
Record apiResponse := ApiResponse { a_status : Z; a_body : apiBody }.

(** [(x.id || x) === lsid] and [(x.id || x.lsid || x) === lsid] *)
Definition hasId (lsid : string) (x : item) : bool := entryHasId lsid (erase x).
Definition hasIdOrLsid (lsid : string) (x : item) : bool := gateHasId lsid (erase x).

(** [srcRaw.match(/ls\d{6,}/i)]: the leftmost [ls] followed by at least six
    digits, with all the digits that follow. *)
Definition matchLs (l : list ascii) : option (list ascii) :=
  match l with
  | a :: b :: r =>
      if Js.eqChar (Js.lowerChar a) "l"%char && Js.eqChar (Js.lowerChar b) "s"%char
      then let ds := takeDigits r in
           if (6 <=? length ds)%nat then Some (a :: b :: ds) else None
      else None
  | _ => None
  end.

Fixpoint findListId (l : list ascii) : option (list ascii) :=
  match l with
  | [] => None
  | _ :: r =>
      match matchLs l with
      | Some m => Some m
      | None => findListId r
      end
  end.

(** [/^ls\d{6,}$/i.test(lsid)] *)
Definition isListId (lsid : string) : bool :=
  match Js.chars lsid with
  | a :: b :: ds =>
      Js.eqChar (Js.lowerChar a) "l"%char && Js.eqChar (Js.lowerChar b) "s"%char
      && (6 <=? length ds)%nat && forallb Js.isDigit ds
  | _ => false
  end.

(** [GET /api/user/:uid/lists] *)
Definition getLists (uid : string) : S apiResponse :=
  let! lists := getUser uid in
  sret (ApiResponse 200 (ApiLists lists)).

(** [(req.body && req.body.src) ? String(req.body.src).trim() : ''] *)
Definition sourceOf (src : option string) : string :=
  if optTruthy src then Js.trim (strOr src) else "".

Section Handlers.
Variable env : Env.
(** The title of a list as [fetchImdbIds] reports it at a given time: the
    title found on the list page or ["IMDb List <lsid>"], never empty. *)
Variable listTitle : Z → string → string.

(** [{ ...(typeof x === 'object' ? x : { id: lsid }), name: title }] *)
Definition renamed (lsid title : string) (x : item) : item :=
  match x with
  | Bare _ => Obj (ListObj (Some lsid) None (Some title) None None)
  | Obj o => Obj (ListObj (l_id o) (l_lsid o) (Some title) (l_showIn o)
                          (l_visibility o))
  end.

(** [POST /api/user/:uid/lists] with [req.body.src]. *)
Definition postList (uid : string) (src : option string) : S apiResponse :=
  stry
    (let! lists := getUser uid in
     let srcRaw := sourceOf src in
     if negb (Js.truthy srcRaw) then sret (ApiResponse 400 (ApiError "Missing src"))
     else
       let lsid := Js.toLowerCase
                     (match findListId (Js.chars srcRaw) with
                      | Some m => Js.str m
                      | None => srcRaw
                      end) in
       if negb (isListId lsid)
       then sret (ApiResponse 400 (ApiError "Invalid IMDb list id or URL"))
       else
         let! title :=
           stry (let! t := liftW (gets (λ w, listTitle (clock w) lsid)) in
                 let! _ := liftW (fetchImdbIds env lsid) in
                 sret (Js.orStr (Some t) ("IMDb List " +:+ lsid)))
                (λ _, sret ("IMDb List " +:+ lsid)) in
         let exists_ := existsb (hasIdOrLsid lsid) lists in
         (if negb exists_
          then setLists uid
                 (lists ++ [Obj (ListObj (Some lsid) None (Some title)
                                         (Some "discover") None)])
          else setLists uid
                 (map (λ x, if hasId lsid x then renamed lsid title x else x)
                      lists)) ;;;
         _saveNow ;;;
         sret (ApiResponse 200 (ApiId lsid)))
    (λ _, sret (ApiResponse 500 (ApiError "Failed to add list"))).

(** The body of a PATCH request: [name] when it is a string, [showIn] as a
    string ("" when falsy), and the [visibility] object with, for each
    type, the truth values of its [discover] and [home] members. *)
Record patchBody := PatchBody {
  b_name : option string;
  b_showIn : option string;
  b_visibility : option (option (bool * bool) * option (bool * bool))
}.

(** [{ discover: !!v.discover, home: !!v.home }] for [v = given || {}] *)
Definition flagsOf (given : option (bool * bool)) : visFlags :=
  match given with
  | Some (d, h) => VisFlags (Some d) (Some h)
  | None => VisFlags (Some false) (Some false)
  end.

Definition patched (lsid : string) (body : patchBody) (x : item) : item :=
  if negb (hasId lsid x) then x
  else
    let out := match x with
               | Bare _ => ListObj (Some lsid) None None None None
               | Obj o => o
               end in
    let out := match b_name body with
               | Some n => ListObj (l_id out) (l_lsid out) (Some n) (l_showIn out)
                                   (l_visibility out)
               | None => out
               end in
    let out := if optTruthy (b_showIn body)
               then ListObj (l_id out) (l_lsid out) (l_name out) (b_showIn body)
                            (l_visibility out)
               else out in
    let out := match b_visibility body with
               | Some (vm, vs) =>
                   ListObj (l_id out) (l_lsid out) (l_name out) (l_showIn out)
                           (Some (Visibility (Some (flagsOf vm)) (Some (flagsOf vs))))
               | None => out
               end in
    Obj out.

(** [PATCH /api/user/:uid/lists/:lsid] *)
Definition patchList (uid lsid : string) (body : patchBody) : S apiResponse :=
  let! lists := getUser uid in
  setLists uid (map (patched lsid body) lists) ;;;
  _saveNow ;;;
  sret (ApiResponse 200 ApiOk).

(** [DELETE /api/user/:uid/lists/:lsid] *)
Definition deleteList (uid lsid : string) : S apiResponse :=
  let! lists := getUser uid in
  setLists uid (filter (λ x, hasId lsid x = false) lists) ;;;
  _saveNow ;;;
  sret (ApiResponse 200 ApiOk).

End Handlers.

(** ** The manifest *)

Definition genresKey (lsid type : string) : string :=
  "genres:" +:+ lsid +:+ ":" +:+ type.

Definition getCacheGenres (key : string) : S (option (list string)) :=
  λ s, let '(v, st) := cacheRead (memGenres s) (clock (world s)) key in
       (Ok v, setMemGenres s st).
Definition setCacheGenres (key : string) (v : list string) (ttlSec : Z) : S unit :=
  λ s, (Ok (), setMemGenres s (cacheWrite (memGenres s) (clock (world s)) key v ttlSec)).

(** [for (const g of s) if (DEFAULT_GENRES.includes(g)) have.add(g)] *)
Definition noteGenres (have : list string) (s : list string) : list string :=
  fold_left (λ h g, if setHas DEFAULT_GENRES g then setAdd h g else h) s have.

Section Manifest.
Variable env : Env.

(** The workers of [listGenresForType] only add to the set [have], so the
    set is that of one pass over the ids. *)
Fixpoint collectGenres (type : string) (ids : list string) (have : list string)
  : M (list string) :=
  match ids with
  | [] => ret have
  | i :: rest =>
      let* meta := getTypedMetaDeterministic env type i in
      match meta with
      | None => collectGenres type rest have
      | Some m =>
          let raw := if genreTruthy (m_genres m) then m_genres m else m_genre m in
          collectGenres type rest (noteGenres have (explodeToCanonicalSet raw))
      end
  end.

Definition listGenresForType (lsid type : string) : S (list string) :=
  let ck := genresKey lsid type in
  let! cached := getCacheGenres ck in
  match cached with
  | Some arr => sret arr
  | None =>
      let! ids := liftW (fetchImdbIds env lsid) in
      let! have := liftW (collectGenres type ids []) in
      let arr := filter (λ g, setHas have g = true) DEFAULT_GENRES in
      setCacheGenres ck arr (6 * 3600) ;;;
      sret arr
  end.

(** An entry of a catalog's [extra] array. *)
Record extraDef := ExtraDef {
  x_name : string;
  x_options : option (list string);
  x_isRequired : option bool
}.

Record catalog := Catalog {
  c_id : string;
  c_type : string;
  c_name : string;
  c_extra : list extraDef;
  c_genres : list string
}.

Record manifest := Manifest {
  mf_id : string;
  mf_version : string;
  mf_name : string;
  mf_description : string;
  mf_resources : list string;
  mf_types : list string;
  mf_catalogs : list catalog;
  mf_configurable : bool;
  mf_configurationRequired : bool
}.

(** [l.id || l.lsid || l]; an entry with neither member is the object
    itself, which the template strings print as [[object Object]]. *)
Definition lsidOf (l : item) : string :=
  match l with
  | Bare s => s
  | Obj o =>
      if optTruthy (l_id o) then strOr (l_id o)
      else if optTruthy (l_lsid o) then strOr (l_lsid o)
      else "[object Object]"
  end.

(** [l.name || `IMDb List ${lsid}`] *)
Definition nameOf (l : item) : string :=
  match l with
  | Bare s => "IMDb List " +:+ s
  | Obj o => Js.orStr (l_name o) ("IMDb List " +:+ lsidOf l)
  end.

(** The catalog pushed for one type: [flags] are [(discover, home)]. *)
Definition catalogFor (uid lsid name type suffix : string) (flags : bool * bool)
    (genres : list string) : catalog :=
  Catalog (catalogIdOf uid lsid suffix) type name
    [ExtraDef "search" None None; ExtraDef "skip" None None;
     ExtraDef "limit" None None;
     ExtraDef "sort" (Some ["added"; "name"; "year"; "rating"; "runtime"]) None;
     ExtraDef "order" (Some ["asc"; "desc"]) None;
     ExtraDef "genre" (Some (if flags.2 then genres else "Top" :: genres))
              (Some (negb flags.2))]
    genres.

Definition typeCatalog (uid : string) (l : item) (type suffix : string)
    (flags : bool * bool) (has : bool) : S (list catalog) :=
  if has && (flags.1 || flags.2) then
    let! genres := listGenresForType (lsidOf l) type in
    sret [catalogFor uid (lsidOf l) (nameOf l) type suffix flags genres]
  else sret [].

Fixpoint manifestCatalogs (uid : string) (lists : list item) : S (list catalog) :=
  match lists with
  | [] => sret []
  | l :: rest =>
      let vis := visibilityFor (Some (erase l)) in
      let! hasMovies := liftW (hasType env (lsidOf l) "movie" 120) in
      let! hasSeries := liftW (hasType env (lsidOf l) "series" 120) in
      let! movies := typeCatalog uid l "movie" "movies" vis.1 hasMovies in
      let! series := typeCatalog uid l "series" "series" vis.2 hasSeries in
      let! more := manifestCatalogs uid rest in
      sret (movies ++ series ++ more)
  end.

(** [GET /manifest.json]; [uidParam] is the [uid] parameter of the query
    string. *)
Definition manifestHandler (uidParam : option string) : S manifest :=
  let uid := Js.orStr uidParam "default" in
  let! lists := getUser uid in
  let! catalogs := manifestCatalogs uid lists in
  sret (Manifest "com.imdbstream.local" "1.3.1" "IMDbStream"
          "IMDb list splitter (Movies/Series) with genre filter"
          ["catalog"] ["movie"; "series"] catalogs true false).

End Manifest.

End Configure.

(** * Properties *)

(** ** Stable sorting with a strict comparator *)

Section JsSortFacts.
Context {A : Type}.
Implicit Types (cmp : A → A → comparison) (l s : list A).

Lemma insertSorted_perm cmp x l : insertSorted cmp x l ≡ₚ x :: l.
Proof.
  induction l as [|y r IH]; simpl; [done|].
  destruct (cmp x y); try done.
  rewrite IH. apply perm_swap.
Qed.

Lemma jsSort_perm cmp l : jsSort cmp l ≡ₚ l.
Proof.
  induction l as [|x r IH]; simpl; [done|].
  unfold jsSort in *. simpl. rewrite insertSorted_perm. by rewrite IH.
Qed.

Lemma jsSort_length cmp l : length (jsSort cmp l) = length l.
Proof. apply Permutation_length, jsSort_perm. Qed.

(** [cmp] is a strict total order on the members of [l]. *)
Record StrictOn cmp l : Prop := {
  so_trans a b c : a ∈ l → b ∈ l → c ∈ l →
    cmp a b = Lt → cmp b c = Lt → cmp a c = Lt;
  so_flip a b : a ∈ l → b ∈ l → cmp a b = Gt → cmp b a = Lt;
  so_eq a b : a ∈ l → b ∈ l → cmp a b = Eq → a = b;
  so_irrefl a : a ∈ l → cmp a a ≠ Lt
}.

(** [s] lists members of [l] in strictly increasing order. *)
Definition Increasing cmp l s : Prop :=
  StronglySorted (λ a b, cmp a b = Lt) s ∧ Forall (λ a, a ∈ l) s.

Lemma insertSorted_increasing cmp l x s :
  StrictOn cmp l → x ∈ l → x ∉ s →
  Increasing cmp l s → Increasing cmp l (insertSorted cmp x s).
Proof.
  intros HS Hx. induction s as [|y r IH]; intros Hnin [Hs Hin].
  - split; repeat constructor; done.
  - apply StronglySorted_cons in Hs as [Hy Hr].
    apply Forall_cons in Hin as [Hyl Hrl].
    simpl. destruct (cmp x y) eqn:E.
    + apply (so_eq _ _ HS) in E; [|done..]. subst. set_solver.
    + split; [|by repeat constructor].
      apply StronglySorted_cons. split.
      * constructor; [done|].
        rewrite Forall_forall in Hy, Hrl |- *. intros z Hz.
        eapply (so_trans _ _ HS); eauto.
      * apply StronglySorted_cons. done.
    + destruct IH as [IHs IHin]; [set_solver|done|].
      split.
      * apply StronglySorted_cons. split; [|done].
        rewrite Forall_forall in Hy |- *. intros z Hz.
        rewrite insertSorted_perm in Hz.
        apply elem_of_cons in Hz as [->|Hz]; [|eauto].
        by apply (so_flip _ _ HS).
      * by constructor.
Qed.

Lemma jsSort_increasing cmp l :
  StrictOn cmp l → NoDup l → ∀ s, s ⊆ l → NoDup s →
  Increasing cmp l (jsSort cmp s).
Proof.
  intros HS _ s. induction s as [|x r IH]; intros Hsub Hnd.
  - split; constructor.
  - apply NoDup_cons in Hnd as [Hx Hnd].
    change (jsSort cmp (x :: r)) with (insertSorted cmp x (jsSort cmp r)).
    apply insertSorted_increasing; [done|set_solver| |apply IH; [set_solver|done]].
    by rewrite jsSort_perm.
Qed.

Lemma increasing_unique cmp l s1 s2 :
  StrictOn cmp l → Increasing cmp l s1 → Increasing cmp l s2 →
  s1 ≡ₚ s2 → s1 = s2.
Proof.
  intros HS [H1 M1] [H2 M2] Hp.
  eapply StronglySorted_unique_strong; [|exact H1|exact H2|exact Hp].
  intros a b Ha Hb Hab Hba. simpl in *.
  rewrite Forall_forall in M1, M2.
  exfalso. apply (so_irrefl _ _ HS a); [auto|].
  apply (so_trans _ _ HS a b a); auto.
Qed.

(** The result does not depend on the order in which the items come in. *)
Lemma jsSort_permutation_invariant cmp l1 l2 :
  StrictOn cmp l1 → NoDup l1 → l1 ≡ₚ l2 → jsSort cmp l1 = jsSort cmp l2.
Proof.
  intros HS Hnd Hp.
  eapply (increasing_unique cmp l1); [done| | |].
  - by apply (jsSort_increasing cmp l1 HS Hnd l1).
  - apply (jsSort_increasing cmp l1 HS Hnd l2).
    + intros x Hx. by rewrite Hp.
    + by rewrite <-Hp.
  - by rewrite !jsSort_perm.
Qed.

Lemma StronglySorted_rev (R : relation A) l :
  StronglySorted R l → StronglySorted (flip R) (rev l).
Proof.
  induction 1 as [|x l Hl IH Hx]; simpl; [constructor|].
  apply StronglySorted_app_2; [|done|repeat constructor].
  intros a b Ha Hb. apply list_elem_of_singleton in Hb as ->.
  rewrite Forall_forall in Hx. apply Hx.
  apply list_elem_of_In. apply in_rev. by apply list_elem_of_In.
Qed.

Lemma StronglySorted_weaken (R1 R2 : relation A) l :
  (∀ a b, a ∈ l → b ∈ l → R1 a b → R2 a b) →
  StronglySorted R1 l → StronglySorted R2 l.
Proof.
  intros HR. induction 1 as [|x l Hl IH Hx]; [constructor|].
  constructor.
  - apply IH. intros a b Ha Hb. apply HR; set_solver.
  - rewrite Forall_forall in Hx |- *. intros z Hz.
    apply HR; [set_solver..|auto].
Qed.

(** Two comparators that are strict on [l] and opposite to one another on
    distinct members sort [l] into reversed orders. *)
Lemma jsSort_opposite cmp cmp' l :
  StrictOn cmp l → StrictOn cmp' l → NoDup l →
  (∀ a b, a ∈ l → b ∈ l → cmp' a b = Lt → cmp b a = Lt) →
  jsSort cmp' l = rev (jsSort cmp l).
Proof.
  intros HS HS' Hnd Hopp.
  destruct (jsSort_increasing cmp l HS Hnd l) as [H1 M1]; [done|done|].
  destruct (jsSort_increasing cmp' l HS' Hnd l) as [H2 M2]; [done|done|].
  rewrite <-(rev_involutive (jsSort cmp' l)). f_equal.
  eapply (increasing_unique cmp l); [done| |by split|].
  - split.
    + apply StronglySorted_rev in H2.
      eapply StronglySorted_weaken; [|exact H2].
      intros a b Ha Hb Hab. unfold flip in Hab.
      apply Hopp; [| |done].
      * apply list_elem_of_In, in_rev, list_elem_of_In in Hb.
        rewrite Forall_forall in M2. auto.
      * apply list_elem_of_In, in_rev, list_elem_of_In in Ha.
        rewrite Forall_forall in M2. auto.
    + rewrite Forall_forall in M2 |- *. intros a Ha.
      apply M2. by apply list_elem_of_In, in_rev, list_elem_of_In in Ha.
  - rewrite <-Permutation_rev. by rewrite !jsSort_perm.
Qed.

End JsSortFacts.

Section JsSortExt.
Context {A : Type}.
Implicit Types (cmp : A → A → comparison) (l : list A).

Lemma insertSorted_ext cmp1 cmp2 x l :
  (∀ b, b ∈ l → cmp1 x b = cmp2 x b) →
  insertSorted cmp1 x l = insertSorted cmp2 x l.
Proof.
  induction l as [|y r IH]; intros H; simpl; [done|].
  rewrite <-(H y) by set_solver.
  destruct (cmp1 x y); try done.
  f_equal. apply IH. intros b Hb. apply H. set_solver.
Qed.

(** The sort only ever compares members of the array. *)
Lemma jsSort_ext cmp1 cmp2 l :
  (∀ a b, a ∈ l → b ∈ l → cmp1 a b = cmp2 a b) →
  jsSort cmp1 l = jsSort cmp2 l.
Proof.
  induction l as [|x r IH]; intros H; [done|].
  change (insertSorted cmp1 x (jsSort cmp1 r) = insertSorted cmp2 x (jsSort cmp2 r)).
  rewrite IH by (intros a b Ha Hb; apply H; set_solver).
  apply insertSorted_ext. intros b Hb. rewrite jsSort_perm in Hb.
  apply H; set_solver.
Qed.

Lemma StrictOn_ext cmp1 cmp2 l :
  (∀ a b, a ∈ l → b ∈ l → cmp1 a b = cmp2 a b) →
  StrictOn cmp1 l → StrictOn cmp2 l.
Proof.
  intros H [T F E I]. split.
  - intros a b c Ha Hb Hc. rewrite <-!H by done. by apply T.
  - intros a b Ha Hb. rewrite <-!H by done. by apply F.
  - intros a b Ha Hb. rewrite <-!H by done. by apply E.
  - intros a Ha. rewrite <-!H by done. by apply I.
Qed.
End JsSortExt.

(** ** Order facts about numbers and strings *)

Module NumFacts.

Local Opaque Qcompare.

Lemma lt_irrefl x : Num.lt x x = false.
Proof.
  destruct x as [|q| |]; simpl; try done.
  destruct (q ?= q)%Q eqn:E; try done.
  apply Qlt_alt in E. by apply Qlt_irrefl in E.
Qed.

Lemma lt_trans x y z : Num.lt x y = true → Num.lt y z = true → Num.lt x z = true.
Proof.
  destruct x as [|a| |], y as [|b| |], z as [|c| |]; simpl; try done.
  destruct (a ?= b)%Q eqn:E1; try done.
  destruct (b ?= c)%Q eqn:E2; try done.
  intros _ _. apply Qlt_alt in E1, E2.
  assert (a < c)%Q as H by (eapply Qlt_trans; eauto).
  apply Qlt_alt in H. by rewrite H.
Qed.

Lemma lt_asym x y : Num.lt x y = true → Num.lt y x = false.
Proof.
  intros H. destruct (Num.lt y x) eqn:E; [|done].
  pose proof (lt_trans _ _ _ H E) as H'. by rewrite lt_irrefl in H'.
Qed.

Lemma lt_neq x y : Num.lt x y = true → Num.eq x y = false.
Proof.
  destruct x as [|a| |], y as [|b| |]; simpl; try done.
  destruct (a ?= b)%Q eqn:E; try done. intros _.
  apply Qlt_alt in E. apply not_true_is_false. intros H.
  apply Qeq_bool_iff in H. rewrite H in E. by apply Qlt_irrefl in E.
Qed.

Lemma gt_neq x y : Num.lt y x = true → Num.eq x y = false.
Proof.
  destruct x as [|a| |], y as [|b| |]; simpl; try done.
  destruct (b ?= a)%Q eqn:E; try done. intros _.
  apply Qlt_alt in E. apply not_true_is_false. intros H.
  apply Qeq_bool_iff in H. rewrite H in E. by apply Qlt_irrefl in E.
Qed.

Lemma subSign_lt x y : Num.subSign x y = Some Lt ↔ Num.lt x y = true.
Proof.
  destruct x as [|a| |], y as [|b| |]; simpl; try done;
    try (split; congruence).
  destruct (a ?= b)%Q; split; congruence.
Qed.

Lemma subSign_gt x y : Num.subSign x y = Some Gt ↔ Num.lt y x = true.
Proof.
  destruct x as [|a| |], y as [|b| |]; simpl; try done;
    try (split; congruence).
  rewrite <-(Qcompare_antisym a b).
  destruct (a ?= b)%Q; simpl; split; congruence.
Qed.

Lemma subSign_opp x y :
  Num.subSign y x = CompOpp <$> Num.subSign x y.
Proof.
  destruct x as [|a| |], y as [|b| |]; simpl; try done.
  by rewrite <-(Qcompare_antisym a b).
Qed.

Lemma eq_refl x : x ≠ NaN → Num.eq x x = true.
Proof.
  destruct x as [|a| |]; simpl; try done. intros _. by apply Qeq_bool_iff.
Qed.

(** Two values are distinct numbers exactly when one is below the other. *)
Lemma distinct_iff x y :
  Num.lt x y = true ∨ Num.lt y x = true ↔
  x ≠ NaN ∧ y ≠ NaN ∧ Num.eq x y = false.
Proof.
  split.
  - intros [H|H].
    + split_and!; [by destruct x|by destruct x, y|by apply lt_neq].
    + split_and!; [by destruct y, x|by destruct y|by apply gt_neq].
  - intros (Hx & Hy & He).
    destruct x as [|a| |], y as [|b| |]; simpl in *; try done; auto.
    destruct (a ?= b)%Q eqn:E; auto.
    + apply Qeq_alt in E. apply Qeq_bool_iff in E. congruence.
    + right. rewrite <-(Qcompare_antisym a b), E. done.
Qed.

End NumFacts.

Module StrFacts.

Lemma code_inj x y : Js.code x = Js.code y → x = y.
Proof.
  unfold Js.code. intros H.
  rewrite <-(ascii_N_embedding x), <-(ascii_N_embedding y). by rewrite H.
Qed.

Lemma chars_inj a b : Js.chars a = Js.chars b → a = b.
Proof.
  unfold Js.chars. intros H.
  rewrite <-(string_of_list_ascii_of_string a),
          <-(string_of_list_ascii_of_string b). by rewrite H.
Qed.

Lemma ltChars_irrefl a : Js.ltChars a a = false.
Proof.
  induction a as [|x a IH]; simpl; [done|].
  by rewrite N.ltb_irrefl.
Qed.

Lemma ltChars_trans a b c :
  Js.ltChars a b = true → Js.ltChars b c = true → Js.ltChars a c = true.
Proof.
  revert b c. induction a as [|x a IH]; intros [|y b] [|z c]; simpl; try done.
  destruct (Js.code x <? Js.code y)%N eqn:E1.
  - intros _. destruct (Js.code y <? Js.code z)%N eqn:E2.
    + intros _. apply N.ltb_lt in E1, E2.
      assert ((Js.code x <? Js.code z)%N = true) as -> by (apply N.ltb_lt; lia).
      done.
    + destruct (Js.code z <? Js.code y)%N eqn:E3; [done|].
      apply N.ltb_lt in E1. apply N.ltb_ge in E2, E3.
      assert ((Js.code x <? Js.code z)%N = true) as -> by (apply N.ltb_lt; lia).
      done.
  - destruct (Js.code y <? Js.code x)%N eqn:E2; [done|].
    apply N.ltb_ge in E1, E2. assert (Js.code x = Js.code y) as Hxy by lia.
    rewrite Hxy. intros Hab.
    destruct (Js.code y <? Js.code z)%N; [done|].
    destruct (Js.code z <? Js.code y)%N; [done|].
    by apply IH.
Qed.

Lemma ltChars_total a b :
  Js.ltChars a b = false → Js.ltChars b a = false → a = b.
Proof.
  revert b. induction a as [|x a IH]; intros [|y b]; simpl; try done.
  destruct (Js.code x <? Js.code y)%N eqn:E1; [done|].
  destruct (Js.code y <? Js.code x)%N eqn:E2; [done|].
  apply N.ltb_ge in E1, E2. intros H1 H2.
  f_equal; [apply code_inj; lia|by apply IH].
Qed.

Lemma strLt_irrefl a : Js.strLt a a = false.
Proof. apply ltChars_irrefl. Qed.

Lemma strLt_trans a b c :
  Js.strLt a b = true → Js.strLt b c = true → Js.strLt a c = true.
Proof. apply ltChars_trans. Qed.

Lemma strLt_asym a b : Js.strLt a b = true → Js.strLt b a = false.
Proof.
  intros H. destruct (Js.strLt b a) eqn:E; [|done].
  pose proof (strLt_trans _ _ _ H E) as H'. by rewrite strLt_irrefl in H'.
Qed.

Lemma strLt_total a b : Js.strLt a b = false → Js.strLt b a = false → a = b.
Proof. intros H1 H2. apply chars_inj. by apply ltChars_total. Qed.

Lemma strEq_true a b : Js.strEq a b = true ↔ a = b.
Proof. apply String.eqb_eq. Qed.

Lemma strEq_false a b : Js.strEq a b = false ↔ a ≠ b.
Proof. apply String.eqb_neq. Qed.

End StrFacts.

(** ** The decorated array of [sortMetas] *)

Section Decorated.
Implicit Types (arr : list meta) (c : meta → meta → comparison).

Lemma decorate_lookup arr i a :
  decorate arr !! i = Some (a, i) ↔ arr !! i = Some a.
Proof.
  unfold decorate. rewrite lookup_zip_with.
  destruct (arr !! i) as [x|] eqn:E; simpl.
  - rewrite lookup_seq_lt by (by eapply lookup_lt_Some).
    simpl. split; congruence.
  - done.
Qed.

Lemma elem_of_decorate arr a i :
  (a, i) ∈ decorate arr ↔ arr !! i = Some a.
Proof.
  rewrite list_elem_of_lookup. split.
  - intros [k Hk]. unfold decorate in Hk.
    rewrite lookup_zip_with in Hk.
    destruct (arr !! k) as [x|] eqn:E; simpl in Hk; [|done].
    destruct (seq 0 (length arr) !! k) as [n|] eqn:E2; simpl in Hk; [|done].
    apply lookup_seq in E2 as [-> _]. simpl in Hk. by simplify_eq.
  - intros H. exists i. by apply decorate_lookup.
Qed.

Lemma decorate_fst arr : (decorate arr).*1 = arr.
Proof. unfold decorate. apply fst_zip. by rewrite length_seq. Qed.

Lemma decorate_NoDup arr : NoDup (decorate arr).
Proof.
  apply (NoDup_fmap_1 snd). unfold decorate.
  rewrite snd_zip by (by rewrite length_seq). apply NoDup_seq.
Qed.

(** Compare by [c], then by position. *)
Definition lexCmp c (a b : meta * nat) : comparison :=
  match c a.1 b.1 with
  | Eq => Nat.compare a.2 b.2
  | x => x
  end.

(** [c] is a total preorder on the members of [arr]. *)
Record PreorderOn c arr : Prop := {
  po_opp a b : a ∈ arr → b ∈ arr → c b a = CompOpp (c a b);
  po_trans a b d : a ∈ arr → b ∈ arr → d ∈ arr →
    c a b ≠ Gt → c b d ≠ Gt → c a d ≠ Gt
}.

Lemma decorate_member arr a i : (a, i) ∈ decorate arr → a ∈ arr.
Proof. rewrite elem_of_decorate. apply list_elem_of_lookup_2. Qed.

Lemma lexCmp_strict c arr :
  PreorderOn c arr → StrictOn (lexCmp c) (decorate arr).
Proof.
  intros [Hopp Htr].
  assert (Hlt : ∀ a b, a ∈ arr → b ∈ arr → c a b = Lt → c b a = Gt).
  { intros a b Ha Hb E. by rewrite (Hopp a b), E. }
  assert (Heq : ∀ a b, a ∈ arr → b ∈ arr → c a b = Eq → c b a = Eq).
  { intros a b Ha Hb E. by rewrite (Hopp a b), E. }
  split.
  - intros [a i] [b j] [d k] Ha Hb Hd. unfold lexCmp; simpl.
    apply decorate_member in Ha, Hb, Hd.
    intros Hab Hbd.
    assert (c a b ≠ Gt) as Lab by (destruct (c a b); congruence).
    assert (c b d ≠ Gt) as Lbd by (destruct (c b d); congruence).
    pose proof (Htr a b d Ha Hb Hd Lab Lbd) as Lad.
    destruct (c a d) eqn:Ead; [|done|done].
    pose proof (Heq a d Ha Hd Ead) as Eda.
    destruct (c a b) eqn:Eab; [|exfalso|done].
    + destruct (c b d) eqn:Ebd; [|exfalso|done].
      * apply Nat.compare_lt_iff in Hab, Hbd. apply Nat.compare_lt_iff. lia.
      * apply (Htr d a b Hd Ha Hb); [congruence|congruence|by apply Hlt].
    + apply (Htr b d a Hb Hd Ha); [congruence|congruence|by apply Hlt].
  - intros [a i] [b j] Ha Hb. unfold lexCmp; simpl.
    apply decorate_member in Ha, Hb.
    rewrite (Hopp a b Ha Hb).
    destruct (c a b); simpl; try done.
    rewrite Nat.compare_gt_iff, Nat.compare_lt_iff. lia.
  - intros [a i] [b j] Ha Hb. unfold lexCmp; simpl.
    destruct (c a b); try done.
    intros ->%Nat.compare_eq_iff.
    apply elem_of_decorate in Ha, Hb. congruence.
  - intros [a i] Ha. unfold lexCmp; simpl.
    apply decorate_member in Ha.
    pose proof (Hopp a a Ha Ha) as H.
    destruct (c a a); try done. by rewrite Nat.compare_refl.
Qed.

End Decorated.

(** ** Sorting by a numeric key with pairwise distinct values *)

(** Of any two items of [l], one has a key strictly below the other's. Two
    numbers are in this relation exactly when they differ
    ([NumFacts.distinct_iff]). *)
Fixpoint distinctBy (get : meta → num) (l : list meta) : bool :=
  match l with
  | [] => true
  | a :: r =>
      forallb (λ b, Num.lt (get a) (get b) || Num.lt (get b) (get a)) r
      && distinctBy get r
  end.

Lemma distinctBy_lookup get l :
  distinctBy get l = true →
  ∀ i j a b, l !! i = Some a → l !! j = Some b → i ≠ j →
    Num.lt (get a) (get b) = true ∨ Num.lt (get b) (get a) = true.
Proof.
  induction l as [|x r IH]; simpl; [done|].
  intros [Hx Hr]%andb_prop. rewrite forallb_forall in Hx.
  intros [|i] [|j] a b Ha Hb Hij; simplify_eq/=.
  - apply list_elem_of_lookup_2, list_elem_of_In, Hx in Hb.
    apply orb_prop in Hb. done.
  - apply list_elem_of_lookup_2, list_elem_of_In, Hx in Ha.
    apply orb_prop in Ha. tauto.
  - eapply IH; eauto.
Qed.

Lemma distinctBy_filter get (P : meta → Prop) `{∀ x, Decision (P x)} l :
  distinctBy get l = true → distinctBy get (filter P l) = true.
Proof.
  induction l as [|x r IH]; simpl; [done|].
  intros [Hx Hr]%andb_prop. rewrite filter_cons.
  destruct (decide (P x)); [|by apply IH].
  simpl. apply andb_true_intro. split; [|by apply IH].
  rewrite forallb_forall in Hx |- *. intros b Hb. apply Hx.
  apply list_elem_of_In. apply list_elem_of_In in Hb.
  by apply list_elem_of_filter in Hb as [_ ?].
Qed.

Lemma distinctBy_members get l a b :
  distinctBy get l = true → a ∈ l → b ∈ l →
  a = b ∨ Num.lt (get a) (get b) = true ∨ Num.lt (get b) (get a) = true.
Proof.
  intros Hd [i Hi]%list_elem_of_lookup [j Hj]%list_elem_of_lookup.
  destruct (decide (i = j)) as [->|Hij]; [left; congruence|right].
  by eapply distinctBy_lookup.
Qed.

Lemma distinctBy_NoDup get l : distinctBy get l = true → NoDup l.
Proof.
  intros Hd. apply NoDup_alt. intros i j a Hi Hj.
  destruct (decide (i = j)) as [|Hij]; [done|].
  destruct (distinctBy_lookup get l Hd i j a a Hi Hj Hij) as [H|H];
    by rewrite NumFacts.lt_irrefl in H.
Qed.

Lemma distinctBy_nonNaN get l a :
  distinctBy get l = true → (2 ≤ length l)%nat → a ∈ l → get a ≠ NaN.
Proof.
  intros Hd Hlen [i Hi]%list_elem_of_lookup.
  set (j := match i with O => 1%nat | _ => 0%nat end).
  assert (j < length l)%nat as Hj by (subst j; destruct i; lia).
  apply lookup_lt_is_Some in Hj as [b Hb].
  assert (i ≠ j) as Hij by (subst j; destruct i; lia).
  destruct (distinctBy_lookup get l Hd i j a b Hi Hb Hij) as [H|H];
    intros E; rewrite E in H; simpl in H; [done|by destruct (get b)].
Qed.

Lemma nan_dec (x : num) : {x = NaN} + {x ≠ NaN}.
Proof. destruct x; [by left|by right..]. Qed.

Lemma num_le_trans x y z :
  x ≠ NaN → y ≠ NaN → z ≠ NaN →
  Num.lt y x = false → Num.lt z y = false → Num.lt z x = false.
Proof.
  intros Hx Hy Hz Hyx Hzy.
  destruct (Num.lt z x) eqn:E; [|done]. exfalso.
  destruct x as [|a| |], y as [|b| |], z as [|c| |]; simpl in *; try done.
  destruct (b ?= a)%Q eqn:E1; try done;
  destruct (c ?= b)%Q eqn:E2; try done;
  destruct (c ?= a)%Q eqn:E3; try done;
  apply Qlt_alt in E3;
  first [apply Qeq_alt in E1 | apply Qgt_alt in E1];
  first [apply Qeq_alt in E2 | apply Qgt_alt in E2].
  - rewrite E2, E1 in E3. by apply Qlt_irrefl in E3.
  - rewrite E1 in E2. apply (Qlt_irrefl a). eapply Qlt_trans; eauto.
  - rewrite E2 in E3. apply (Qlt_irrefl a). eapply Qlt_trans; eauto.
  - apply (Qlt_irrefl a). eapply Qlt_trans; [exact E1|].
    eapply Qlt_trans; eauto.
Qed.

(** The comparison that [pairCmp] makes before it looks at positions. *)
Definition keyCmp (d : meta → meta → option comparison) (desc : bool)
  (a b : meta) : comparison := flipIf desc (default Eq (d a b)).

Lemma pairCmp_lex d desc arr :
  (∀ i j a b, arr !! i = Some a → arr !! j = Some b → i ≠ j → d a b ≠ None) →
  ∀ A B, A ∈ decorate arr → B ∈ decorate arr →
    lexCmp (keyCmp d desc) A B = pairCmp d desc A B.
Proof.
  intros Hd [a i] [b j] Ha%elem_of_decorate Hb%elem_of_decorate.
  unfold lexCmp, pairCmp, keyCmp; simpl.
  destruct (d a b) as [[]|] eqn:E; simpl.
  - by destruct desc.
  - by destruct desc.
  - by destruct desc.
  - destruct (decide (i = j)) as [->|Hij].
    + destruct desc; simpl; apply Nat.compare_refl.
    + by destruct (Hd i j a b Ha Hb Hij).
Qed.

Lemma numeric_preorder get desc arr :
  distinctBy get arr = true → PreorderOn (keyCmp (numDiff get) desc) arr.
Proof.
  intros Hd. split.
  - intros a b _ _. unfold keyCmp, numDiff.
    rewrite (NumFacts.subSign_opp (get a) (get b)).
    destruct (Num.subSign (get a) (get b)) as [[]|], desc; done.
  - intros a b c Ha Hb Hc.
    assert (Hsame : ∀ x, x ∈ arr → get x = NaN → ∀ y, y ∈ arr → y = x).
    { intros x Hx E y Hy.
      destruct (distinctBy_members get arr y x Hd Hy Hx) as [|[H|H]]; [done|..];
        rewrite E in H; simpl in H; [by destruct (get y)|done]. }
    assert (Hrefl : ∀ x, keyCmp (numDiff get) desc x x ≠ Gt).
    { intros x. unfold keyCmp, numDiff.
      pose proof (NumFacts.subSign_opp (get x) (get x)) as H.
      destruct (Num.subSign (get x) (get x)) as [[]|], desc; done. }
    destruct (nan_dec (get a)) as [Ea|Na].
    { rewrite (Hsame a Ha Ea b Hb), (Hsame a Ha Ea c Hc). auto. }
    destruct (nan_dec (get b)) as [Eb|Nb].
    { rewrite (Hsame b Hb Eb a Ha), (Hsame b Hb Eb c Hc). auto. }
    destruct (nan_dec (get c)) as [Ec|Nc].
    { rewrite (Hsame c Hc Ec a Ha), (Hsame c Hc Ec b Hb). auto. }
    assert (Hle : ∀ x y, keyCmp (numDiff get) false x y ≠ Gt ↔
                         Num.lt (get y) (get x) = false).
    { intros x y. unfold keyCmp, numDiff; simpl.
      pose proof (NumFacts.subSign_gt (get x) (get y)) as [H1 H2].
      destruct (Num.lt (get y) (get x)).
      - rewrite H2 by done. simpl. split; done.
      - split; [done|]. intros _ E.
        destruct (Num.subSign (get x) (get y)) as [[]|]; simpl in E; try done.
        by specialize (H1 eq_refl). }
    assert (Hge : ∀ x y, keyCmp (numDiff get) true x y ≠ Gt ↔
                         Num.lt (get x) (get y) = false).
    { intros x y. unfold keyCmp, numDiff; simpl.
      pose proof (NumFacts.subSign_lt (get x) (get y)) as [H1 H2].
      destruct (Num.lt (get x) (get y)).
      - rewrite H2 by done. simpl. split; done.
      - split; [done|]. intros _ E.
        destruct (Num.subSign (get x) (get y)) as [[]|]; simpl in E; try done.
        by specialize (H1 eq_refl). }
    destruct desc.
    + rewrite !Hge. intros H1 H2. by apply (num_le_trans _ (get b)).
    + rewrite !Hle. intros H1 H2. by apply (num_le_trans _ (get b)).
Qed.

Lemma numeric_no_NaN get arr :
  distinctBy get arr = true →
  ∀ i j a b, arr !! i = Some a → arr !! j = Some b → i ≠ j →
    numDiff get a b ≠ None.
Proof.
  intros Hd i j a b Ha Hb Hij. unfold numDiff.
  destruct (distinctBy_lookup get arr Hd i j a b Ha Hb Hij) as [H|H].
  - apply NumFacts.subSign_lt in H. congruence.
  - apply NumFacts.subSign_gt in H. congruence.
Qed.

Lemma numeric_strict get desc arr :
  distinctBy get arr = true →
  StrictOn (pairCmp (numDiff get) desc) (decorate arr).
Proof.
  intros Hd.
  eapply StrictOn_ext; [apply pairCmp_lex, numeric_no_NaN, Hd|].
  by apply lexCmp_strict, numeric_preorder.
Qed.

(** Descending is the reverse of ascending when no two keys tie. *)
Lemma sortWith_numeric_reverse get arr :
  distinctBy get arr = true →
  sortWith (numDiff get) true arr = rev (sortWith (numDiff get) false arr).
Proof.
  intros Hd. unfold sortWith.
  rewrite (jsSort_opposite (pairCmp (numDiff get) false)
             (pairCmp (numDiff get) true) (decorate arr)).
  - apply map_rev.
  - by apply numeric_strict.
  - by apply numeric_strict.
  - apply decorate_NoDup.
  - intros [a i] [b j] Ha Hb. unfold pairCmp, numDiff; simpl.
    apply elem_of_decorate in Ha, Hb.
    destruct (decide (i = j)) as [->|Hij].
    { assert (a = b) as -> by congruence.
      pose proof (NumFacts.subSign_opp (get b) (get b)) as H.
      destruct (Num.subSign (get b) (get b)) as [[]|]; try done. }
    destruct (distinctBy_lookup get arr Hd i j a b Ha Hb Hij) as [H|H].
    + apply NumFacts.subSign_lt in H. by rewrite H.
    + pose proof H as H'. apply NumFacts.subSign_gt in H. rewrite H.
      apply NumFacts.subSign_lt in H'. by rewrite H'.
Qed.

Lemma strict_from_order {A} (cmp : A → A → comparison) (before : A → A → Prop) l :
  (∀ a b c, a ∈ l → b ∈ l → c ∈ l → before a b → before b c → before a c) →
  (∀ a, a ∈ l → ¬ before a a) →
  (∀ a b, a ∈ l → b ∈ l → cmp a b = Lt ↔ before a b) →
  (∀ a b, a ∈ l → b ∈ l → cmp a b = Gt → before b a) →
  (∀ a b, a ∈ l → b ∈ l → cmp a b = Eq → a = b) →
  StrictOn cmp l.
Proof.
  intros Htr Hirr Hlt Hgt Heq. split.
  - intros a b c Ha Hb Hc. rewrite !Hlt by done. by apply Htr.
  - intros a b Ha Hb H. apply Hlt; [done..|]. by apply Hgt.
  - done.
  - intros a Ha H. apply (Hirr a Ha). by apply Hlt.
Qed.

Section PrefetchRating.
Variable toNumber : string → num.
Implicit Types (l : list meta) (a b : meta).

(** [a] sorts before [b] by rating in the given direction. *)
Definition ratingBefore (desc : bool) a b : Prop :=
  if desc then Num.lt (ratingOf toNumber b) (ratingOf toNumber a) = true
  else Num.lt (ratingOf toNumber a) (ratingOf toNumber b) = true.

Lemma prefetchCmp_rating_same desc a :
  ratingOf toNumber a ≠ NaN → prefetchCmp toNumber "rating" desc a a = Eq.
Proof.
  intros Hn. unfold prefetchCmp, valOf. cbn [Js.strEq String.eqb Ascii.eqb Bool.eqb].
  rewrite NumFacts.eq_refl by done. simpl.
  assert (Js.strEq (nameLc a) (nameLc a) = true) as -> by by apply StrFacts.strEq_true.
  simpl. unfold idCmp. by rewrite StrFacts.strLt_irrefl.
Qed.

Lemma prefetchCmp_rating_lt desc a b :
  Num.lt (ratingOf toNumber a) (ratingOf toNumber b) = true →
  prefetchCmp toNumber "rating" desc a b = flipIf desc Lt.
Proof.
  intros H. unfold prefetchCmp, valOf. cbn [Js.strEq String.eqb Ascii.eqb Bool.eqb].
  rewrite (NumFacts.lt_neq _ _ H), H. done.
Qed.

Lemma prefetchCmp_rating_gt desc a b :
  Num.lt (ratingOf toNumber b) (ratingOf toNumber a) = true →
  prefetchCmp toNumber "rating" desc a b = flipIf desc Gt.
Proof.
  intros H. unfold prefetchCmp, valOf. cbn [Js.strEq String.eqb Ascii.eqb Bool.eqb].
  rewrite (NumFacts.gt_neq _ _ H), (NumFacts.lt_asym _ _ H). done.
Qed.

Lemma prefetch_rating_strict desc l :
  distinctBy (ratingOf toNumber) l = true → (2 ≤ length l)%nat →
  StrictOn (prefetchCmp toNumber "rating" desc) l.
Proof.
  intros Hd Hlen.
  assert (Hcases : ∀ a b, a ∈ l → b ∈ l →
    (a = b ∧ prefetchCmp toNumber "rating" desc a b = Eq) ∨
    (Num.lt (ratingOf toNumber a) (ratingOf toNumber b) = true ∧
     prefetchCmp toNumber "rating" desc a b = flipIf desc Lt) ∨
    (Num.lt (ratingOf toNumber b) (ratingOf toNumber a) = true ∧
     prefetchCmp toNumber "rating" desc a b = flipIf desc Gt)).
  { intros a b Ha Hb.
    destruct (distinctBy_members _ l a b Hd Ha Hb) as [->|[H|H]].
    - left. split; [done|]. apply prefetchCmp_rating_same.
      by eapply distinctBy_nonNaN.
    - right; left. split; [done|]. by apply prefetchCmp_rating_lt.
    - right; right. split; [done|]. by apply prefetchCmp_rating_gt. }
  apply (strict_from_order _ (ratingBefore desc)).
  - intros a b c _ _ _. unfold ratingBefore. destruct desc; intros H1 H2.
    + by apply (NumFacts.lt_trans _ (ratingOf toNumber b)).
    + by apply (NumFacts.lt_trans _ (ratingOf toNumber b)).
  - intros a _. unfold ratingBefore.
    destruct desc; by rewrite NumFacts.lt_irrefl.
  - intros a b Ha Hb. unfold ratingBefore.
    destruct (Hcases a b Ha Hb) as [[-> E]|[[H E]|[H E]]]; rewrite E.
    + split; [done|]. destruct desc; by rewrite NumFacts.lt_irrefl.
    + destruct desc; simpl; split; try done.
      by rewrite (NumFacts.lt_asym _ _ H).
    + destruct desc; simpl; split; try done.
      by rewrite (NumFacts.lt_asym _ _ H).
  - intros a b Ha Hb. unfold ratingBefore.
    destruct (Hcases a b Ha Hb) as [[-> E]|[[H E]|[H E]]]; rewrite E.
    + done.
    + by destruct desc.
    + by destruct desc.
  - intros a b Ha Hb.
    destruct (Hcases a b Ha Hb) as [[-> E]|[[H E]|[H E]]]; rewrite E.
    + done.
    + by destruct desc.
    + by destruct desc.
Qed.

Lemma prefetch_rating_reverse l :
  distinctBy (ratingOf toNumber) l = true →
  jsSort (prefetchCmp toNumber "rating" true) l
  = rev (jsSort (prefetchCmp toNumber "rating" false) l).
Proof.
  intros Hd.
  destruct l as [|x [|y r]]; [done|done|].
  set (l := x :: y :: r) in *.
  assert (2 ≤ length l)%nat as Hlen by (subst l; simpl; lia).
  apply jsSort_opposite.
  - by apply prefetch_rating_strict.
  - by apply prefetch_rating_strict.
  - by eapply distinctBy_NoDup.
  - intros a b Ha Hb.
    destruct (distinctBy_members _ l a b Hd Ha Hb) as [->|[H|H]].
    + rewrite prefetchCmp_rating_same; [done|]. by eapply distinctBy_nonNaN.
    + by rewrite (prefetchCmp_rating_lt true a b H).
    + rewrite (prefetchCmp_rating_gt true a b H),
              (prefetchCmp_rating_lt false b a H). done.
Qed.

End PrefetchRating.

(** Sorting options of a rating sort in the given order. *)
Definition ratingOpts (search : option string) (order : string) : sortOpts :=
  Build_sortOpts search (Some "rating") (Some order) 0 100.

(** C4. When the rating values of the items are pairwise distinct, sorting
    by "rating" in descending order gives exactly the reverse of sorting the
    same items in ascending order, both in the server's [sortMetas] and in
    the sort stage of [applySearchAndSort]. *)
Theorem rating_desc_reverses_asc toNumber localeCompare (arr : list meta)
    (search : option string) :
  distinctBy (getRating toNumber) arr = true →
  distinctBy (ratingOf toNumber) arr = true →
  (∃ asc, sortMetas toNumber localeCompare arr "rating" "asc" = Ok asc ∧
          sortMetas toNumber localeCompare arr "rating" "desc" = Ok (rev asc)) ∧
  sortedItems toNumber (ratingOpts search "desc") arr
  = rev (sortedItems toNumber (ratingOpts search "asc") arr).
Proof.
  intros H1 H2. split.
  - exists (sortWith (numDiff (getRating toNumber)) false arr).
    split; [reflexivity|].
    change (sortMetas toNumber localeCompare arr "rating" "desc")
      with (Ok (sortWith (numDiff (getRating toNumber)) true arr)).
    f_equal. by apply sortWith_numeric_reverse.
  - unfold sortedItems.
    change (sortKeyOf (ratingOpts search "desc")) with "rating".
    change (sortKeyOf (ratingOpts search "asc")) with "rating".
    change (Js.strEq (sortOrderOf (ratingOpts search "desc")) "desc") with true.
    change (Js.strEq (sortOrderOf (ratingOpts search "asc")) "desc") with false.
    change (searched (ratingOpts search "desc") arr)
      with (searched (ratingOpts search "asc") arr).
    apply prefetch_rating_reverse.
    unfold searched. destruct (optTruthy _); [|done].
    by apply distinctBy_filter.
Qed.

(** ** Sorting by name *)

Section Preorders.
Implicit Types (c : meta → meta → comparison) (arr : list meta).

(** Compare by [c1], then by [c2]. *)
Definition thenCmp c1 c2 (a b : meta) : comparison :=
  match c1 a b with
  | Eq => c2 a b
  | x => x
  end.

Lemma thenCmp_preorder c1 c2 arr :
  PreorderOn c1 arr → PreorderOn c2 arr → PreorderOn (thenCmp c1 c2) arr.
Proof.
  intros [O1 T1] [O2 T2]. split.
  - intros a b Ha Hb. unfold thenCmp. rewrite (O1 a b Ha Hb).
    destruct (c1 a b); simpl; auto.
  - intros a b d Ha Hb Hd. unfold thenCmp. intros Hab Hbd.
    assert (c1 a b ≠ Gt) as Lab by (destruct (c1 a b); congruence).
    assert (c1 b d ≠ Gt) as Lbd by (destruct (c1 b d); congruence).
    pose proof (T1 a b d Ha Hb Hd Lab Lbd) as Lad.
    destruct (c1 a d) eqn:Ead; [|done|done].
    assert (c1 d a = Eq) as Eda by (by rewrite (O1 a d), Ead).
    destruct (c1 a b) eqn:Eab; [|exfalso|done].
    + destruct (c1 b d) eqn:Ebd; [|exfalso|done].
      * by apply (T2 a b d).
      * apply (T1 d a b Hd Ha Hb); [congruence|congruence|].
        by rewrite (O1 b d), Ebd.
    + apply (T1 b d a Hb Hd Ha); [congruence|congruence|].
      by rewrite (O1 a b), Eab.
Qed.

Lemma preorder_strict c arr :
  PreorderOn c arr →
  (∀ a b, a ∈ arr → b ∈ arr → c a b = Eq → a = b) →
  StrictOn c arr.
Proof.
  intros [O T] HE. split.
  - intros a b d Ha Hb Hd Hab Hbd.
    assert (c a d ≠ Gt) as Lad by (apply (T a b d); congruence).
    destruct (c a d) eqn:Ead; [|done|done].
    apply HE in Ead; [|done..]. subst d.
    rewrite (O a b) in Hbd by done. by rewrite Hab in Hbd.
  - intros a b Ha Hb H. by rewrite (O a b), H.
  - done.
  - intros a Ha H. pose proof (O a a Ha Ha) as H'. by rewrite H in H'.
Qed.

Lemma flip_preorder c arr desc :
  PreorderOn c arr → PreorderOn (λ a b, flipIf desc (c a b)) arr.
Proof.
  intros [O T]. destruct desc; simpl; [|by split]. split.
  - intros a b Ha Hb. by rewrite (O a b).
  - intros a b d Ha Hb Hd Hab Hbd.
    rewrite (O d a) by done. rewrite (O b a) in Hab by done.
    rewrite (O d b) in Hbd by done.
    rewrite CompOpp_involutive in *. by apply (T d b a).
Qed.

End Preorders.

(** Three-way comparison of strings by code units. *)
Definition strCmp (x y : string) : comparison :=
  if Js.strLt x y then Lt else if Js.strLt y x then Gt else Eq.

Lemma strCmp_opp x y : strCmp y x = CompOpp (strCmp x y).
Proof.
  unfold strCmp. destruct (Js.strLt x y) eqn:E1.
  - by rewrite (StrFacts.strLt_asym _ _ E1).
  - by destruct (Js.strLt y x).
Qed.

Lemma strCmp_eq x y : strCmp x y = Eq ↔ x = y.
Proof.
  unfold strCmp. split.
  - destruct (Js.strLt x y) eqn:E1; [done|].
    destruct (Js.strLt y x) eqn:E2; [done|]. intros _.
    by apply StrFacts.strLt_total.
  - intros ->. by rewrite StrFacts.strLt_irrefl.
Qed.

Lemma strCmp_trans x y z :
  strCmp x y ≠ Gt → strCmp y z ≠ Gt → strCmp x z ≠ Gt.
Proof.
  unfold strCmp. intros Hxy Hyz.
  destruct (Js.strLt x z) eqn:Exz; [done|].
  destruct (Js.strLt z x) eqn:Ezx; [|done]. exfalso.
  destruct (Js.strLt x y) eqn:Exy.
  - destruct (Js.strLt y z) eqn:Eyz.
    + pose proof (StrFacts.strLt_trans _ _ _ Exy Eyz). congruence.
    + destruct (Js.strLt z y) eqn:Ezy; [done|].
      assert (y = z) as -> by (by apply StrFacts.strLt_total). congruence.
  - destruct (Js.strLt y x) eqn:Eyx; [done|].
    assert (x = y) as -> by (by apply StrFacts.strLt_total).
    destruct (Js.strLt y z); [congruence|]. by rewrite Ezx in Hyz.
Qed.

Lemma key_preorder (key : meta → string) arr :
  PreorderOn (λ a b, strCmp (key a) (key b)) arr.
Proof.
  split.
  - intros a b _ _. apply strCmp_opp.
  - intros a b d _ _ _. apply strCmp_trans.
Qed.

Section PrefetchName.
Variable toNumber : string → num.

(** The name comparator of [applySearchAndSort], as a lexicographic order:
    lowercased name, then raw name (both in the requested direction), then
    id. *)
Definition nameOrder (desc : bool) : meta → meta → comparison :=
  thenCmp (λ a b, flipIf desc (strCmp (nameLc a) (nameLc b)))
    (thenCmp (λ a b, flipIf desc (strCmp (nameRaw a) (nameRaw b)))
             (λ a b, strCmp (idOf a) (idOf b))).

Lemma ltSign_strCmp x y : x ≠ y → ltSign (Js.strLt x y) = strCmp x y.
Proof.
  intros Hne. unfold strCmp, ltSign.
  destruct (Js.strLt x y) eqn:E1; [done|].
  destruct (Js.strLt y x) eqn:E2; [done|].
  by destruct Hne; apply StrFacts.strLt_total.
Qed.

Lemma prefetchCmp_name desc a b :
  prefetchCmp toNumber "name" desc a b = nameOrder desc a b.
Proof.
  unfold prefetchCmp, nameOrder, thenCmp.
  cbn [Js.strEq String.eqb Ascii.eqb Bool.eqb].
  destruct (Js.strEq (nameLc a) (nameLc b)) eqn:E1; simpl.
  - apply StrFacts.strEq_true in E1. rewrite E1.
    rewrite (proj2 (strCmp_eq _ _) eq_refl). destruct desc; simpl.
    + destruct (Js.strEq (nameRaw a) (nameRaw b)) eqn:E2; simpl.
      * apply StrFacts.strEq_true in E2. rewrite E2.
        by rewrite (proj2 (strCmp_eq _ _) eq_refl).
      * apply StrFacts.strEq_false in E2. rewrite ltSign_strCmp by done.
        pose proof (strCmp_eq (nameRaw a) (nameRaw b)) as H.
        destruct (strCmp (nameRaw a) (nameRaw b)); simpl; try done.
        by destruct E2; apply H.
    + destruct (Js.strEq (nameRaw a) (nameRaw b)) eqn:E2; simpl.
      * apply StrFacts.strEq_true in E2. rewrite E2.
        by rewrite (proj2 (strCmp_eq _ _) eq_refl).
      * apply StrFacts.strEq_false in E2. rewrite ltSign_strCmp by done.
        pose proof (strCmp_eq (nameRaw a) (nameRaw b)) as H.
        destruct (strCmp (nameRaw a) (nameRaw b)); simpl; try done.
        by destruct E2; apply H.
  - apply StrFacts.strEq_false in E1. rewrite ltSign_strCmp by done.
    pose proof (strCmp_eq (nameLc a) (nameLc b)) as H.
    destruct (strCmp (nameLc a) (nameLc b)); destruct desc; simpl; try done;
      by destruct E1; apply H.
Qed.

Lemma nameOrder_strict desc l :
  NoDup (idOf <$> l) → StrictOn (nameOrder desc) l.
Proof.
  intros Hnd. apply preorder_strict.
  - unfold nameOrder. apply thenCmp_preorder; [|apply thenCmp_preorder].
    + apply (flip_preorder (λ a b, strCmp (nameLc a) (nameLc b))), key_preorder.
    + apply (flip_preorder (λ a b, strCmp (nameRaw a) (nameRaw b))), key_preorder.
    + apply key_preorder.
  - intros a b Ha Hb. unfold nameOrder, thenCmp.
    destruct (flipIf desc (strCmp (nameLc a) (nameLc b))); try done.
    destruct (flipIf desc (strCmp (nameRaw a) (nameRaw b))); try done.
    intros E%strCmp_eq.
    apply list_elem_of_lookup in Ha as [i Hi], Hb as [j Hj].
    assert (i = j) as ->; [|congruence].
    eapply (NoDup_lookup (idOf <$> l)); [done|..].
    + by rewrite list_lookup_fmap, Hi.
    + by rewrite list_lookup_fmap, Hj, E.
Qed.

End PrefetchName.

(** ** Sample data for the worked examples *)

Definition item (id name : string) : meta :=
  Meta (Some id) None (Some name) GUndef GUndef SUndef SUndef (RScalar SUndef)
       SUndef SUndef SUndef SUndef SUndef.

Definition rated (id name : string) (rating : Q) : meta :=
  Meta (Some id) None (Some name) GUndef GUndef SUndef SUndef (RScalar SUndef)
       (SNum (Fin rating)) SUndef SUndef SUndef SUndef.

Definition tagged (id name : string) (genres : genreField) : meta :=
  Meta (Some id) None (Some name) genres GUndef SUndef SUndef (RScalar SUndef)
       SUndef SUndef SUndef SUndef SUndef.

(** A [Number(s)] that reads whole decimal numerals and a collation that
    ignores letter case: enough of the two library functions for the
    examples, which use neither fractions in strings nor accents. *)
Definition wholeNumber (s : string) : num :=
  match parseInt s with
  | Some z => Fin (inject_Z z)
  | None => NaN
  end.

Definition caseFoldCompare (x y : string) : comparison :=
  strCmp (Js.toLowerCase x) (Js.toLowerCase y).

Definition nameOpts (search : option string) (desc : bool) : sortOpts :=
  Build_sortOpts search (Some "name") (Some (if desc then "desc" else "asc")) 0 100.

(** [A] comes before [B] in the server's name sort: by the title without its
    leading article under the collation, ties by original position. *)
Definition serverNameBefore (localeCompare : string → string → comparison)
    (desc : bool) (A B : meta * nat) : Prop :=
  let c := localeCompare (normalizeTitle (m_name A.1)) (normalizeTitle (m_name B.1)) in
  flipIf desc c = Lt ∨ (c = Eq ∧ (A.2 < B.2)%nat).

Lemma caseFoldCompare_opp x y :
  caseFoldCompare y x = CompOpp (caseFoldCompare x y).
Proof. apply strCmp_opp. Qed.

Lemma caseFoldCompare_trans x y z :
  caseFoldCompare x y ≠ Gt → caseFoldCompare y z ≠ Gt → caseFoldCompare x z ≠ Gt.
Proof. apply strCmp_trans. Qed.

Lemma normalizeTitle_examples :
  normalizeTitle (Some "The Matrix") = "Matrix" ∧
  normalizeTitle (Some "An Education") = "Education" ∧
  normalizeTitle (Some "a  Quiet Place ") = "Quiet Place" ∧
  normalizeTitle (Some "Theory") = "Theory" ∧
  normalizeTitle (Some "A") = "A" ∧
  normalizeTitle None = "".
Proof. vm_compute. repeat split. Qed.

(** C5, as stated, fails. In [sortMetas] two names that are equal once the
    article is stripped keep the order they came in, whatever their raw
    names and ids are, so two permutations of one item set sort differently;
    and [applySearchAndSort] does not strip the article. *)
Lemma name_sort_counterexample :
  sortMetas wholeNumber caseFoldCompare
    [item "tt2" "The Matrix"; item "tt1" "Matrix"] "name" "asc"
  = Ok [item "tt2" "The Matrix"; item "tt1" "Matrix"] ∧
  sortMetas wholeNumber caseFoldCompare
    [item "tt1" "Matrix"; item "tt2" "The Matrix"] "name" "asc"
  = Ok [item "tt1" "Matrix"; item "tt2" "The Matrix"] ∧
  sortedItems wholeNumber (nameOpts None false)
    [item "tt3" "The Apple"; item "tt4" "Banana"]
  = [item "tt4" "Banana"; item "tt3" "The Apple"].
Proof. vm_compute. repeat split. Qed.

(** The tie of [sortMetas] is by position for every collation. *)
Lemma sortMetas_name_tie_by_position toNumber localeCompare a b order :
  localeCompare (normalizeTitle (m_name a)) (normalizeTitle (m_name b)) = Eq →
  sortMetas toNumber localeCompare [a; b] "name" order = Ok [a; b].
Proof.
  intros E. unfold sortMetas.
  cbn [Js.toLowerCase Js.chars Js.str list_ascii_of_string string_of_list_ascii
       map Js.lowerChar Js.isUpper Js.code N_of_ascii Js.strEq String.eqb
       Ascii.eqb Bool.eqb orb].
  vm_compute Js.toLowerCase. simpl.
  unfold sortWith, decorate, jsSort, pairCmp. simpl. by rewrite E.
Qed.

(** C5, amended. [sortMetas] orders by the collation of the titles without
    their leading article, changes no item, and keeps the incoming order on
    ties; the name sort of [applySearchAndSort] compares the lowercased raw
    names, then the raw names, then the ids, and for items with distinct ids
    its result is the same for every permutation of the input. *)
Theorem name_sort_orders toNumber localeCompare (arr arr' : list meta)
    (desc : bool) (search : option string) :
  (∀ x y, localeCompare y x = CompOpp (localeCompare x y)) →
  (∀ x y z, localeCompare x y ≠ Gt → localeCompare y z ≠ Gt →
            localeCompare x z ≠ Gt) →
  NoDup (idOf <$> arr) →
  arr ≡ₚ arr' →
  (∃ dec, sortMetas toNumber localeCompare arr "name"
            (if desc then "desc" else "asc") = Ok dec.*1 ∧
          dec ≡ₚ decorate arr ∧
          StronglySorted (serverNameBefore localeCompare desc) dec) ∧
  sortedItems toNumber (nameOpts search desc) arr
  = sortedItems toNumber (nameOpts search desc) arr' ∧
  StronglySorted (λ a b, nameOrder desc a b = Lt)
                 (sortedItems toNumber (nameOpts search desc) arr).
Proof.
  intros Hopp Htr Hnd Hperm.
  set (d := λ a b : meta,
         Some (localeCompare (normalizeTitle (m_name a)) (normalizeTitle (m_name b)))).
  assert (Hsort : sortMetas toNumber localeCompare arr "name"
                    (if desc then "desc" else "asc")
                  = Ok (sortWith d desc arr)) by (by destruct desc).
  assert (HS : StrictOn (pairCmp d desc) (decorate arr)).
  { eapply StrictOn_ext; [by apply pairCmp_lex|].
    apply lexCmp_strict.
    apply (flip_preorder (λ a b, localeCompare (normalizeTitle (m_name a))
                                               (normalizeTitle (m_name b)))).
    split; [intros a b _ _; apply Hopp|intros a b c _ _ _; apply Htr]. }
  assert (Hkey : sortKeyOf (nameOpts search desc) = "name") by done.
  assert (Hord : Js.strEq (sortOrderOf (nameOpts search desc)) "desc" = desc)
    by (by destruct desc).
  assert (Hnd' : NoDup (idOf <$> searched (nameOpts search desc) arr)).
  { eapply sublist_NoDup; [exact Hnd|]. apply fmap_sublist.
    unfold searched. destruct (optTruthy _); [apply sublist_filter|done]. }
  assert (Hitems : sortedItems toNumber (nameOpts search desc) arr
                   = jsSort (nameOrder desc) (searched (nameOpts search desc) arr)).
  { unfold sortedItems. rewrite Hkey, Hord.
    apply jsSort_ext. intros a b _ _. apply prefetchCmp_name. }
  split_and!.
  - exists (jsSort (pairCmp d desc) (decorate arr)). split_and!.
    + done.
    + apply jsSort_perm.
    + destruct (jsSort_increasing _ _ HS (decorate_NoDup arr) (decorate arr))
        as [Hs _]; [done|apply decorate_NoDup|].
      eapply StronglySorted_weaken; [|exact Hs].
      intros [a i] [b j] _ _. unfold pairCmp, serverNameBefore, d; simpl.
      destruct (localeCompare _ _); simpl.
      * rewrite Nat.compare_lt_iff. auto.
      * auto.
      * auto.
  - rewrite Hitems. unfold sortedItems. rewrite Hkey, Hord.
    rewrite (jsSort_ext (prefetchCmp toNumber "name" desc) (nameOrder desc))
      by (intros a b _ _; apply prefetchCmp_name).
    apply jsSort_permutation_invariant.
    + by apply nameOrder_strict.
    + by eapply NoDup_fmap_1.
    + unfold searched. destruct (optTruthy _); [|done]. by rewrite Hperm.
  - rewrite Hitems.
    destruct (jsSort_increasing (nameOrder desc) _
                (nameOrder_strict desc _ Hnd')
                (NoDup_fmap_1 _ _ Hnd') (searched (nameOpts search desc) arr))
      as [Hs _]; [done|by eapply NoDup_fmap_1|done].
Qed.

Lemma rating_desc_reverses_asc_witness :
  (∃ asc,
     sortMetas wholeNumber caseFoldCompare
       [rated "tt1" "Alien" (75 # 10); rated "tt2" "Brazil" 9; rated "tt3" "Cube" (61 # 10)]
       "rating" "asc" = Ok asc ∧
     sortMetas wholeNumber caseFoldCompare
       [rated "tt1" "Alien" (75 # 10); rated "tt2" "Brazil" 9; rated "tt3" "Cube" (61 # 10)]
       "rating" "desc" = Ok (rev asc)) ∧
  sortedItems wholeNumber (ratingOpts None "desc")
    [rated "tt1" "Alien" (75 # 10); rated "tt2" "Brazil" 9; rated "tt3" "Cube" (61 # 10)]
  = rev (sortedItems wholeNumber (ratingOpts None "asc")
    [rated "tt1" "Alien" (75 # 10); rated "tt2" "Brazil" 9; rated "tt3" "Cube" (61 # 10)]).
Proof.
  apply (rating_desc_reverses_asc wholeNumber caseFoldCompare _ None);
    vm_compute; reflexivity.
Defined.

Example rating_sort_example :
  sortMetas wholeNumber caseFoldCompare
    [rated "tt1" "Alien" (75 # 10); rated "tt2" "Brazil" 9; rated "tt3" "Cube" (61 # 10)]
    "rating" "desc"
  = Ok [rated "tt2" "Brazil" 9; rated "tt1" "Alien" (75 # 10); rated "tt3" "Cube" (61 # 10)].
Proof. vm_compute. reflexivity. Qed.

Lemma name_sort_orders_witness :
  (∃ dec, sortMetas wholeNumber caseFoldCompare
            [item "tt2" "The Matrix"; item "tt1" "Matrix"; item "tt3" "Alien"]
            "name" "asc" = Ok dec.*1 ∧
          dec ≡ₚ decorate [item "tt2" "The Matrix"; item "tt1" "Matrix"; item "tt3" "Alien"] ∧
          StronglySorted (serverNameBefore caseFoldCompare false) dec) ∧
  sortedItems wholeNumber (nameOpts None false)
    [item "tt2" "The Matrix"; item "tt1" "Matrix"; item "tt3" "Alien"]
  = sortedItems wholeNumber (nameOpts None false)
    [item "tt1" "Matrix"; item "tt2" "The Matrix"; item "tt3" "Alien"] ∧
  StronglySorted (λ a b, nameOrder false a b = Lt)
    (sortedItems wholeNumber (nameOpts None false)
       [item "tt2" "The Matrix"; item "tt1" "Matrix"; item "tt3" "Alien"]).
Proof.
  apply (name_sort_orders wholeNumber caseFoldCompare _ _ false None).
  - apply caseFoldCompare_opp.
  - apply caseFoldCompare_trans.
  - apply (bool_decide_unpack _). vm_compute. reflexivity.
  - apply perm_swap.
Defined.

(** ** The page size *)

Example parseInt_examples :
  parseInt "20" = Some 20 /\ parseInt " -5x" = Some (-5) /\
  parseInt "abc" = None /\ parseInt "" = None /\ parseInt "0" = Some 0.
Proof. vm_compute. repeat split. Qed.

Example limitOf_examples :
  limitOf {[ "limit" := "0" ]} = 50 /\ limitOf {[ "limit" := "-5" ]} = 1 /\
  limitOf {[ "limit" := "abc" ]} = 50 /\ limitOf {[ "limit" := "200" ]} = 80 /\
  limitOf ∅ = 50.
Proof. vm_compute. repeat split. Qed.

(** C10, as stated, fails: a negative limit does not fall back to 50, it is
    raised to 1. *)
Lemma negative_limit_counterexample :
  parseInt "-5" = Some (-5) ∧ limitOf {[ "limit" := "-5" ]} = 1 ∧
  limitOf {[ "limit" := "-5" ]} ≠ 50.
Proof. vm_compute. repeat split. discriminate. Qed.

(** C10, amended. The effective limit is always between 1 and 80: a missing,
    empty, non-numeric or zero limit gives the default 50, a negative limit
    gives 1, a limit above 80 gives 80, and any other limit is kept. *)
Theorem limit_between_1_and_80 (extras : extrasT) :
  1 ≤ limitOf extras ≤ 80 ∧
  match parseInt (Js.orStr (extras !! "limit") "50") with
  | None => limitOf extras = 50
  | Some v =>
      limitOf extras =
        (if v =? 0 then 50 else if v <? 0 then 1 else if 80 <? v then 80 else v)
  end.
Proof.
  unfold limitOf, orNum.
  destruct (parseInt _) as [v|]; [|lia].
  destruct (v =? 0) eqn:E0; [lia|].
  apply Z.eqb_neq in E0.
  destruct (v <? 0) eqn:E1; [apply Z.ltb_lt in E1; lia|].
  apply Z.ltb_ge in E1.
  destruct (80 <? v) eqn:E2; [apply Z.ltb_lt in E2|apply Z.ltb_ge in E2]; lia.
Qed.

Lemma limit_default_cases :
  parseInt (Js.orStr (Some "") "50") = Some 50 ∧
  parseInt (Js.orStr None "50") = Some 50 ∧
  parseInt (Js.orStr (Some "ten") "50") = None.
Proof. vm_compute. repeat split. Qed.

(** ** Genre explosion *)

Lemma explode_compound_strings :
  explodeToCanonicalSet (GStr "Sci-Fi & Fantasy") = ["Sci-Fi"; "Fantasy"] ∧
  explodeToCanonicalSet (GStr "Action & Adventure") = ["Action"; "Adventure"] ∧
  explodeToCanonicalSet (GArr ["Action & Adventure"]) = ["Action"; "Adventure"] ∧
  genreMatches "Fantasy" (GStr "Sci-Fi & Fantasy") = true ∧
  genreMatches "Action & Adventure" (GArr ["Adventure"]) = true.
Proof. vm_compute. repeat split. Qed.

(** The alias key ["sci-fi & fantasy"] can never be looked up: [_normGenre]
    turns the dash into a space first. *)
Lemma scifi_alias_unreachable :
  _normGenre "Sci-Fi & Fantasy" = "sci fi & fantasy" ∧
  mapGet GENRE_ALIASES "sci fi & fantasy" = None ∧
  canonicalizeGenre "Sci-Fi & Fantasy" = Some "Sci Fi & Fantasy" ∧
  mapGet GENRE_EXPANDS "Sci Fi & Fantasy" = None.
Proof. vm_compute. repeat split. Qed.

(** C6 does not hold for an array holding the compound label "Sci-Fi &
    Fantasy": the explosion is the re-cased compound label, not its
    constituents, and a query for Fantasy does not match the item. *)
Theorem compound_in_array_not_exploded :
  explodeToCanonicalSet (GArr ["Sci-Fi & Fantasy"]) = ["Sci Fi & Fantasy"] ∧
  genreMatches "Fantasy" (GArr ["Sci-Fi & Fantasy"]) = false ∧
  genreStage "Fantasy" [tagged "tt1" "Dune" (GArr ["Sci-Fi & Fantasy"])] = [].
Proof. vm_compute. repeat split. Qed.

(** ** The metadata resolver *)

Definition world0 : World := MkWorld ∅ ∅ [] ∅ 0 [].

(** A service that answers every request with a non-success status, and one
    that knows three titles: a movie, a series, and one with both records. *)
Definition envWith (service : Z → string → string → response) : Env :=
  MkEnv 1800 service (λ _ _ _, 25) (λ _ _, ["tt0000001"; "tt0000002"; "tt0000003"])
        (λ _ _, 40) Some wholeNumber caseFoldCompare
        (λ _ _, None).

Definition envDown : Env := envWith (λ _ _ _, Http false BadJson).

Definition typedItem (id type name : string) : meta :=
  Meta (Some id) (Some type) (Some name) GUndef GUndef SUndef SUndef
       (RScalar SUndef) SUndef SUndef SUndef SUndef SUndef.

Definition threeTitles (_ : Z) (type i : string) : response :=
  if Js.strEq type "movie" && Js.strEq i "tt0000001"
  then Http true (Json (Some (typedItem i "movie" "One")))
  else if Js.strEq type "series" && Js.strEq i "tt0000002"
  then Http true (Json (Some (typedItem i "series" "Two")))
  else if Js.strEq i "tt0000003"
  then Http true (Json (Some (typedItem i type "Three")))
  else Http false BadJson.

Definition envThree : Env := envWith threeTitles.

Ltac run := unfold bind, ret, throw, tryCatch, liftResult, modify, gets in *.

Section ResolverFacts.
Variable env : Env.
Implicit Types (w : World) (type i : string).

(** [w] holds a live cache entry with value [m] for the pair. *)
Definition cachedMeta w type i (m : meta) : Prop :=
  ∃ e, memMeta w !! metaKey type i = Some e ∧ e_v e = m ∧
       (e_exp e = 0 ∨ clock w ≤ e_exp e).

Lemma getMeta_hit w type i m :
  cachedMeta w type i m → getMeta env type i w = (Ok (Some m), w).
Proof.
  intros (e & He & <- & Hexp).
  unfold getMeta, getCacheMeta, cacheRead. run. rewrite He.
  assert (negb (e_exp e =? 0) && (e_exp e <? clock w) = false) as ->.
  { destruct Hexp as [->|H]; [done|].
    apply andb_false_iff. right. apply Z.ltb_ge. lia. }
  simpl. by destruct w.
Qed.

(** The outcome of one call: a cache hit changes nothing; otherwise exactly
    one request is sent, and only a resolved record is stored. *)
Lemma getMeta_cases w type i :
  (∃ m, cachedMeta w type i m ∧ getMeta env type i w = (Ok (Some m), w)) ∨
  (∃ w', (getMeta env type i w).2 = w' ∧
         calls w' = calls w ++ [(type, i)] ∧
         match cinemeta env (clock w) type i with
         | Http true (Json (Some m)) =>
             (getMeta env type i w).1 = Ok (Some m) ∧
             memMeta w' !! metaKey type i
             = Some (Entry m (clock w' + TTL_SEC env * 1000))
         | _ => (getMeta env type i w).1 = Ok None ∧
                memMeta w' !! metaKey type i = None
         end).
Proof.
  destruct (memMeta w !! metaKey type i) as [e|] eqn:He.
  - destruct (negb (e_exp e =? 0) && (e_exp e <? clock w)) eqn:Hx.
    + right. eexists. split; [done|].
      unfold getMeta, getCacheMeta, cacheRead, fetchCinemeta, readJson,
        setCacheMeta, cacheWrite. run. rewrite He, Hx. simpl.
      destruct (cinemeta env (clock w) type i) as [|[] [|[m|]]]; simpl;
        rewrite ?lookup_delete_eq; try done.
      split; [done|]. split; [done|]. by rewrite lookup_insert_eq.
    + left. exists (e_v e).
      assert (cachedMeta w type i (e_v e)) as Hc.
      { exists e. split_and!; [done..|].
        apply andb_false_iff in Hx as [Hx|Hx].
        - left. apply negb_false_iff, Z.eqb_eq in Hx. done.
        - right. by apply Z.ltb_ge in Hx. }
      split; [done|]. by apply getMeta_hit.
  - right. eexists. split; [done|].
    unfold getMeta, getCacheMeta, cacheRead, fetchCinemeta, readJson,
      setCacheMeta, cacheWrite. run. rewrite He. simpl.
    destruct (cinemeta env (clock w) type i) as [|[] [|[m|]]]; simpl;
      rewrite ?He; try done.
    split; [done|]. split; [done|]. by rewrite lookup_insert_eq.
Qed.

(** [getMeta] never throws. *)
Lemma getMeta_total w type i :
  ∃ r w', getMeta env type i w = (Ok r, w').
Proof.
  destruct (getMeta_cases w type i) as [(m & _ & H)|(w' & Hw & _ & H)].
  - eauto.
  - destruct (getMeta env type i w) as [r w''] eqn:E. simpl in *.
    assert (∃ x, r = Ok x) as [x ->]; [|eauto].
    destruct (cinemeta env (clock w) type i) as [|[] [|[m|]]];
      destruct H as [-> _]; eauto.
Qed.

End ResolverFacts.




Example getMeta_second_call_hits_cache :
  (getMeta envThree "movie" "tt0000001" world0).1
  = Ok (Some (typedItem "tt0000001" "movie" "One")) ∧
  calls (getMeta envThree "movie" "tt0000001"
           (getMeta envThree "movie" "tt0000001" world0).2).2
  = [("movie", "tt0000001")].
Proof. vm_compute. repeat split. Qed.

(** ** Sets of strings in insertion order *)

Section StringSets.
Implicit Types (canon expand : list string) (g x : string).

Lemma setHas_elem canon g : setHas canon g = true ↔ g ∈ canon.
Proof.
  unfold setHas. rewrite existsb_exists. split.
  - intros (x & Hin & Hx). apply StrFacts.strEq_true in Hx as ->.
    by apply list_elem_of_In.
  - intros Hin. exists g. split; [by apply list_elem_of_In|].
    by apply StrFacts.strEq_true.
Qed.

Lemma setAdd_elem canon g x : x ∈ setAdd canon g ↔ x ∈ canon ∨ x = g.
Proof.
  unfold setAdd. destruct (setHas canon g) eqn:E.
  - apply setHas_elem in E. split; [auto|]. by intros [?| ->].
  - rewrite elem_of_app, list_elem_of_singleton. done.
Qed.

Lemma fold_setAdd_elem expand canon x :
  x ∈ fold_left setAdd expand canon ↔ x ∈ canon ∨ x ∈ expand.
Proof.
  revert canon. induction expand as [|g expand IH]; intros canon; simpl.
  - rewrite elem_of_nil. tauto.
  - rewrite IH, setAdd_elem, elem_of_cons. tauto.
Qed.

End StringSets.

(** ** The loop of [uniqById] *)

Section Uniq.
Implicit Types (seen : list string) (arr out : list meta).

(** The test that [uniqById] applies to an id: the first record of [arr]
    that has this id. *)
Definition firstWithId (i : string) (arr : list meta) : option meta :=
  find (λ x, optTruthy (m_id x) && Js.strEq (idOf x) i) arr.

Lemma uniqLoop_sublist seen arr : sublist (uniqLoop seen arr) arr.
Proof.
  revert seen. induction arr as [|it rest IH]; intros seen; simpl; [done|].
  destruct (negb (optTruthy (m_id it))); [by apply sublist_cons|].
  destruct (setHas seen (idOf it)); [by apply sublist_cons|].
  by apply sublist_skip.
Qed.

Lemma uniqLoop_fresh seen arr y :
  y ∈ uniqLoop seen arr → optTruthy (m_id y) = true ∧ idOf y ∉ seen.
Proof.
  revert seen. induction arr as [|it rest IH]; intros seen; simpl.
  - by intros ?%elem_of_nil.
  - destruct (optTruthy (m_id it)) eqn:Et; simpl; [|apply IH].
    destruct (setHas seen (idOf it)) eqn:Es; [apply IH|].
    intros [->|Hy]%elem_of_cons.
    + split; [done|]. intros Hin. apply setHas_elem in Hin. congruence.
    + destruct (IH _ Hy) as [? Hn]. split; [done|].
      intros Hin. apply Hn, setAdd_elem. by left.
Qed.

Lemma uniqLoop_NoDup seen arr : NoDup (idOf <$> uniqLoop seen arr).
Proof.
  revert seen. induction arr as [|it rest IH]; intros seen; simpl; [constructor|].
  destruct (negb (optTruthy (m_id it))); [apply IH|].
  destruct (setHas seen (idOf it)); [apply IH|].
  simpl. apply NoDup_cons. split; [|apply IH].
  intros Hin. apply list_elem_of_fmap in Hin as (y & Hy & Hin).
  apply uniqLoop_fresh in Hin as [_ Hn]. apply Hn, setAdd_elem. by right.
Qed.

Lemma uniqLoop_first seen arr y :
  y ∈ uniqLoop seen arr → firstWithId (idOf y) arr = Some y.
Proof.
  revert seen. induction arr as [|it rest IH]; intros seen; simpl.
  - by intros ?%elem_of_nil.
  - destruct (optTruthy (m_id it)) eqn:Et; simpl; [|apply IH].
    destruct (setHas seen (idOf it)) eqn:Es.
    + intros Hy. destruct (Js.strEq (idOf it) (idOf y)) eqn:E; [|by eapply IH].
      apply StrFacts.strEq_true in E. apply uniqLoop_fresh in Hy as [_ Hn].
      apply setHas_elem in Es. congruence.
    + intros [->|Hy]%elem_of_cons.
      * by rewrite String.eqb_refl.
      * destruct (Js.strEq (idOf it) (idOf y)) eqn:E; [|by eapply IH].
        apply StrFacts.strEq_true in E. apply uniqLoop_fresh in Hy as [_ Hn].
        exfalso. apply Hn, setAdd_elem. by right.
Qed.

Lemma uniqLoop_covers seen arr x :
  x ∈ arr → optTruthy (m_id x) = true →
  idOf x ∈ seen ∨ ∃ y, y ∈ uniqLoop seen arr ∧ idOf y = idOf x.
Proof.
  revert seen. induction arr as [|it rest IH]; intros seen; simpl.
  - by intros ?%elem_of_nil.
  - intros [->|Hx]%elem_of_cons Ht.
    + rewrite Ht. simpl. destruct (setHas seen (idOf it)) eqn:Es.
      * left. by apply setHas_elem.
      * right. exists it. split; [apply list_elem_of_here|done].
    + destruct (negb (optTruthy (m_id it))); [by apply IH|].
      destruct (setHas seen (idOf it)) eqn:Es; [by apply IH|].
      destruct (IH (setAdd seen (idOf it)) Hx Ht) as [Hin|(y & Hy & Hid)].
      * apply setAdd_elem in Hin as [Hin|Hin]; [by left|].
        right. exists it. split; [apply list_elem_of_here|done].
      * right. exists y. split; [by apply list_elem_of_further|done].
Qed.

End Uniq.

(** ** Series presence suppresses the movie bucket *)

(** The series-bucket metadata of [i] resolves whenever it is asked for:
    the request succeeds and its answer holds a record. *)
Definition seriesResolves (env : Env) (i : string) : Prop :=
  ∀ t, ∃ m, cinemeta env t "series" i = Http true (Json (Some m)).

(** What the classifier's [tryCinemeta] takes for resolved: the request of
    time [t] succeeds and its answer holds the record [m], which carries
    an id. *)
Definition resolvesAt (env : Env) (t : Z) (type i : string) (m : meta) : Prop :=
  cinemeta env t type i = Http true (Json (Some m)) ∧ optTruthy (m_id m) = true.

Definition seriesResolvesWithId (env : Env) (i : string) : Prop :=
  ∀ t, ∃ m, resolvesAt env t "series" i m.

(** The service answers a request with a record of the requested id. *)
Definition honest (env : Env) : Prop :=
  ∀ t type j m, resolvesAt env t type j m → m_id m = Some j.

(** The answers of the service do not change with time. *)
Definition stable (env : Env) : Prop :=
  ∀ t t' type j, cinemeta env t type j = cinemeta env t' type j.

Section Suppression.
Variable env : Env.
Variable pages : Pages.
Implicit Types (w : World) (i j : string).

Lemma typed_movie_suppressed i w m w' :
  getMeta env "series" i w = (Ok (Some m), w') →
  getTypedMetaDeterministic env "movie" i w = (Ok None, w').
Proof.
  intros H. unfold getTypedMetaDeterministic.
  change (Js.strEq "movie" "movie") with true. cbv iota.
  unfold bind. by rewrite H.
Qed.

Lemma series_always_found i w :
  seriesResolves env i → ∃ m w', getMeta env "series" i w = (Ok (Some m), w').
Proof.
  intros Hres.
  destruct (getMeta_cases env w "series" i) as [(m & _ & H)|(w' & Hw & _ & H)].
  - eauto.
  - destruct (Hres (clock w)) as (m & Hm). rewrite Hm in H.
    destruct (getMeta env "series" i w) as [r w''] eqn:E. simpl in *.
    destruct H as [-> _]. eauto.
Qed.

Lemma typed_total type i w :
  ∃ r w', getTypedMetaDeterministic env type i w = (Ok r, w').
Proof.
  unfold getTypedMetaDeterministic. destruct (Js.strEq type "movie").
  - unfold bind.
    destruct (getMeta_total env w "series" i) as (r & w1 & ->).
    destruct r; [by eexists _, _|]. apply getMeta_total.
  - apply getMeta_total.
Qed.

Lemma slotFor_total type search i w :
  ∃ r w', slotFor env type search i w = (Ok r, w').
Proof.
  unfold slotFor, bind.
  destruct (typed_total type i w) as (r & w1 & ->).
  destruct r as [m|]; [|by eexists _, _].
  destruct (_ && _); [by eexists _, _|].
  destruct (_ && _); by eexists _, _.
Qed.

Lemma slotFor_movie_suppressed search i w :
  seriesResolves env i → ∃ w', slotFor env "movie" search i w = (Ok None, w').
Proof.
  intros Hres. destruct (series_always_found i w Hres) as (m & w' & H).
  exists w'. unfold slotFor, bind.
  by rewrite (typed_movie_suppressed i w m w' H).
Qed.

Lemma slots_movie_suppressed search i ids w :
  seriesResolves env i →
  ∃ slots w', slotsFor env "movie" search ids w = (Ok slots, w') ∧
    length slots = length ids ∧
    ∀ k, ids !! k = Some i → slots !! k = Some None.
Proof.
  intros Hres. revert w. induction ids as [|j rest IH]; intros w.
  - exists [], w. split_and!; [done..|]. by intros k.
  - simpl. unfold bind.
    destruct (slotFor_total "movie" search j w) as (r & w1 & Hr). rewrite Hr.
    destruct (IH w1) as (slots & w2 & Hs & Hlen & Hk). rewrite Hs.
    exists (r :: slots), w2. split_and!; [done|simpl; lia|].
    intros [|k] Hki; simpl in *; [|by apply Hk].
    simplify_eq.
    destruct (slotFor_movie_suppressed search i w Hres) as (w' & H').
    congruence.
Qed.

(** What [tryCinemeta] returns, read back on the service. *)
Lemma tryCinemeta_resolved i type w r w' :
  tryCinemeta env i type w = (Ok r, w') →
  match r with
  | Some m => resolvesAt env (clock w) type i m
  | None => ∀ m, ¬ resolvesAt env (clock w) type i m
  end.
Proof.
  unfold tryCinemeta, fetchCinemeta, bind, ret, resolvesAt.
  destruct (cinemeta env (clock w) type i) as [|ok body] eqn:E; [done|].
  simpl. destruct ok; simpl.
  - destruct body as [|[m|]].
    + intros [= <- <-]. by intros m [? _].
    + destruct (optTruthy (m_id m)) eqn:Hid.
      * by intros [= <- <-].
      * intros [= <- <-]. intros m' [[= <-] ?]. congruence.
    + intros [= <- <-]. by intros m [? _].
  - intros [= <- <-]. by intros m [? _].
Qed.

(** When the series record resolves, the worker commits the id to the
    series bucket whatever the movie request returned. *)
Lemma classifyOne_prefers_series i w mMeta w1 sMeta w2 :
  tryCinemeta env i "movie" w = (Ok mMeta, w1) →
  tryCinemeta env i "series" w1 = (Ok (Some sMeta), w2) →
  classifyOne env pages i w = (Ok (CSeries i sMeta None), w2).
Proof.
  intros Hm Hs. unfold classifyOne, bind. rewrite Hm, Hs.
  by destruct mMeta.
Qed.

Ltac step :=
  match goal with
  | H : context [match ?x with _ => _ end] |- _ => destruct x eqn:?; simplify_eq/=
  end.

(** Where the record of a result comes from: a movie record answered a
    movie request for the id, at a time when a series request for the id
    had not resolved; a series record answered a series request for the id
    or for the series that a detail page names as the parent of the id. *)
Definition movieFrom (j : string) (m : meta) : Prop :=
  (∃ t, resolvesAt env t "movie" j m) ∧
  (∃ t, ∀ s, ¬ resolvesAt env t "series" j s).
Definition seriesFrom (j : string) (s : meta) : Prop :=
  ∃ t p, resolvesAt env t "series" p s ∧
         (p = j ∨ ∃ t', parentOf pages t' j = Some p).
Definition originOf (j : string) (c : classified) : Prop :=
  match c with
  | CMovie k m => k = j ∧ movieFrom j m
  | CSeries k s _ => k = j ∧ seriesFrom j s
  | CExclude k _ => k = j
  end.

Lemma upMap_origin i w c w' :
  upMap env pages i w = (Ok (Some c), w') →
  ∃ s mapped, c = CSeries i s mapped ∧ seriesFrom i s.
Proof.
  unfold upMap, resolveParentSeriesFromImdb, bind, gets, ret.
  destruct (parentOf pages (clock w) i) as [p|] eqn:Ep; simpl; [|done].
  destruct (Js.truthy p) eqn:Tp; simpl; [|done].
  destruct (negb (Js.strEq p i)); [|done].
  destruct (tryCinemeta env p "series" w) as [[[s|]|e] w1] eqn:Et; [|done..].
  intros [= <- <-]. exists s, (Some p). split; [done|].
  exists (clock w), p. split.
  - apply (tryCinemeta_resolved p "series" w (Some s) w1 Et).
  - right. by exists (clock w).
Qed.

Lemma byTitleType_origin i w c w' :
  byTitleType env pages i w = (Ok c, w') →
  match c with
  | CMovie k m => k = i ∧ ∃ t, resolvesAt env t "movie" i m
  | CSeries k s _ => k = i ∧ seriesFrom i s
  | CExclude k _ => k = i
  end.
Proof.
  unfold byTitleType, resolveTitleTypeFromImdb, bind, gets, ret.
  destruct (Js.strEq _ "movie").
  { destruct (tryCinemeta env i "movie" w) as [[[m|]|e] w1] eqn:Et; [| |done].
    - intros [= <- <-]. split; [done|]. exists (clock w).
      apply (tryCinemeta_resolved i "movie" w (Some m) w1 Et).
    - by intros [= <- <-]. }
  destruct (Js.strEq _ "series").
  { destruct (tryCinemeta env i "series" w) as [[[s|]|e] w1] eqn:Et; [| |done].
    - intros [= <- <-]. split; [done|]. exists (clock w), i. split; [|by left].
      apply (tryCinemeta_resolved i "series" w (Some s) w1 Et).
    - by intros [= <- <-]. }
  destruct (Js.strEq _ "episode"); [|by intros [= <- <-]].
  destruct (upMap env pages i w) as [[[c'|]|e] w1] eqn:Eu; [| |done].
  - intros [= <- <-].
    by destruct (upMap_origin i w c' w1 Eu) as (s & mapped & -> & Hs).
  - by intros [= <- <-].
Qed.

Lemma classifyOne_origin j w c w' :
  classifyOne env pages j w = (Ok c, w') → originOf j c.
Proof.
  unfold classifyOne, bind, ret.
  destruct (tryCinemeta env j "movie" w) as [[mMeta|e] w1] eqn:Em; [|done].
  destruct (tryCinemeta env j "series" w1) as [[sMeta|e] w2] eqn:Es; [|done].
  pose proof (tryCinemeta_resolved j "movie" w mMeta w1 Em) as Hm.
  pose proof (tryCinemeta_resolved j "series" w1 sMeta w2 Es) as Hs.
  destruct mMeta as [m|], sMeta as [s|].
  - intros [= <- <-]. split; [done|]. exists (clock w1), j. by split; [|left].
  - intros [= <- <-]. split; [done|]. split; by eexists.
  - intros [= <- <-]. split; [done|]. exists (clock w1), j. by split; [|left].
  - destruct (upMap env pages j w2) as [[[c'|]|e] w3] eqn:Eu; [| |done].
    + intros [= <- <-].
      by destruct (upMap_origin j w2 c' w3 Eu) as (s & mapped & -> & Hfrom).
    + intros Hb. apply byTitleType_origin in Hb.
      destruct c as [k m|k s mapped|k reason]; simpl; [|done..].
      destruct Hb as [-> Hb]. split; [done|]. split; [done|]. by eexists.
Qed.

(** The pass over the ids never throws, and every result is filed under
    the id it was computed for, with a record of the origin above. *)
Lemma classifyAll_origin ids w :
  ∃ rs w', classifyAll env pages ids w = (Ok rs, w') ∧
    Forall2 (λ j r, from_option (originOf j) True r) ids rs.
Proof.
  revert w. induction ids as [|j rest IH]; intros w.
  - exists [], w. split; [done|]. constructor.
  - simpl. unfold bind at 1. unfold tryCatch, bind at 1.
    destruct (classifyOne env pages j w) as [[c|e] w1] eqn:Ec.
    + unfold ret at 1. unfold bind.
      destruct (IH w1) as (rs & w2 & -> & Hrs).
      eexists _, _. split; [done|]. constructor; [|done].
      simpl. by eapply classifyOne_origin.
    + unfold ret at 1. unfold bind.
      destruct (IH w1) as (rs & w2 & -> & Hrs).
      eexists _, _. split; [done|]. by constructor.
Qed.

Lemma origin_member ids rs c :
  Forall2 (λ j r, from_option (originOf j) True r) ids rs →
  Some c ∈ rs → ∃ j, j ∈ ids ∧ originOf j c.
Proof.
  induction 1 as [|j r ids rs Hr _ IH]; [by intros ?%elem_of_nil|].
  intros [<-|Hin]%elem_of_cons.
  - exists j. split; [apply list_elem_of_here|done].
  - destruct (IH Hin) as (k & Hk & Ho). exists k.
    split; [by apply list_elem_of_further|done].
Qed.

End Suppression.

(** The records of the two files: each is [toMeta] of the record of a
    result of its type, and carries an id. *)
Lemma moviesFile_member rs x :
  x ∈ moviesFile rs →
  optTruthy (m_id x) = true ∧
  ∃ j m, Some (CMovie j m) ∈ rs ∧ x = toMeta m "movie".
Proof.
  unfold moviesFile, uniqById. intros Hx. split.
  - by apply uniqLoop_fresh in Hx as [? _].
  - eapply elem_of_sublist in Hx; [|apply uniqLoop_sublist].
    apply list_elem_of_omap in Hx as (r & Hr & Hf).
    destruct r as [[j m|j s mapped|j reason]|]; simpl in Hf; simplify_eq.
    by exists j, m.
Qed.

Lemma seriesFile_member rs x :
  x ∈ seriesFile rs →
  optTruthy (m_id x) = true ∧
  ∃ j s mapped, Some (CSeries j s mapped) ∈ rs ∧ x = toMeta s "series".
Proof.
  unfold seriesFile, uniqById. intros Hx. split.
  - by apply uniqLoop_fresh in Hx as [? _].
  - eapply elem_of_sublist in Hx; [|apply uniqLoop_sublist].
    apply list_elem_of_omap in Hx as (r & Hr & Hf).
    destruct r as [[j m|j s mapped|j reason]|]; simpl in Hf; simplify_eq.
    by exists j, s, mapped.
Qed.

(** With no hints, [classifyAndFetch] has no title type to go by. *)
Lemma mappedBucket_no_hints pf : mappedBucket pf (RawHints None None) = None.
Proof. reflexivity. Qed.

Definition movieTyped (m : option meta) : bool :=
  Js.strEq (Js.toLowerCase (strOr (match m with Some x => m_type x | None => None end)))
           "movie".

(** The decision of [classifyAndFetch] without hints when the series
    request succeeds. *)
Lemma classifyFetched_series_ok env pf t i m s :
  okOf s = true →
  let looks := looksLikeSeries env (jsonMeta s) (videosOf pf t "series" i)
                               (totalSeasonsOf pf t "series" i) in
  let r := classifyFetched env pf t i (RawHints None None) m s in
  (r.1 = Some "movie" ∨ r.1 = Some "series") ∧
  (r.1 = Some "movie"
   ↔ okOf m = true ∧ looks = false ∧ movieTyped (jsonMeta m) = true).
Proof.
  intros Hs looks r. unfold r, classifyFetched. rewrite Hs, mappedBucket_no_hints.
  fold looks. fold (movieTyped (jsonMeta m)).
  destruct (okOf m); simpl.
  - destruct looks; simpl; [split; [by right|]; split; [done|by intros (_ & ? & _)]|].
    destruct (movieTyped (jsonMeta m)); simpl.
    + split; [by left|]. done.
    + split; [by right|]. split; [done|by intros (_ & _ & ?)].
  - split; [by right|]. split; [done|by intros (? & _)].
Qed.

Definition pagesNone : Pages := MkPages false (λ _ _, None) (λ _ _, None).

(** A prefetcher for which no record has videos or a season count. *)
Definition plainPrefetcher : Prefetcher :=
  MkPrefetcher false (λ _ _ _, None) (λ _ _ _, SUndef).

(** A record without a type, and one without an id. *)
Definition untyped (id name : string) : meta :=
  Meta (Some id) None (Some name) GUndef GUndef SUndef SUndef
       (RScalar SUndef) SUndef SUndef SUndef SUndef SUndef.
Definition anonymous (type name : string) : meta :=
  Meta None (Some type) (Some name) GUndef GUndef SUndef SUndef
       (RScalar SUndef) SUndef SUndef SUndef SUndef SUndef.

(** A service that answers both requests for [tt0000007]: the movie
    request with a movie record, the series request with a record that
    names no type. *)
Definition tieTitles (_ : Z) (type i : string) : response :=
  if Js.strEq i "tt0000007"
  then Http true (Json (Some (if Js.strEq type "movie"
                              then typedItem i "movie" "Seven"
                              else untyped i "Seven")))
  else Http false BadJson.
Definition envTie : Env := envWith tieTitles.

(** A service whose series record for [tt0000008] carries no id. *)
Definition noIdTitles (_ : Z) (type i : string) : response :=
  if Js.strEq i "tt0000008"
  then Http true (Json (Some (if Js.strEq type "movie"
                              then typedItem i "movie" "Eight"
                              else anonymous "series" "Eight")))
  else Http false BadJson.
Definition envNoId : Env := envWith noIdTitles.



(** The scenario of the specification: a movie, a series, and an id with
    both records. *)
Example three_titles_scenario :
  (typedPage envThree "movie" ["tt0000001"; "tt0000002"; "tt0000003"]
     (PageOpts 0 80 "") world0).1
  = Ok [typedItem "tt0000001" "movie" "One"] ∧
  (typedPage envThree "series" ["tt0000001"; "tt0000002"; "tt0000003"]
     (PageOpts 0 80 "") world0).1
  = Ok [typedItem "tt0000002" "series" "Two"; typedItem "tt0000003" "series" "Three"] ∧
  (∃ rs w', classifyAll envThree pagesNone
              ["tt0000001"; "tt0000002"; "tt0000003"] world0 = (Ok rs, w') ∧
            idOf <$> moviesFile rs = ["tt0000001"] ∧
            idOf <$> seriesFile rs = ["tt0000002"; "tt0000003"]).
Proof.
  split_and!; [vm_compute; reflexivity..|].
  eexists _, _. split; [vm_compute; reflexivity|]. vm_compute. done.
Qed.

Example seriesResolves_example : seriesResolves envThree "tt0000003".
Proof. intros t. eexists. split; vm_compute; reflexivity. Qed.

(** ** Type statistics *)

Definition live {V} (e : entry V) (t : Z) : bool :=
  negb (negb (e_exp e =? 0) && (e_exp e <? t)).

(** The counter that a reader finds for a list and a type: [None] when the
    cache has no live statistics for the list or the counter is [null]. *)
Definition counter (w : World) (lsid : string) (movie : bool) : option Z :=
  match memStats w !! statsKey lsid with
  | Some e =>
      if live e (clock w) then
        match heap w !! e_v e with
        | Some s => if movie then st_movie s else st_series s
        | None => None
        end
      else None
  | None => None
  end.

(** Two movies, a series, and a title with both records. *)
Definition fourTitles (_ : Z) (type i : string) : response :=
  if Js.strEq type "movie" && (Js.strEq i "tt0000001" || Js.strEq i "tt0000004")
  then Http true (Json (Some (typedItem i "movie" "Film")))
  else if Js.strEq type "series" && Js.strEq i "tt0000002"
  then Http true (Json (Some (typedItem i "series" "Show")))
  else if Js.strEq i "tt0000003"
  then Http true (Json (Some (typedItem i type "Both")))
  else Http false BadJson.

Definition envFour : Env :=
  MkEnv 1800 fourTitles (λ _ _ _, 25)
        (λ _ _, ["tt0000001"; "tt0000002"; "tt0000003"; "tt0000004"])
        (λ _ _, 40) Some wholeNumber caseFoldCompare
        (λ _ _, None).

Definition plainRequest (type catalogId : string) (query : list (string * string))
  : Request :=
  MkRequest type catalogId (Some "default") [] [] query [] None None.

Definition moviesRequest : Request :=
  plainRequest "movie" "imdb-default-ls1-movies" [].

Example movies_page_example :
  (handleCatalog envFour moviesRequest world0).1
  = Ok (json (Metas [typedItem "tt0000001" "movie" "Film";
                     typedItem "tt0000004" "movie" "Film"])) ∧
  counter (handleCatalog envFour moviesRequest world0).2 "ls1" true = Some 2.
Proof. vm_compute. repeat split. Qed.

(** The world in which the probe of [hasType] is suspended at
    [await fetchImdbIds]: the statistics object is in hand, the movie
    counter was [null]. *)
Definition suspendedProbe : World :=
  (fetchImdbIds envFour "ls1" (statsObject "ls1" world0).2).2.

(** C7 fails when a page load completes while a [hasType] probe for the same
    list and type is suspended: the page load sets the counter to 2, and the
    probe, resuming with the statistics object it read before, stores 1. *)
Theorem probe_overwrites_page_count :
  counter (handleCatalog envFour moviesRequest suspendedProbe).2 "ls1" true
  = Some 2 ∧
  (hasTypeDuring envFour (handleCatalog envFour moviesRequest ;; ret ())
     "ls1" "movie" 120 world0).1 = Ok true ∧
  counter (hasTypeDuring envFour (handleCatalog envFour moviesRequest ;; ret ())
             "ls1" "movie" 120 world0).2 "ls1" true
  = Some 1.
Proof. vm_compute. repeat split. Qed.

(** The same overwrite with one statistics object shared through the cache:
    the page load updates the object in place, and the resumed probe then
    writes its own count into that object. *)
Example probe_overwrites_shared_object :
  counter (hasType envFour "ls1" "series" 120 world0).2 "ls1" false = Some 1 ∧
  counter (hasTypeDuring envFour (handleCatalog envFour moviesRequest ;; ret ())
             "ls1" "movie" 120
             (hasType envFour "ls1" "series" 120 world0).2).2 "ls1" true
  = Some 1 ∧
  length (heap (hasTypeDuring envFour (handleCatalog envFour moviesRequest ;; ret ())
                  "ls1" "movie" 120
                  (hasType envFour "ls1" "series" 120 world0).2).2) = 1%nat.
Proof. vm_compute. repeat split. Qed.

Section StatsFacts.
Implicit Types (w : World) (lsid type : string) (b : bool).

Local Arguments statsKey : simpl never.

Lemma statsKey_inj lsid lsid' : statsKey lsid = statsKey lsid' → lsid = lsid'.
Proof. unfold statsKey. cbn. by intros [= ?]. Qed.

(** Every reference held by the cache points into the heap. *)
Definition heapOk w : Prop :=
  ∀ k e, memStats w !! k = Some e → (e_v e < length (heap w))%nat.

Definition field (s : stats) b : option Z :=
  if b then st_movie s else st_series s.

Lemma live_after_write {V} (v : V) t : live (Entry v (t + STATS_TTL * 1000)) t = true.
Proof.
  unfold live, STATS_TTL. simpl.
  destruct (t + 12 * 3600 * 1000 =? 0); [done|]. simpl.
  apply negb_true_iff, Z.ltb_ge. lia.
Qed.

(** What [statsObject] returns: the live cached object, or a new one. *)
Lemma statsObject_cases w lsid :
  (∃ e, memStats w !! statsKey lsid = Some e ∧ live e (clock w) = true ∧
        statsObject lsid w = (Ok (e_v e), w)) ∨
  ((counter w lsid true = None ∧ counter w lsid false = None) ∧
   ∃ store, statsObject lsid w
            = (Ok (length (heap w)),
               setHeap (setMemStats w store) (heap w ++ [freshStats])) ∧
            ∀ k, k ≠ statsKey lsid → store !! k = memStats w !! k).
Proof.
  unfold statsObject, getCacheStats, cacheRead, allocStats, counter, live. run.
  destruct (memStats w !! statsKey lsid) as [e|] eqn:He.
  - destruct (negb (e_exp e =? 0) && (e_exp e <? clock w)) eqn:Hx; simpl.
    + right. split; [by split|]. eexists. split; [done|].
      intros k Hk. by rewrite lookup_delete_ne.
    + left. exists e. split; [done|]. split; [by rewrite Hx|]. by destruct w.
  - right. split; [by split|]. eexists. split; [done|]. done.
Qed.

(** The statistics update of a page load: the counter becomes the maximum
    of its previous value and the number of items found. *)
Lemma bumpStats_counter w lsid type n :
  heapOk w →
  ∃ w', bumpStats lsid type n w = (Ok (), w') ∧ clock w' = clock w ∧
        counter w' lsid (Js.strEq type "movie")
        = Some (Z.max (orCount (counter w lsid (Js.strEq type "movie"))) n).
Proof.
  intros Hok. unfold bumpStats. unfold bind at 1.
  destruct (statsObject_cases w lsid) as [(e & He & Hl & ->)|[[Hn1 Hn2] (store & -> & Hs)]].
  - pose proof (Hok _ _ He) as Hr.
    apply lookup_lt_is_Some in Hr as [s Hs].
    unfold derefStats, writeStats, setCacheStats, cacheWrite. run. simpl.
    eexists. split; [done|]. split; [done|].
    unfold counter. simpl. rewrite lookup_insert_eq, live_after_write. simpl.
    rewrite He, Hl, Hs. simpl.
    rewrite list_lookup_insert_eq by (by eapply lookup_lt_Some).
    destruct (Js.strEq type "movie"); simpl; f_equal; unfold orCount;
      destruct (st_movie s) as [x|], (st_series s) as [y|]; simpl;
      try (destruct (x =? 0) eqn:E; [apply Z.eqb_eq in E; subst|]);
      try (destruct (y =? 0) eqn:E'; [apply Z.eqb_eq in E'; subst|]); done.
  - unfold derefStats, writeStats, setCacheStats, cacheWrite. run. simpl.
    eexists. split; [done|]. split; [done|].
    unfold counter in *. simpl. rewrite lookup_insert_eq, live_after_write. simpl.
    rewrite lookup_app_r by done. rewrite Nat.sub_diag. simpl.
    rewrite list_lookup_insert_eq by (rewrite length_app; simpl; lia).
    destruct (Js.strEq type "movie"); simpl.
    + rewrite Hn1. done.
    + rewrite Hn2. done.
Qed.

End StatsFacts.

Section StatsMonotone.
Variable env : Env.
Implicit Types (w : World) (lsid type : string) (b : bool).

Local Arguments statsKey : simpl never.
Local Arguments metaKey : simpl never.

Lemma orCount_max c n : c ≤ Z.max (orCount (Some c)) n.
Proof.
  unfold orCount. destruct (c =? 0) eqn:E; [apply Z.eqb_eq in E|]; lia.
Qed.

(** The resolver leaves the statistics alone. *)
Definition sameStats w w' : Prop :=
  memStats w' = memStats w ∧ heap w' = heap w ∧ users w' = users w.

Lemma getMeta_sameStats type i w : sameStats w (getMeta env type i w).2.
Proof.
  unfold getMeta, getCacheMeta, cacheRead, fetchCinemeta, readJson,
    setCacheMeta, cacheWrite. run.
  destruct (memMeta w !! metaKey type i) as [e|]; simpl.
  - destruct (negb (e_exp e =? 0) && (e_exp e <? clock w)); simpl; [|done].
    destruct (cinemeta env (clock w) type i) as [|[] [|[m|]]]; done.
  - destruct (cinemeta env (clock w) type i) as [|[] [|[m|]]]; done.
Qed.

Lemma probeAny_sameStats type ids w : sameStats w (probeAny env type ids w).2.
Proof.
  revert w. induction ids as [|i rest IH]; intros w; simpl; [done|].
  unfold bind. pose proof (getMeta_sameStats type i w) as H.
  destruct (getMeta env type i w) as [[[m|]|e] w1]; simpl in *; try done.
  destruct (IH w1) as (H1 & H2 & H3). destruct H as (? & ? & ?).
  split_and!; congruence.
Qed.

Lemma probeAny_total type ids w : ∃ any w', probeAny env type ids w = (Ok any, w').
Proof.
  revert w. induction ids as [|i rest IH]; intros w; simpl; [by eexists _, _|].
  unfold bind. destruct (getMeta_total env w type i) as (r & w1 & ->).
  destruct r; [by eexists _, _|]. apply IH.
Qed.

Definition setField (s : stats) (movie : bool) (v : Z) : stats :=
  if movie then Stats (Some v) (st_series s) else Stats (st_movie s) (Some v).

(** The world after a [hasType] call that nothing overlaps: either only the
    cache read happened, or the counter of the type was [null] and is now 0
    or 1, and the entry of the list is renewed. *)
Lemma hasType_world lsid type sample w :
  ∃ r w1, statsObject lsid w = (Ok r, w1) ∧
    ((hasType env lsid type sample w).2 = w1 ∨
     (field (default freshStats (heap w1 !! r)) (Js.strEq type "movie") = None ∧
      ∃ mm t cl count,
        (count = 0 ∨ count = 1) ∧
        (hasType env lsid type sample w).2
        = MkWorld mm
            (<[statsKey lsid := Entry r (t + STATS_TTL * 1000)]> (memStats w1))
            (<[r := setField (default freshStats (heap w1 !! r))
                             (Js.strEq type "movie") count]> (heap w1))
            (users w1) t cl)).
Proof.
  unfold hasType, hasTypeDuring, derefStats, fetchImdbIds, writeStats,
    setCacheStats, cacheWrite. run.
  destruct (statsObject lsid w) as [[r|e] w1] eqn:Es.
  2:{ destruct (statsObject_cases w lsid) as [(? & ? & ? & ?)|[_ (? & ? & ?)]];
        congruence. }
  exists r, w1. split; [done|]. simpl.
  destruct (negb (Js.strEq type "movie" || Js.strEq type "series")); [by left|].
  destruct (if Js.strEq type "movie"
            then st_movie (default freshStats (heap w1 !! r))
            else st_series (default freshStats (heap w1 !! r))) as [n|] eqn:Ef;
    [by left|].
  right. split; [done|].
  set (w2 := setClock w1 (clock w1 + listLatency env (clock w1) lsid)).
  destruct (probeAny_total type (take sample (listIds env (clock w1) lsid)) w2)
    as (any & w3 & Hp).
  pose proof (probeAny_sameStats type (take sample (listIds env (clock w1) lsid)) w2)
    as (Hm & Hh & Hu).
  rewrite Hp in *. simpl in *.
  eexists _, _, _, (if any then 1 else 0). split; [destruct any; auto|].
  unfold setField, setMemStats, setHeap. simpl.
  rewrite Hm, Hh, Hu.
  by destruct (Js.strEq type "movie").
Qed.

(** Without overlap the counters never go down within the life of their
    cache entry: a page load raises a counter to a maximum, a probe only
    fills in a counter that was [null]. *)
Lemma bumpStats_monotone lsid type n w lsid' b c :
  heapOk w → counter w lsid' b = Some c →
  ∃ c', counter (bumpStats lsid type n w).2 lsid' b = Some c' ∧ c ≤ c'.
Proof.
  intros Hok Hc.
  destruct (decide (lsid' = lsid)) as [->|Hne].
  - destruct (bumpStats_counter w lsid type n Hok) as (w' & Hw & Hclock & Hcnt).
    rewrite Hw. simpl.
    destruct (decide (b = Js.strEq type "movie")) as [->|Hb].
    + rewrite Hcnt, Hc. eexists. split; [done|]. apply orCount_max.
    + exists c. split; [|lia].
      revert Hw. unfold bumpStats. unfold bind at 1.
      destruct (statsObject_cases w lsid)
        as [(e & He & Hl & ->)|[[Hn1 Hn2] _]].
      2:{ destruct b; congruence. }
      unfold derefStats, writeStats, setCacheStats, cacheWrite. run. simpl.
      intros [= <-]. unfold counter in *. simpl.
      rewrite lookup_insert_eq, live_after_write. simpl.
      rewrite He, Hl in Hc.
      destruct (heap w !! e_v e) as [s|] eqn:Hs; [|done]. simpl.
      rewrite list_lookup_insert_eq by (by eapply lookup_lt_Some).
      destruct (Js.strEq type "movie"), b; simpl in *; done.
  - assert (statsKey lsid ≠ statsKey lsid') as Hk
      by (intros ?%statsKey_inj; congruence).
    unfold counter in Hc.
    destruct (memStats w !! statsKey lsid') as [e'|] eqn:He'; [|done].
    destruct (live e' (clock w)) eqn:Hl'; [|done].
    destruct (heap w !! e_v e') as [s'|] eqn:Hs'; [|done].
    unfold bumpStats. unfold bind at 1.
    destruct (statsObject_cases w lsid)
      as [(e & He & Hl & ->)|[_ (store & -> & Hst)]];
      unfold derefStats, writeStats, setCacheStats, cacheWrite; run; simpl;
      unfold counter; simpl.
    + rewrite lookup_insert_ne by done. rewrite He', Hl'.
      destruct (decide (e_v e = e_v e')) as [Er|Er].
      * rewrite Er, Hs'. simpl.
        rewrite list_lookup_insert_eq by (by eapply lookup_lt_Some).
        destruct (Js.strEq type "movie"), b; simpl in *;
          try (eexists; split; [done|lia]);
          rewrite Hc; eexists; (split; [done|]); apply orCount_max.
      * rewrite list_lookup_insert_ne by done. rewrite Hs'.
        eexists. split; [done|]. lia.
    + rewrite lookup_insert_ne by done. rewrite Hst by done. rewrite He', Hl'.
      assert (e_v e' < length (heap w))%nat as Hlt by (by eapply lookup_lt_Some).
      rewrite list_lookup_insert_ne by lia.
      rewrite lookup_app_l by done. rewrite Hs'.
      eexists. split; [done|]. lia.
Qed.

Lemma hasType_monotone lsid type sample w lsid' b c :
  heapOk w → counter w lsid' b = Some c →
  match counter (hasType env lsid type sample w).2 lsid' b with
  | Some c' => c ≤ c'
  | None => ∃ e, memStats w !! statsKey lsid' = Some e ∧
                 live e (clock (hasType env lsid type sample w).2) = false
  end.
Proof.
  intros Hok Hc.
  unfold counter in Hc.
  destruct (memStats w !! statsKey lsid') as [e'|] eqn:He'; [|done].
  destruct (live e' (clock w)) eqn:Hl'; [|done].
  destruct (heap w !! e_v e') as [s'|] eqn:Hs'; [|done].
  assert (e_v e' < length (heap w))%nat as Hlt by (by eapply lookup_lt_Some).
  destruct (hasType_world lsid type sample w) as (r & w1 & Hso & Hw).
  (* the world after the cache read still shows the counter *)
  assert (Hw1 : clock w1 = clock w ∧ memStats w1 !! statsKey lsid' = Some e' ∧
                heap w1 !! e_v e' = Some s' ∧
                (r = e_v e' → field s' (Js.strEq type "movie") = field (default freshStats (heap w1 !! r)) (Js.strEq type "movie"))).
  { destruct (statsObject_cases w lsid)
      as [(e & He & Hl & Heq)|[[Hn1 Hn2] (store & Heq & Hst)]];
      rewrite Heq in Hso; simplify_eq/=.
    - split_and!; [done..|]. intros ->. by rewrite Hs'.
    - assert (lsid' ≠ lsid) as Hne.
      { intros ->. unfold counter in Hn1, Hn2.
        rewrite He', Hl', Hs' in Hn1, Hn2. destruct b; congruence. }
      rewrite Hst by (intros ?%statsKey_inj; congruence).
      rewrite lookup_app_l by done. split_and!; [done..|]. lia. }
  destruct Hw1 as (Hclock & He1 & Hs1 & Hsame).
  destruct Hw as [->|(Hnull & mm & t & cl & count & Hcount & ->)].
  - unfold counter. rewrite He1, Hclock, Hl', Hs1, Hc. lia.
  - unfold counter. simpl.
    destruct (decide (lsid' = lsid)) as [->|Hne].
    + rewrite lookup_insert_eq, live_after_write. simpl.
      destruct (statsObject_cases w lsid)
        as [(e & He & Hl & Heq)|[[Hn1 Hn2] _]].
      2:{ unfold counter in Hn1, Hn2. rewrite He', Hl', Hs' in Hn1, Hn2.
          destruct b; congruence. }
      rewrite Heq in Hso. simplify_eq/=.
      rewrite Hs' in Hnull |- *. simpl in *.
      rewrite list_lookup_insert_eq by done.
      unfold setField, field in *.
      destruct (Js.strEq type "movie"), b; simpl in *; try congruence;
        rewrite Hc; lia.
    + rewrite lookup_insert_ne by (intros ?%statsKey_inj; congruence).
      rewrite He1.
      destruct (live e' t) eqn:Hlt'; [|by eexists].
      destruct (decide (r = e_v e')) as [->|Hr].
      * rewrite Hs1 in Hnull |- *. simpl in *.
        rewrite list_lookup_insert_eq by (by eapply lookup_lt_Some).
        unfold setField, field in *.
        destruct (Js.strEq type "movie"), b; simpl in *; try congruence;
          rewrite Hc; lia.
      * rewrite list_lookup_insert_ne by done. rewrite Hs1, Hc. lia.
Qed.

End StatsMonotone.

(** ** Pagination *)

Lemma slice_append {A} (l : list A) (a b c : Z) :
  0 ≤ a ≤ b → b ≤ c → slice l a b ++ slice l b c = slice l a c.
Proof.
  intros Hab Hbc. unfold slice, sliceIndex.
  assert ((a <? 0) = false) as -> by (apply Z.ltb_ge; lia).
  assert ((b <? 0) = false) as -> by (apply Z.ltb_ge; lia).
  assert ((c <? 0) = false) as -> by (apply Z.ltb_ge; lia).
  set (len := Z.of_nat (length l)).
  set (a' := Z.to_nat (Z.min a len)).
  set (n := Z.to_nat (Z.min b len - Z.min a len)).
  set (m := Z.to_nat (Z.min c len - Z.min b len)).
  replace (Z.to_nat (Z.min b len)) with (a' + n)%nat by lia.
  rewrite <-drop_drop, take_take_drop. f_equal. lia.
Qed.

Lemma slice_beyond {A} (l : list A) (skip stop : Z) :
  Z.of_nat (length l) ≤ skip → slice l skip stop = [].
Proof.
  intros H. unfold slice, sliceIndex.
  assert ((skip <? 0) = false) as -> by (apply Z.ltb_ge; lia).
  rewrite drop_ge; [by rewrite take_nil|]. lia.
Qed.

Lemma fromEntries_snoc2 q k1 v1 k2 v2 :
  fromEntries (q ++ [(k1, v1); (k2, v2)])
  = <[k2 := v2]> (<[k1 := v1]> (fromEntries q)).
Proof. unfold fromEntries. by rewrite fold_left_app. Qed.

Lemma searchGet_window q s l k :
  k ≠ "skip" → k ≠ "limit" →
  searchGet (q ++ [("skip", s); ("limit", l)]) k = searchGet q k.
Proof.
  intros H1 H2. unfold searchGet.
  induction q as [|[k' v'] q IH]; cbn -[Js.strEq].
  - assert (Js.strEq "skip" k = false) as ->
      by (apply StrFacts.strEq_false; congruence).
    assert (Js.strEq "limit" k = false) as ->
      by (apply StrFacts.strEq_false; congruence).
    done.
  - destruct (Js.strEq k' k); [done|]. apply IH.
Qed.

(** A request for the window [skip], [limit] over the parameters of [base],
    as in [/catalog/<type>/<id>.json?...&skip=<skip>&limit=<limit>]. *)
Definition windowed (base : Request) (skip limit : string) : Request :=
  MkRequest (r_type base) (r_catalogId base) (r_queryUid base) (r_cookies base)
            (r_lastSegment base)
            (r_query base ++ [("skip", skip); ("limit", limit)]) []
            (r_pathGenre base) (r_paramGenre base).

Definition windowedExtras (base : Request) (skip limit : string) : extrasT :=
  unionExtras (fromEntries (r_lastSegment base))
              (fromEntries (r_query base ++ [("skip", skip); ("limit", limit)])).

Definition baseExtras (base : Request) : extrasT :=
  unionExtras (fromEntries (r_lastSegment base)) (fromEntries (r_query base)).

Lemma windowedExtras_other base s l k :
  k ≠ "skip" → k ≠ "limit" →
  windowedExtras base s l !! k = baseExtras base !! k.
Proof.
  intros H1 H2. unfold windowedExtras, baseExtras, unionExtras.
  rewrite fromEntries_snoc2, !lookup_union.
  by rewrite !lookup_insert_ne.
Qed.

Lemma windowedExtras_skip base s l : windowedExtras base s l !! "skip" = Some s.
Proof.
  unfold windowedExtras, unionExtras. rewrite fromEntries_snoc2, lookup_union.
  rewrite lookup_insert_ne by done. rewrite lookup_insert_eq.
  by destruct (fromEntries (r_lastSegment base) !! "skip").
Qed.

Lemma windowedExtras_limit base s l : windowedExtras base s l !! "limit" = Some l.
Proof.
  unfold windowedExtras, unionExtras. rewrite fromEntries_snoc2, lookup_union.
  rewrite lookup_insert_eq.
  by destruct (fromEntries (r_lastSegment base) !! "limit").
Qed.

(** The answer of a request, as a list of metas. *)
Definition pageOf (r : result Response * World) : list meta :=
  match r.1 with
  | Ok (MkResponse _ (Metas ms)) => ms
  | _ => []
  end.

Section Window.
Variable env : Env.
Implicit Types (w : World) (base : Request).

(** What [catalogBody] computes before it cuts the page, for a given number
    of items asked from [typedPage]: [None] when it answers with no metas
    straight away. *)
Definition beforeWindow base (typedLimit : Z) : M (option (string * list meta)) :=
  let type := r_type base in
  if negb (Js.strEq type "movie" || Js.strEq type "series") then ret None
  else
    match matchCatalogId (r_catalogId base) with
    | None => ret None
    | Some (_, ls) =>
        let lsid := Js.toLowerCase ls in
        let extras := baseExtras base in
        let* homeOnly := tryCatch (isHomeOnly base) (λ _, ret false) in
        let search := Js.trim (Js.orStr (extras !! "search") "") in
        let* genreRaw := genreOf env base extras in
        if homeOnly && discoverQuery extras genreRaw then ret None
        else
          let* sorted := sortedMetas env type lsid extras search genreRaw typedLimit in
          ret (Some (lsid, sorted))
    end.

Lemma sortStage_ext (e e' : extrasT) metas :
  e !! "sort" = e' !! "sort" → e !! "order" = e' !! "order" →
  sortStage env e metas = sortStage env e' metas.
Proof. intros H1 H2. unfold sortStage. by rewrite H1, H2. Qed.

Lemma windowed_body base s l w :
  catalogBody env (windowed base s l) w
  = (let* r := beforeWindow base
                 (Z.max (limitOf (windowedExtras base s l)
                         + skipOf (windowedExtras base s l)) 80) in
     match r with
     | None => ret (json (Metas []))
     | Some (lsid, sorted) =>
         respondPage (r_type base) lsid (skipOf (windowedExtras base s l))
                     (limitOf (windowedExtras base s l)) sorted
     end) w.
Proof.
  unfold catalogBody, beforeWindow. simpl.
  destruct (negb (Js.strEq (r_type base) "movie" || Js.strEq (r_type base) "series"));
    [done|].
  destruct (matchCatalogId (r_catalogId base)) as [[uid ls]|]; [|done].
  unfold readExtras. simpl.
  unfold bind at 1. unfold ret at 1. cbv beta iota.
  change (unionExtras (fromEntries (r_lastSegment base))
            (fromEntries (r_query base ++ [("skip", s); ("limit", l)])))
    with (windowedExtras base s l).
  change (isHomeOnly (windowed base s l)) with (isHomeOnly base).
  assert (genreOf env (windowed base s l) (windowedExtras base s l)
          = genreOf env base (baseExtras base)) as Hg.
  { unfold genreOf, getGenreFromReq. simpl.
    rewrite windowedExtras_other by done.
    by rewrite searchGet_window by done. }
  assert (∀ g, discoverQuery (windowedExtras base s l) g
               = discoverQuery (baseExtras base) g) as Hd.
  { intros g. unfold discoverQuery. by rewrite windowedExtras_other by done. }
  assert (∀ type lsid search g n w',
            sortedMetas env type lsid (windowedExtras base s l) search g n w'
            = sortedMetas env type lsid (baseExtras base) search g n w') as Hsm.
  { intros. unfold sortedMetas. run.
    destruct (fetchImdbIds env lsid w') as [[ids|ex] w1]; [|done].
    destruct (typedPage env type ids _ w1) as [[metas|ex] w2]; [|done].
    by rewrite (sortStage_ext (windowedExtras base s l) (baseExtras base))
      by (by apply windowedExtras_other). }
  rewrite (windowedExtras_other base s l "search") by done.
  run.
  destruct (isHomeOnly base w) as [[ho|ex] w1]; simpl.
  - rewrite Hg. destruct (genreOf env base (baseExtras base) w1) as [[g|ex] w2];
      simpl; [|done].
    rewrite Hd. destruct (ho && discoverQuery (baseExtras base) g); [done|].
    rewrite Hsm. by destruct (sortedMetas env _ _ _ _ _ _ w2) as [[sorted|ex] w3].
  - rewrite Hg. destruct (genreOf env base (baseExtras base) w1) as [[g|ex'] w2];
      simpl; [|done].
    rewrite Hsm. by destruct (sortedMetas env _ _ _ _ _ _ w2) as [[sorted|ex'] w3].
Qed.

Lemma bumpStats_total lsid type n w : ∃ w', bumpStats lsid type n w = (Ok (), w').
Proof.
  unfold bumpStats, statsObject, getCacheStats, cacheRead, allocStats,
    derefStats, writeStats, setCacheStats. run.
  destruct (memStats w !! statsKey lsid) as [e|]; simpl; [|by eexists].
  destruct (negb (e_exp e =? 0) && (e_exp e <? clock w)); simpl; by eexists.
Qed.

Lemma respondPage_payload type lsid skip limit metas w :
  ∃ w', respondPage type lsid skip limit metas w
        = (Ok (json (Metas (slice metas skip (skip + limit)))), w').
Proof.
  unfold respondPage. run.
  destruct (0 <? length (slice metas skip (skip + limit)))%nat; [|by eexists].
  destruct (bumpStats_total lsid type
              (Z.of_nat (length (slice metas skip (skip + limit)))) w)
    as (w' & ->). by eexists.
Qed.

(** The page of a windowed request is the window cut from the list that
    [beforeWindow] computes; an early answer or an exception gives the empty
    page. *)
Lemma windowed_page base s l w :
  pageOf (handleCatalog env (windowed base s l) w)
  = match getUidFromReq env base w with
    | (Ok _, w0) =>
        match beforeWindow base
                (Z.max (limitOf (windowedExtras base s l)
                        + skipOf (windowedExtras base s l)) 80) w0 with
        | (Ok (Some (_, sorted)), _) =>
            slice sorted (skipOf (windowedExtras base s l))
                  (skipOf (windowedExtras base s l)
                   + limitOf (windowedExtras base s l))
        | _ => []
        end
    | _ => []
    end.
Proof.
  unfold pageOf, handleCatalog. unfold bind at 1.
  change (getUidFromReq env (windowed base s l)) with (getUidFromReq env base).
  destruct (getUidFromReq env base w) as [[uid|ex] w0]; [|done].
  unfold tryCatch. rewrite windowed_body. unfold bind at 1.
  destruct (beforeWindow base _ w0) as [[[[lsid sorted]|]|ex] w1]; try done.
  destruct (respondPage_payload (r_type base) lsid
              (skipOf (windowedExtras base s l))
              (limitOf (windowedExtras base s l)) sorted w1) as (w' & ->).
  done.
Qed.

End Window.

Lemma skipOf_windowed base s l :
  skipOf (windowedExtras base s l)
  = Z.max 0 (orNum (parseInt (Js.orStr (Some s) "0")) 0).
Proof. unfold skipOf. by rewrite windowedExtras_skip. Qed.

Lemma limitOf_windowed base s l :
  limitOf (windowedExtras base s l)
  = Z.max 1 (Z.min 80 (orNum (parseInt (Js.orStr (Some l) "50")) 50)).
Proof. unfold limitOf. by rewrite windowedExtras_limit. Qed.

Definition withWindow (o : sortOpts) (skip limit : Z) : sortOpts :=
  Build_sortOpts (o_search o) (o_sort o) (o_order o) skip limit.

(** C3. With the same filters and sort over a stable item set (the same
    state of the cache and of the services), the page for skip 0, limit 20
    followed by the page for skip 20, limit 20 is the page for skip 0,
    limit 40, both at the catalog endpoint and in [applySearchAndSort]; and a
    skip at or beyond the end of the filtered set gives an empty page with a
    success status, not an error. *)
Theorem pages_concatenate env (base : Request) (w : World)
    toNumber (items : list meta) (o : sortOpts) :
  pageOf (handleCatalog env (windowed base "0" "20") w)
    ++ pageOf (handleCatalog env (windowed base "20" "20") w)
  = pageOf (handleCatalog env (windowed base "0" "40") w) ∧
  applySearchAndSort toNumber items (withWindow o 0 20)
    ++ applySearchAndSort toNumber items (withWindow o 20 20)
  = applySearchAndSort toNumber items (withWindow o 0 40) ∧
  (∀ type lsid skip limit metas w0,
     Z.of_nat (length metas) ≤ skip →
     respondPage type lsid skip limit metas w0 = (Ok (MkResponse 200 (Metas [])), w0)) ∧
  (∀ skip limit,
     Z.of_nat (length (sortedItems toNumber o items)) ≤ skip →
     applySearchAndSort toNumber items (withWindow o skip limit) = []).
Proof.
  split_and!.
  - rewrite !windowed_page, !skipOf_windowed, !limitOf_windowed.
    change (Z.max 0 (orNum (parseInt (Js.orStr (Some "0") "0")) 0)) with 0.
    change (Z.max 0 (orNum (parseInt (Js.orStr (Some "20") "0")) 0)) with 20.
    change (Z.max 1 (Z.min 80 (orNum (parseInt (Js.orStr (Some "20") "50")) 50)))
      with 20.
    change (Z.max 1 (Z.min 80 (orNum (parseInt (Js.orStr (Some "40") "50")) 50)))
      with 40.
    change (Z.max (20 + 0) 80) with 80. change (Z.max (20 + 20) 80) with 80.
    change (Z.max (40 + 0) 80) with 80.
    destruct (getUidFromReq env base w) as [[uid|ex] w0]; [|done].
    destruct (beforeWindow env base 80 w0) as [[[[lsid sorted]|]|ex] w1];
      try done.
    by apply slice_append.
  - unfold applySearchAndSort. simpl.
    change (sortedItems toNumber (withWindow o 0 20) items)
      with (sortedItems toNumber o items).
    change (sortedItems toNumber (withWindow o 20 20) items)
      with (sortedItems toNumber o items).
    change (sortedItems toNumber (withWindow o 0 40) items)
      with (sortedItems toNumber o items).
    by apply slice_append.
  - intros type lsid skip limit metas w0 Hlen.
    unfold respondPage. rewrite slice_beyond by done. done.
  - intros skip limit Hlen. unfold applySearchAndSort. simpl.
    change (sortedItems toNumber (withWindow o skip limit) items)
      with (sortedItems toNumber o items).
    by apply slice_beyond.
Qed.

Example pages_example :
  pageOf (handleCatalog envFour (windowed moviesRequest "0" "1") world0)
  = [typedItem "tt0000001" "movie" "Film"] ∧
  pageOf (handleCatalog envFour (windowed moviesRequest "1" "1") world0)
  = [typedItem "tt0000004" "movie" "Film"] ∧
  (handleCatalog envFour (windowed moviesRequest "7" "1") world0).1
  = Ok (MkResponse 200 (Metas [])).
Proof. vm_compute. repeat split. Qed.

(** ** Home-only catalogs *)

Definition homeOnlyList (lsid : string) : listEntry :=
  LObj (Some lsid) None None
       (Some (Visibility (Some (VisFlags (Some false) (Some true)))
                         (Some (VisFlags (Some false) (Some true))))).

(** A registry in which the users [default] and [my-user] each have the
    list [ls1], home-only for both types. *)
Definition worldHomeOnly : World :=
  MkWorld ∅ ∅ []
    {[ "default" := [homeOnlyList "ls1"]; "my-user" := [homeOnlyList "ls1"] ]}
    0 [].

Definition comedyTitles (_ : Z) (type i : string) : response :=
  if Js.strEq type "movie" && Js.strEq i "tt0000001"
  then Http true (Json (Some
         (Meta (Some i) (Some "movie") (Some "Airplane!") (GArr ["Comedy"]) GUndef
               SUndef SUndef (RScalar SUndef) SUndef SUndef SUndef SUndef SUndef)))
  else Http false BadJson.

Definition envComedy : Env :=
  MkEnv 1800 comedyTitles (λ _ _ _, 25) (λ _ _, ["tt0000001"]) (λ _ _, 40)
        Some wholeNumber caseFoldCompare
        (λ _ _, None).

(** The same services, with the registry of [worldHomeOnly] saved to the
    files that the visibility gate reads. *)
Definition envHomeOnly : Env := withUsersFile envComedy (savedUsers worldHomeOnly).

(** A registry (saved to the files) in which list [ls1] of user [default]
    is home-only through the legacy member [showIn] alone. *)
Definition worldShowInHome : World :=
  MkWorld ∅ ∅ [] {[ "default" := [LObj (Some "ls1") None (Some "home") None] ]} 0 [].
Definition envShowInHome : Env :=
  withUsersFile envComedy (savedUsers worldShowInHome).

Example home_only_examples :
  (* a genre query is answered with no metas, the Top view is served *)
  (handleCatalog envComedy
     (plainRequest "movie" "imdb-default-ls1-movies" [("genre", "Comedy")])
     worldHomeOnly).1 = Ok (MkResponse 200 (Metas [])) ∧
  (handleCatalog envComedy
     (plainRequest "movie" "imdb-default-ls1-movies" [("search", "air")])
     worldHomeOnly).1 = Ok (MkResponse 200 (Metas [])) ∧
  length (pageOf (handleCatalog envComedy
     (plainRequest "movie" "imdb-default-ls1-movies" []) worldHomeOnly)) = 1%nat ∧
  length (pageOf (handleCatalog envComedy
     (plainRequest "movie" "imdb-default-ls1-movies" [("genre", "top")])
     worldHomeOnly)) = 1%nat.
Proof. vm_compute. repeat split. Qed.


Section HomeOnly.
Variable env : Env.
Implicit Types (w : World) (req : Request).

(** The flags that the server reads for the type of the request. *)
Definition typeFlags req (lists : list listEntry) (lsid : string) : bool * bool :=
  if Js.strEq (Js.toLowerCase (r_type req)) "movie"
  then (visibilityFor (findEntry lists lsid)).1
  else (visibilityFor (findEntry lists lsid)).2.

(** The (list, type) of the request is home-only in the registry, and the
    second and third dash-separated pieces of the catalog id are that uid
    and that list id. *)
Definition configuredHomeOnly w req : Prop :=
  ∃ uid lsid lists,
    Js.split (r_catalogId req) "-" !! 1%nat = Some uid ∧ Js.truthy uid = true ∧
    Js.split (r_catalogId req) "-" !! 2%nat = Some lsid ∧ Js.truthy lsid = true ∧
    users w !! uid = Some lists ∧
    homeOnlyFlags (typeFlags req lists lsid) = true.

Definition extrasOf req (fromPath : extrasT) : extrasT :=
  unionExtras (fromEntries (r_lastSegment req)) fromPath.

(** The query carries a genre other than Top, or a search term. *)
Definition carriesFilter (extras : extrasT) : Prop :=
  (∃ g, extras !! "genre" = Some g ∧ Js.truthy g = true ∧
        Js.strEq (Js.toLowerCase g) "top" = false) ∨
  (∃ s, extras !! "search" = Some s ∧ Js.truthy (Js.trim s) = true).

(** The [try] block of [handleCatalog] with its [catch]. *)
Definition tryBlock req : M Response :=
  tryCatch (catalogBody env req) (λ _, ret (json (Metas []))).

Lemma isHomeOnly_configured w req :
  configuredHomeOnly w req → isHomeOnly req w = (Ok true, w).
Proof.
  intros (uid & lsid & lists & H1 & T1 & H2 & T2 & Hu & Hf).
  unfold isHomeOnly, getUser, typeFlags in *. run.
  rewrite H1, H2. unfold Js.orStr. rewrite T1, T2, Hu.
  unfold typeFlags in Hf. by rewrite Hf.
Qed.

Lemma trim_truthy s : Js.truthy (Js.trim s) = true → Js.truthy s = true.
Proof. destruct s; [done|done]. Qed.

Lemma home_only_filtered_empty w req fromPath :
  configuredHomeOnly w req →
  readExtras env req w = (Ok fromPath, w) →
  carriesFilter (extrasOf req fromPath) →
  ∃ w', tryBlock req w = (Ok (MkResponse 200 (Metas [])), w').
Proof.
  intros Hcfg Hread Hfilter. unfold tryBlock, catalogBody.
  destruct (negb (Js.strEq (r_type req) "movie" || Js.strEq (r_type req) "series"));
    [by eexists|].
  destruct (matchCatalogId (r_catalogId req)) as [[u ls]|]; [|by eexists].
  run. rewrite Hread, (isHomeOnly_configured w req Hcfg).
  fold (extrasOf req fromPath). simpl.
  destruct Hfilter as [(g & Hg & Tg & Hng)|(s & Hs & Ts)].
  - unfold genreOf, discoverQuery. rewrite Hg. simpl. rewrite Tg.
    run. unfold Js.orStr. rewrite Tg, Hng. simpl. by eexists.
  - destruct (genreOf env req (extrasOf req fromPath) w) as [[g|ex] w1];
      [|by eexists].
    unfold discoverQuery. rewrite Hs. simpl.
    rewrite (trim_truthy s Ts), Ts, orb_true_r. by eexists.
Qed.

Lemma home_only_top_served w req fromPath u ls :
  readExtras env req w = (Ok fromPath, w) →
  (∃ uid lists, getUser uid w = (Ok lists, w) ∧
     Js.orStr (Js.split (r_catalogId req) "-" !! 1%nat) "default" = uid) →
  (r_type req = "movie" ∨ r_type req = "series") →
  matchCatalogId (r_catalogId req) = Some (u, ls) →
  extrasOf req fromPath !! "genre" = None →
  extrasOf req fromPath !! "search" = None →
  searchGet (r_query req) "genre" = None →
  r_pathGenre req = None →
  catalogBody env req w
  = (let* sorted :=
       sortedMetas env (r_type req) (Js.toLowerCase ls) (extrasOf req fromPath)
         "" "" (Z.max (limitOf (extrasOf req fromPath)
                       + skipOf (extrasOf req fromPath)) 80) in
     respondPage (r_type req) (Js.toLowerCase ls)
       (skipOf (extrasOf req fromPath)) (limitOf (extrasOf req fromPath)) sorted) w.
Proof.
  intros Hread (uid & lists & Hu & Huid) Htype Hm Hg Hs Hq Hp.
  unfold catalogBody.
  assert (negb (Js.strEq (r_type req) "movie" || Js.strEq (r_type req) "series")
          = false) as ->.
  { destruct Htype as [-> | ->]; done. }
  rewrite Hm. unfold bind at 1. rewrite Hread. fold (extrasOf req fromPath).
  unfold bind at 1. unfold tryCatch, isHomeOnly. unfold bind at 1.
  rewrite Huid, Hu. unfold ret at 1 2.
  unfold genreOf, getGenreFromReq. rewrite Hg, Hq, Hp, Hs. simpl.
  unfold bind at 1. unfold ret at 1. unfold discoverQuery. rewrite Hs. simpl.
  by rewrite andb_false_r.
Qed.

(** The record on file hides the (list, type) named by the catalog id from
    Discover the way the gate reads it: its [visibility] member has, for
    the type, [discover] equal to the boolean [false] and [home] not equal
    to the boolean [false]. *)
Definition hiddenOnFile w req : Prop :=
  ∃ rawUid ls type uid lists hit v x,
    gateParse (r_catalogId req) = Some (rawUid, ls, type) ∧
    decodeURIComponent env rawUid = Some uid ∧
    readUserEntry env (clock w) uid = Some lists ∧
    find (gateHasId (Js.toLowerCase ls)) lists = Some hit ∧
    entryVisibility hit = Some v ∧
    (if Js.strEq type "movie" then vis_movie v else vis_series v) = Some x ∧
    v_discover x = Some false ∧ v_home x ≠ Some false.

Lemma gate_hides_from_discover w req :
  hiddenOnFile w req → asksGenre req = true →
  gatedCatalog env req w
  = (Ok (MkResponse 404 (ErrBody "HIDDEN_FROM_DISCOVER")), w).
Proof.
  intros (rawUid & ls & type & uid & lists & hit & v & x
          & Hp & Hd & Hu & Hf & Hv & Hx & Hdisc & Hhome) Hg.
  unfold gatedCatalog, visibilityGate, decode, getVisibilityFor. run.
  rewrite Hp, Hd, Hu, Hf, Hv, Hx, Hdisc, Hg. simpl.
  by destruct (v_home x) as [[]|].
Qed.

Lemma gate_hidden_only w req resp w' :
  visibilityGate env req w = (Ok (Some resp), w') →
  payload resp = ErrBody "HIDDEN_FROM_DISCOVER" →
  hiddenOnFile w req ∧ asksGenre req = true.
Proof.
  unfold visibilityGate, decode, getVisibilityFor. run.
  destruct (gateParse (r_catalogId req)) as [[[rawUid ls] type]|] eqn:Hp; [|done].
  destruct (decodeURIComponent env rawUid) as [uid|] eqn:Hd; [|done].
  destruct (readUserEntry env (clock w) uid) as [lists|] eqn:Hu; simpl; [|done].
  destruct (find (gateHasId (Js.toLowerCase ls)) lists) as [hit|] eqn:Hf; simpl; [|done].
  destruct (entryVisibility hit) as [v|] eqn:Hv; simpl; [|done].
  destruct (if Js.strEq type "movie" then vis_movie v else vis_series v)
    as [x|] eqn:Hx; simpl; [|done].
  destruct (v_discover x) as [[]|] eqn:Hdisc; simpl; [done| |done].
  destruct (v_home x) as [[]|] eqn:Hhome; simpl.
  - destruct (asksGenre req) eqn:Hg; [|done]. intros [= <- <-] _.
    split; [|done].
    exists rawUid, ls, type, uid, lists, hit, v, x. by rewrite Hhome.
  - by intros [= <- <-].
  - destruct (asksGenre req) eqn:Hg; [|done]. intros [= <- <-] _.
    split; [|done].
    exists rawUid, ls, type, uid, lists, hit, v, x. by rewrite Hhome.
Qed.

Lemma gate_passes w req :
  visibilityGate env req w = (Ok None, w) →
  gatedCatalog env req w = handleCatalog env req w.
Proof. intros H. unfold gatedCatalog, bind. by rewrite H. Qed.

End HomeOnly.


Definition comedyRequest : Request :=
  plainRequest "movie" "imdb-default-ls1-movies" [("genre", "Comedy")].


(** A catalog that is home-only through [showIn: "home"] alone, without a
    visibility record: the gate lets the genre query pass, and the handler
    answers it with no metas. *)
Example home_only_by_showIn_passes_gate :
  configuredHomeOnly worldShowInHome comedyRequest ∧
  visibilityGate envShowInHome comedyRequest worldShowInHome
  = (Ok None, worldShowInHome) ∧
  (gatedCatalog envShowInHome comedyRequest worldShowInHome).1
  = Ok (MkResponse 200 (Metas [])).
Proof.
  split_and!.
  - exists "default", "ls1", [LObj (Some "ls1") None (Some "home") None].
    repeat split; vm_compute; reflexivity.
  - vm_compute. reflexivity.
  - vm_compute. reflexivity.
Qed.

Example carriesFilter_example :
  carriesFilter
    (extrasOf (plainRequest "movie" "imdb-default-ls1-movies" [("genre", "Comedy")])
              (fromEntries [("genre", "Comedy")])).
Proof. left. exists "Comedy". repeat split; vm_compute; reflexivity. Qed.

(** ** No error status from the handler *)

Section Availability.
Variable env : Env.
Implicit Types (w : World) (req : Request).

Lemma catalogBody_ok req w resp w' :
  catalogBody env req w = (Ok resp, w') → ∃ ms, resp = MkResponse 200 (Metas ms).
Proof.
  unfold catalogBody.
  destruct (negb (Js.strEq (r_type req) "movie" || Js.strEq (r_type req) "series")).
  { intros [= <- <-]. by eexists. }
  destruct (matchCatalogId (r_catalogId req)) as [[u ls]|].
  2:{ intros [= <- <-]. by eexists. }
  run.
  destruct (readExtras env req w) as [[fp|ex] w1]; [|done].
  assert (∀ g ho w3,
    (if ho && discoverQuery (unionExtras (fromEntries (r_lastSegment req)) fp) g
     then λ w0, (Ok (json (Metas [])), w0)
     else λ w0,
       let (r0, w4) :=
         sortedMetas env (r_type req) (Js.toLowerCase ls)
           (unionExtras (fromEntries (r_lastSegment req)) fp)
           (Js.trim (Js.orStr (unionExtras (fromEntries (r_lastSegment req)) fp !! "search") ""))
           g (Z.max (limitOf (unionExtras (fromEntries (r_lastSegment req)) fp)
                     + skipOf (unionExtras (fromEntries (r_lastSegment req)) fp)) 80) w0 in
       match r0 with
       | Ok sorted =>
           respondPage (r_type req) (Js.toLowerCase ls)
             (skipOf (unionExtras (fromEntries (r_lastSegment req)) fp))
             (limitOf (unionExtras (fromEntries (r_lastSegment req)) fp))
             sorted w4
       | Throw e => (Throw e, w4)
       end) w3 = (Ok resp, w') → ∃ ms, resp = MkResponse 200 (Metas ms)) as Hrest.
  { intros g ho w3.
    destruct (ho && _).
    { intros [= <- <-]. by eexists. }
    destruct (sortedMetas env _ _ _ _ _ _ w3) as [[sorted|ex] w4]; [|done].
    destruct (respondPage_payload (r_type req) (Js.toLowerCase ls)
                (skipOf (unionExtras (fromEntries (r_lastSegment req)) fp))
                (limitOf (unionExtras (fromEntries (r_lastSegment req)) fp))
                sorted w4) as (w5 & ->).
    intros [= <- <-]. by eexists. }
  destruct (isHomeOnly req w1) as [[ho|ex] w2].
  - destruct (genreOf env req _ w2) as [[g|ex] w3]; [|done]. apply Hrest.
  - destruct (genreOf env req _ w2) as [[g|ex'] w3]; [|done]. apply (Hrest g false).
Qed.

Lemma visibilityGate_total req w :
  ∃ g, visibilityGate env req w = (Ok g, w) ∧
       match g with Some resp => status resp = 404 | None => True end.
Proof.
  unfold visibilityGate, decode, getVisibilityFor. run.
  destruct (gateParse (r_catalogId req)) as [[[rawUid ls] type]|];
    [|by eexists].
  destruct (decodeURIComponent env rawUid) as [uid|]; simpl; [|by eexists].
  match goal with |- context [if ?c then _ else _] => destruct c end;
    [by eexists|].
  match goal with |- context [if ?c then _ else _] => destruct c end;
    by eexists.
Qed.

End Availability.

(** A registry (saved to the files) in which list [ls1] of user [default]
    is switched off for both surfaces. *)
Definition worldDisabled : World :=
  MkWorld ∅ ∅ []
    {[ "default" :=
         [LObj (Some "ls1") None None
               (Some (Visibility (Some (VisFlags (Some false) (Some false)))
                                 (Some (VisFlags (Some false) (Some false)))))] ]}
    0 [].

Definition envDisabled : Env := withUsersFile envComedy (savedUsers worldDisabled).

(** C8, as stated, fails: the visibility gate on the catalog routes answers
    a request for a disabled catalog with status 404. *)
Lemma catalog_route_404_counterexample :
  (gatedCatalog envDisabled (plainRequest "movie" "imdb-default-ls1-movies" [])
     worldDisabled).1
  = Ok (MkResponse 404 (ErrBody "CATALOG_DISABLED")).
Proof. vm_compute. reflexivity. Qed.

(** A title whose [releaseInfo] is a number makes the year sort throw inside
    the handler; a [decodeURIComponent] that rejects a lone percent sign. *)
Definition oddTitles (_ : Z) (type i : string) : response :=
  if Js.strEq type "movie" && Js.strEq i "tt0000001"
  then Http true (Json (Some
         (Meta (Some i) (Some "movie") (Some "Odd") GUndef GUndef
               SUndef (SNum (Fin 1999)) (RScalar SUndef) SUndef SUndef SUndef
               SUndef SUndef)))
  else if Js.strEq type "movie" && Js.strEq i "tt0000004"
  then Http true (Json (Some (typedItem i "movie" "Plain")))
  else Http false BadJson.

Definition decodeStrict (s : string) : option string :=
  if Js.includes s "%" then None else Some s.

Definition envOdd : Env :=
  MkEnv 1800 oddTitles (λ _ _ _, 25) (λ _ _, ["tt0000001"; "tt0000004"])
        (λ _ _, 40) decodeStrict wholeNumber caseFoldCompare
        (λ _ _, None).

Example exception_inside_is_caught :
  (∃ w', catalogBody envOdd
           (plainRequest "movie" "imdb-default-ls1-movies" [("sort", "year")])
           world0 = (Throw TypeError, w')) ∧
  (handleCatalog envOdd
     (plainRequest "movie" "imdb-default-ls1-movies" [("sort", "year")])
     world0).1 = Ok (MkResponse 200 (Metas [])) ∧
  (handleCatalog envOdd (plainRequest "movie" "not-a-catalog" []) world0).1
  = Ok (MkResponse 200 (Metas [])).
Proof.
  split_and!; [eexists; vm_compute; reflexivity|vm_compute; reflexivity..].
Qed.

(** The uid is resolved before the [try] block: a malformed cookie value
    makes [handleCatalog] itself throw. *)
Example cookie_exception_escapes :
  (handleCatalog envOdd
     (MkRequest "movie" "imdb-default-ls1-movies" None [("theme", "%")] [] [] []
                None None)
     world0).1 = Throw URIError.
Proof. vm_compute. reflexivity. Qed.

(** C8, amended. Once the uid of the request is resolved, [handleCatalog]
    always answers with status 200 and a list of metas: every exception
    raised inside its [try] block becomes [{metas: []}], and so does a type
    or a catalog id that is not recognised. The visibility gate in front of
    the catalog routes never throws either, but when it answers itself it
    does so with status 404; non-200 statuses are therefore not limited to
    the list-management endpoints. *)
Theorem catalog_handler_answers_200 env (req : Request) (w : World)
    (uid : string) (w0 : World) :
  getUidFromReq env req w = (Ok uid, w0) →
  (∃ ms w', handleCatalog env req w = (Ok (MkResponse 200 (Metas ms)), w')) ∧
  (∀ e w1, catalogBody env req w0 = (Throw e, w1) →
           handleCatalog env req w = (Ok (MkResponse 200 (Metas [])), w1)) ∧
  (negb (Js.strEq (r_type req) "movie" || Js.strEq (r_type req) "series") = true ∨
   matchCatalogId (r_catalogId req) = None →
   handleCatalog env req w = (Ok (MkResponse 200 (Metas [])), w0)) ∧
  (∃ g, visibilityGate env req w = (Ok g, w) ∧
        match g with
        | Some resp => status resp = 404 ∧ gatedCatalog env req w = (Ok resp, w)
        | None => gatedCatalog env req w = handleCatalog env req w
        end).
Proof.
  intros Huid. split_and!.
  - unfold handleCatalog, bind, tryCatch. rewrite Huid.
    destruct (catalogBody env req w0) as [[resp|e] w1] eqn:E.
    + destruct (catalogBody_ok env req w0 resp w1 E) as (ms & ->). by eexists _, _.
    + by eexists _, _.
  - intros e w1 E. unfold handleCatalog, bind, tryCatch. by rewrite Huid, E.
  - intros H. unfold handleCatalog, bind, tryCatch. rewrite Huid.
    unfold catalogBody. destruct H as [-> | H]; [done|].
    destruct (negb _); [done|]. by rewrite H.
  - destruct (visibilityGate_total env req w) as (g & Hg & Hs).
    exists g. split; [done|]. unfold gatedCatalog, bind. rewrite Hg.
    by destruct g.
Qed.

Lemma catalog_handler_answers_200_witness :
  (∃ ms w', handleCatalog envOdd
              (plainRequest "movie" "imdb-default-ls1-movies" [("sort", "year")])
              world0 = (Ok (MkResponse 200 (Metas ms)), w')) ∧
  (∀ e w1, catalogBody envOdd
             (plainRequest "movie" "imdb-default-ls1-movies" [("sort", "year")])
             world0 = (Throw e, w1) →
           handleCatalog envOdd
             (plainRequest "movie" "imdb-default-ls1-movies" [("sort", "year")])
             world0 = (Ok (MkResponse 200 (Metas [])), w1)) ∧
  (negb (Js.strEq (r_type (plainRequest "movie" "imdb-default-ls1-movies" [("sort", "year")])) "movie"
         || Js.strEq (r_type (plainRequest "movie" "imdb-default-ls1-movies" [("sort", "year")])) "series") = true ∨
   matchCatalogId (r_catalogId (plainRequest "movie" "imdb-default-ls1-movies" [("sort", "year")])) = None →
   handleCatalog envOdd
     (plainRequest "movie" "imdb-default-ls1-movies" [("sort", "year")]) world0
   = (Ok (MkResponse 200 (Metas [])), world0)) ∧
  (∃ g, visibilityGate envOdd
          (plainRequest "movie" "imdb-default-ls1-movies" [("sort", "year")]) world0
        = (Ok g, world0) ∧
        match g with
        | Some resp =>
            status resp = 404 ∧
            gatedCatalog envOdd
              (plainRequest "movie" "imdb-default-ls1-movies" [("sort", "year")]) world0
            = (Ok resp, world0)
        | None =>
            gatedCatalog envOdd
              (plainRequest "movie" "imdb-default-ls1-movies" [("sort", "year")]) world0
            = handleCatalog envOdd
                (plainRequest "movie" "imdb-default-ls1-movies" [("sort", "year")]) world0
        end).
Proof.
  apply (catalog_handler_answers_200 envOdd
           (plainRequest "movie" "imdb-default-ls1-movies" [("sort", "year")])
           world0 "default" world0).
  vm_compute. reflexivity.
Defined.

(** * Further properties of the modelled code *)

(** ** The in-memory cache *)

(** X1. Round trip of [setCache] and [getCache]: a value stored at time [t]
    with a time to live of [ttlSec] seconds is read back unchanged at every
    time up to [t + ttlSec * 1000]; read later than that, the entry is
    deleted and the answer is [null]; entries under other keys are not
    affected by the write. *)
Theorem setCache_getCache_round_trip {V} (store : gmap string (entry V))
    (t t' : Z) (key : string) (v : V) (ttlSec : Z) :
  let store' := cacheWrite store t key v ttlSec in
  (t' ≤ t + ttlSec * 1000 → cacheRead store' t' key = (Some v, store')) ∧
  (t + ttlSec * 1000 < t' → t + ttlSec * 1000 ≠ 0 →
   cacheRead store' t' key = (None, delete key store)) ∧
  (∀ k, k ≠ key → (cacheRead store' t' k).1 = (cacheRead store t' k).1).
Proof.
  intros store'. unfold store', cacheRead, cacheWrite. split_and!.
  - intros Ht. rewrite lookup_insert_eq. simpl.
    replace (t + ttlSec * 1000 <? t') with false by (symmetry; apply Z.ltb_ge; lia).
    by rewrite andb_false_r.
  - intros Ht Hz. rewrite lookup_insert_eq. simpl.
    replace (t + ttlSec * 1000 <? t') with true by (symmetry; apply Z.ltb_lt; lia).
    replace (t + ttlSec * 1000 =? 0) with false by (symmetry; apply Z.eqb_neq; lia).
    simpl. by rewrite delete_insert_eq.
  - intros k Hk. rewrite lookup_insert_ne by done.
    destruct (store !! k) as [x|]; [|done].
    by destruct (negb (e_exp x =? 0) && (e_exp x <? t')).
Qed.

Example cache_round_trip_example :
  let store := cacheWrite (∅ : gmap string (entry nat)) 1000 "ls:ls1" 7%nat 1800 in
  (cacheRead store 1801000 "ls:ls1").1 = Some 7%nat ∧
  cacheRead store 1801001 "ls:ls1" = (None, ∅) ∧
  (cacheRead store 1000 "ls:ls2").1 = None.
Proof. vm_compute. done. Qed.

(** ** Sorting never loses an item *)

Lemma sortWith_perm d desc arr : sortWith d desc arr ≡ₚ arr.
Proof.
  unfold sortWith. rewrite <-(decorate_fst arr) at 2.
  apply fmap_Permutation, jsSort_perm.
Qed.

(** X2. [sortMetas] returns a rearrangement of its input: whatever the sort
    key and the order, no item is dropped or duplicated. Only the key
    "year" can make it throw; for every other key it returns. *)
Theorem sortMetas_permutes toNumber localeCompare (arr : list meta)
    (sortKey order : string) :
  (∀ r, sortMetas toNumber localeCompare arr sortKey order = Ok r → r ≡ₚ arr) ∧
  (Js.strEq (Js.toLowerCase sortKey) "year" = false →
   ∃ r, sortMetas toNumber localeCompare arr sortKey order = Ok r).
Proof.
  unfold sortMetas. split.
  - intros r.
    destruct (Js.strEq (Js.toLowerCase sortKey) "year").
    { destruct ((2 <=? length arr)%nat && _); [done|].
      intros [= <-]. apply sortWith_perm. }
    destruct (Js.strEq (Js.toLowerCase sortKey) "rating").
    { intros [= <-]. apply sortWith_perm. }
    destruct (Js.strEq (Js.toLowerCase sortKey) "runtime").
    { intros [= <-]. apply sortWith_perm. }
    destruct (_ || _ || _).
    { intros [= <-]. apply sortWith_perm. }
    intros [= <-]. destruct (Js.strEq _ "desc"); [|done].
    symmetry. apply Permutation_rev.
  - intros ->.
    destruct (Js.strEq (Js.toLowerCase sortKey) "rating"); [by eexists|].
    destruct (Js.strEq (Js.toLowerCase sortKey) "runtime"); [by eexists|].
    destruct (_ || _ || _); by eexists.
Qed.

(** ** The window of [applySearchAndSort] *)

Lemma slice_sublist {A} (l : list A) (a b : Z) : sublist (slice l a b) l.
Proof.
  unfold slice. etrans; [apply sublist_take|apply sublist_drop].
Qed.

Lemma slice_length_le {A} (l : list A) (skip limit : Z) :
  0 ≤ limit → (Z.of_nat (length (slice l skip (skip + limit))) ≤ limit).
Proof.
  intros Hl. unfold slice, sliceIndex. rewrite length_take, length_drop.
  destruct (skip <? 0) eqn:E1; [apply Z.ltb_lt in E1|apply Z.ltb_ge in E1];
  destruct (skip + limit <? 0) eqn:E2; [apply Z.ltb_lt in E2|apply Z.ltb_ge in E2|
                                         apply Z.ltb_lt in E2|apply Z.ltb_ge in E2];
    lia.
Qed.

(** X3. [applySearchAndSort] only selects: what it returns is taken from the
    given items (each at most as often as it was given), holds at most 500
    items, and, when a search term is given, only items whose lower-cased
    name contains the lower-cased term. *)
Theorem applySearchAndSort_selects toNumber (items : list meta) (o : sortOpts) :
  let out := applySearchAndSort toNumber items o in
  out ⊆+ items ∧ (length out ≤ 500)%nat ∧
  (optTruthy (o_search o) = true →
   Forall (λ x, Js.includes (nameLc x) (Js.toLowerCase (strOr (o_search o))) = true) out).
Proof.
  intros out. unfold out, applySearchAndSort.
  set (limit := Z.max 0 (Z.min (orNum (Some (o_limit o)) 50) 500)).
  assert (sortedItems toNumber o items ≡ₚ searched o items) as Hp
    by apply jsSort_perm.
  assert (searched o items ⊆+ items) as Hs.
  { unfold searched. destruct (optTruthy (o_search o)); [|done].
    apply sublist_submseteq, sublist_filter. }
  split_and!.
  - etrans; [apply sublist_submseteq, slice_sublist|]. by rewrite Hp.
  - pose proof (slice_length_le (sortedItems toNumber o items) (o_skip o) limit).
    unfold limit in *. lia.
  - intros Hq. eapply Forall_forall. intros x Hx.
    assert (x ∈ searched o items) as Hin.
    { rewrite <-Hp. eapply elem_of_sublist; [done|apply slice_sublist]. }
    unfold searched in Hin. rewrite Hq in Hin.
    by apply list_elem_of_filter in Hin as [? _].
Qed.

(** A sort leaves alone an array that its comparator already orders. *)
Lemma jsSort_sorted {A} (cmp : A → A → comparison) (l : list A) :
  StronglySorted (λ a b, cmp a b = Lt) l → jsSort cmp l = l.
Proof.
  unfold jsSort. induction 1 as [|x l Hs IH Hx]; simpl; [done|].
  rewrite IH. destruct l as [|y r]; [done|]. simpl.
  by rewrite (Forall_inv Hx).
Qed.

(** The default options of a catalog request: no search, no sort key, no
    order. *)
Definition pageOnly (skip limit : Z) : sortOpts :=
  {| o_search := None; o_sort := None; o_order := None;
     o_skip := skip; o_limit := limit |}.

(** [warmList] numbers the items it writes: [addedAt: idx++]. *)
Definition addedBefore toNumber (a b : meta) : Prop :=
  Num.lt (numberOf toNumber (orZero (m_addedAt a)))
         (numberOf toNumber (orZero (m_addedAt b))) = true.

(** X4. With the default options [applySearchAndSort] pages through the
    items in the order in which they were written: when the [addedAt]
    numbers increase along the array (as [warmList] numbers them), the
    sort leaves the array as it is and the page is the slice
    [skip, skip + limit) of it. *)
Theorem default_sort_keeps_added_order toNumber (items : list meta)
    (skip limit : Z) :
  StronglySorted (addedBefore toNumber) items →
  applySearchAndSort toNumber items (pageOnly skip limit)
  = slice items skip (skip + Z.max 0 (Z.min (orNum (Some limit) 50) 500)).
Proof.
  intros Hs. unfold applySearchAndSort, sortedItems, searched. simpl.
  f_equal. apply jsSort_sorted.
  eapply StronglySorted_weaken; [|exact Hs].
  intros a b _ _ Hab. unfold addedBefore in Hab.
  unfold prefetchCmp, sortKeyOf, sortOrderOf, valOf. simpl.
  rewrite (NumFacts.lt_neq _ _ Hab). simpl. by rewrite Hab.
Qed.

Definition added (id name : string) (n : Z) : meta :=
  Meta (Some id) (Some "movie") (Some name) GUndef GUndef SUndef SUndef
       (RScalar SUndef) SUndef SUndef SUndef SUndef (SNum (Fin (inject_Z n))).

Lemma default_sort_keeps_added_order_witness :
  applySearchAndSort (λ _, NaN)
    [added "tt3" "Zulu" 1; added "tt1" "Alien" 2; added "tt2" "Heat" 3]
    (pageOnly 1 2)
  = [added "tt1" "Alien" 2; added "tt2" "Heat" 3].
Proof.
  rewrite default_sort_keeps_added_order; [reflexivity|].
  repeat constructor.
Defined.

(** ** What a typed page holds *)

(** The two tests a record passes before [typedPage] keeps it. *)
Definition fitsPage (type search : string) (m : meta) : Prop :=
  (optTruthy (m_type m) = true → Js.toLowerCase (strOr (m_type m)) = type) ∧
  (Js.truthy search = true →
   Js.includes (Js.toLowerCase (strOr (m_name m))) search = true).

Section TypedPage.
Variable env : Env.

Lemma slotFor_fits type search i w :
  ∃ r w', slotFor env type search i w = (Ok r, w') ∧
          from_option (fitsPage type search) True r.
Proof.
  unfold slotFor, bind.
  destruct (typed_total env type i w) as (r & w1 & ->).
  destruct r as [m|]; [|by eexists _, _].
  destruct (optTruthy (m_type m) && _) eqn:E1; [by eexists _, _|].
  destruct (Js.truthy search && _) eqn:E2; [by eexists _, _|].
  eexists _, _. split; [done|]. simpl. split.
  - intros Ht. rewrite Ht in E1. simpl in E1.
    by apply negb_false_iff, StrFacts.strEq_true in E1.
  - intros Hs. rewrite Hs in E2. simpl in E2. by apply negb_false_iff in E2.
Qed.

Lemma slotsFor_fit type search ids w :
  ∃ slots w', slotsFor env type search ids w = (Ok slots, w') ∧
              Forall (fitsPage type search) (omap id slots).
Proof.
  revert w. induction ids as [|i rest IH]; intros w; simpl.
  - eexists _, _. split; [done|]. constructor.
  - unfold bind at 1.
    destruct (slotFor_fits type search i w) as (r & w1 & -> & Hr).
    unfold bind at 1.
    destruct (IH w1) as (slots & w2 & -> & Hs).
    eexists _, _. split; [done|]. simpl.
    destruct r as [m|]; simpl; [by constructor|done].
Qed.

End TypedPage.

Lemma parseIntOfNumber_small n : Z.abs n < 10 ^ 21 → parseIntOfNumber n = n.
Proof.
  intros H. unfold parseIntOfNumber.
  by apply Z.ltb_lt in H as ->.
Qed.

Lemma orNum_nonzero n d : n ≠ 0 → orNum (Some n) d = n.
Proof. intros H. unfold orNum. by apply Z.eqb_neq in H as ->. Qed.

(** X5. [typedPage] never throws, and every record on the page it returns
    passed both of its tests: the record names no type or, in lower case,
    the requested one, and its lower-cased name contains the trimmed,
    lower-cased search term when there is one. For a skip of at least 0 and
    a limit of at least 1 the page has at most [skip + limit] records. *)
Theorem typedPage_items env (type : string) (ids : list string)
    (opts : pageOpts) (w : World) :
  ∃ metas w', typedPage env type ids opts w = (Ok metas, w') ∧
    Forall (fitsPage type (Js.trim (Js.toLowerCase (p_search opts)))) metas ∧
    (0 ≤ p_skip opts → 1 ≤ p_limit opts →
     p_skip opts + p_limit opts < 10 ^ 21 →
     Z.of_nat (length metas) ≤ p_skip opts + p_limit opts).
Proof.
  unfold typedPage, bind.
  destruct (slotsFor_fit env type (Js.trim (Js.toLowerCase (p_search opts))) ids w)
    as (slots & w' & -> & Hs).
  eexists _, _. split; [done|]. split.
  - by apply Forall_take.
  - intros H0 H1 Hb. rewrite length_take.
    assert (∀ n, 0 ≤ n ≤ p_skip opts + p_limit opts → Z.abs n < 10 ^ 21) as Hsmall
      by (intros n Hn; rewrite Z.abs_eq by (destruct Hn; done); destruct Hn; eapply Z.le_lt_trans; [eassumption|done]).
    rewrite (orNum_nonzero (p_limit opts)) by lia.
    rewrite (parseIntOfNumber_small (p_limit opts)) by (apply Hsmall; lia).
    rewrite (orNum_nonzero (p_limit opts)) by lia.
    assert (orNum (Some (parseIntOfNumber (orNum (Some (p_skip opts)) 0))) 0
            = p_skip opts) as ->.
    { destruct (decide (p_skip opts = 0)) as [->|Hne]; [done|].
      rewrite (orNum_nonzero (p_skip opts)) by done.
      rewrite parseIntOfNumber_small by (apply Hsmall; lia).
      by rewrite orNum_nonzero. }
    lia.
Qed.

Example typedPage_items_example :
  (typedPage envThree "series" ["tt0000001"; "tt0000002"; "tt0000003"]
     (PageOpts 0 1 "TWO ") world0).1
  = Ok [typedItem "tt0000002" "series" "Two"].
Proof. vm_compute. reflexivity. Qed.

(** ** Statistics answer later probes *)

Section StatsAnswers.
Variable env : Env.
Implicit Types (w : World) (lsid type : string).

Local Arguments statsKey : simpl never.
Local Arguments metaKey : simpl never.

Lemma live_within {V} (v : V) t0 t :
  t ≤ t0 + STATS_TTL * 1000 → live (Entry v (t0 + STATS_TTL * 1000)) t = true.
Proof.
  intros H. unfold live. simpl. apply negb_true_iff, andb_false_iff. right.
  apply Z.ltb_ge. lia.
Qed.

(** A live counter answers [hasType] at once: no request, no change. *)
Lemma hasType_from_counter lsid type sample w c :
  type = "movie" ∨ type = "series" →
  counter w lsid (Js.strEq type "movie") = Some c →
  hasType env lsid type sample w = (Ok (0 <? c), w).
Proof.
  intros Ht Hc. unfold counter in Hc.
  destruct (memStats w !! statsKey lsid) as [e|] eqn:He; [|done].
  destruct (live e (clock w)) eqn:Hl; [|done].
  destruct (heap w !! e_v e) as [s|] eqn:Hs; [|done].
  unfold hasType, hasTypeDuring, statsObject, getCacheStats, cacheRead,
    derefStats. run. rewrite He.
  unfold live in Hl. apply negb_true_iff in Hl. rewrite Hl. simpl.
  assert (setMemStats w (memStats w) = w) as -> by by destruct w.
  rewrite Hs. simpl.
  destruct Ht as [-> | ->]; simpl in *; by rewrite Hc.
Qed.

(** The counter that [bumpStats] leaves, read at a later time. *)
Lemma bumpStats_counter_later w lsid type n t :
  heapOk w → t ≤ clock w + STATS_TTL * 1000 →
  ∃ w', bumpStats lsid type n w = (Ok (), w') ∧
        counter (setClock w' t) lsid (Js.strEq type "movie")
        = Some (Z.max (orCount (counter w lsid (Js.strEq type "movie"))) n).
Proof.
  intros Hok Ht. unfold bumpStats. unfold bind at 1.
  destruct (statsObject_cases w lsid) as [(e & He & Hl & ->)|[[Hn1 Hn2] (store & -> & Hs)]].
  - pose proof (Hok _ _ He) as Hr.
    apply lookup_lt_is_Some in Hr as [s Hs].
    unfold derefStats, writeStats, setCacheStats, cacheWrite. run. simpl.
    eexists. split; [done|].
    unfold counter. simpl. rewrite lookup_insert_eq, live_within by done. simpl.
    rewrite He, Hl, Hs. simpl.
    rewrite list_lookup_insert_eq by (by eapply lookup_lt_Some).
    destruct (Js.strEq type "movie"); simpl; f_equal; unfold orCount;
      destruct (st_movie s) as [x|], (st_series s) as [y|]; simpl;
      try (destruct (x =? 0) eqn:E; [apply Z.eqb_eq in E; subst|]);
      try (destruct (y =? 0) eqn:E'; [apply Z.eqb_eq in E'; subst|]); done.
  - unfold derefStats, writeStats, setCacheStats, cacheWrite. run. simpl.
    eexists. split; [done|].
    unfold counter in *. simpl. rewrite lookup_insert_eq, live_within by done. simpl.
    rewrite lookup_app_r by done. rewrite Nat.sub_diag. simpl.
    rewrite list_lookup_insert_eq by (rewrite length_app; simpl; lia).
    destruct (Js.strEq type "movie"); simpl.
    + rewrite Hn1. done.
    + rewrite Hn2. done.
Qed.

(** The statistics of list [lsid] are in [w2] as they are in [w1]: the
    cache entry under the list's key, and the object that the entry holds.
    Everything else (the clock, the other caches, the registry) may differ. *)
Definition statsKept lsid w1 w2 : Prop :=
  memStats w2 !! statsKey lsid = memStats w1 !! statsKey lsid ∧
  ∀ e, memStats w1 !! statsKey lsid = Some e → heap w2 !! e_v e = heap w1 !! e_v e.

Lemma counter_kept lsid w1 w2 b :
  statsKept lsid w1 w2 →
  counter w2 lsid b = counter (setClock w1 (clock w2)) lsid b.
Proof.
  intros [Hm Hh]. unfold counter. simpl. rewrite Hm.
  destruct (memStats w1 !! statsKey lsid) as [e|] eqn:He; [|done].
  by rewrite (Hh e eq_refl).
Qed.

End StatsAnswers.

(** X6. A page load answers later probes. After [bumpStats(lsid, type, n)]
    with [n > 0], and for as long as the statistics of the list are not
    written again (by a later [bumpStats] or by a probe that was suspended
    or starts anew) and the entry has not expired, every
    [hasType(lsid, type)] returns [true] straight from the statistics: it
    sends no request and changes nothing, whatever else has happened to
    the caches and the registry in between. *)
Theorem page_load_answers_hasType env (lsid type : string) (n : Z)
    (sample : nat) (w : World) :
  heapOk w → 0 < n → type = "movie" ∨ type = "series" →
  ∃ w1, bumpStats lsid type n w = (Ok (), w1) ∧
    ∀ w2, statsKept lsid w1 w2 → clock w2 ≤ clock w + STATS_TTL * 1000 →
          hasType env lsid type sample w2 = (Ok true, w2).
Proof.
  intros Hok Hn Ht.
  destruct (bumpStats_counter_later w lsid type n (clock w) Hok) as (w1 & Hb & _);
    [unfold STATS_TTL; lia|].
  exists w1. split; [done|]. intros w2 Hkept Hlate.
  destruct (bumpStats_counter_later w lsid type n (clock w2) Hok Hlate)
    as (w1' & Hb' & Hc).
  rewrite Hb in Hb'. injection Hb' as <-.
  rewrite <-(counter_kept lsid w1 w2 _ Hkept) in Hc.
  rewrite (hasType_from_counter env lsid type sample _ _ Ht Hc).
  do 2 f_equal. apply Z.ltb_lt. lia.
Qed.

Lemma page_load_answers_hasType_witness :
  ∃ w1, bumpStats "ls1" "series" 3 world0 = (Ok (), w1) ∧
        hasType envDown "ls1" "series" 120 (setClock w1 43200000)
        = (Ok true, setClock w1 43200000).
Proof.
  destruct (page_load_answers_hasType envDown "ls1" "series" 3 120 world0)
    as (w1 & Hb & Hlater).
  - intros k e H. simpl in H. by rewrite lookup_empty in H.
  - lia.
  - by right.
  - exists w1. split; [done|]. apply Hlater; [done|].
    vm_compute. discriminate.
Defined.

Section ProbeCached.
Variable env : Env.
Implicit Types (w : World) (lsid type : string).

Local Arguments statsKey : simpl never.
Local Arguments metaKey : simpl never.

(** The object that a call works on when the counter is not known. *)
Lemma statsObject_unknown w lsid b :
  heapOk w → counter w lsid b = None →
  ∃ r w0, statsObject lsid w = (Ok r, w0) ∧ (r < length (heap w0))%nat ∧
          field (default freshStats (heap w0 !! r)) b = None.
Proof.
  intros Hok Hc.
  destruct (statsObject_cases w lsid) as [(e & He & Hl & ->)|[_ (store & -> & Hs)]].
  - pose proof (Hok _ _ He) as Hr. exists (e_v e), w. split; [done|]. split; [done|].
    apply lookup_lt_is_Some in Hr as [s Hs]. rewrite Hs. simpl.
    unfold counter in Hc. rewrite He, Hl, Hs in Hc. by destruct b.
  - eexists _, _. split; [done|]. simpl. rewrite length_app. simpl.
    split; [lia|]. rewrite lookup_app_r by done. rewrite Nat.sub_diag. simpl.
    by destruct b.
Qed.

Lemma hasType_probe lsid type sample w :
  heapOk w → type = "movie" ∨ type = "series" →
  counter w lsid (Js.strEq type "movie") = None →
  ∃ any w1, hasType env lsid type sample w = (Ok any, w1) ∧
    ∀ t, t ≤ clock w1 + STATS_TTL * 1000 →
         counter (setClock w1 t) lsid (Js.strEq type "movie")
         = Some (if any then 1 else 0).
Proof.
  intros Hok Ht Hc.
  destruct (statsObject_unknown w lsid _ Hok Hc) as (r & w0 & Hs & Hr & Hf).
  unfold hasType, hasTypeDuring. unfold bind at 1. rewrite Hs.
  unfold derefStats, fetchImdbIds, writeStats, setCacheStats, cacheWrite. run.
  simpl.
  assert (negb (Js.strEq type "movie" || Js.strEq type "series") = false) as ->
    by by destruct Ht as [-> | ->].
  unfold field in Hf.
  destruct (if Js.strEq type "movie"
            then st_movie (default freshStats (heap w0 !! r))
            else st_series (default freshStats (heap w0 !! r))) eqn:Ef.
  { destruct (Js.strEq type "movie"); congruence. }
  set (w2 := setClock w0 (clock w0 + listLatency env (clock w0) lsid)).
  destruct (probeAny_total env type (take sample (listIds env (clock w0) lsid)) w2)
    as (any & w3 & Hp).
  pose proof (probeAny_sameStats env type (take sample (listIds env (clock w0) lsid)) w2)
    as (Hm & Hh & Hu).
  rewrite Hp in *. simpl in *.
  eexists _, _. split; [done|].
  intros t Hlate. unfold counter. simpl.
  rewrite lookup_insert_eq, live_within by done. simpl.
  rewrite list_lookup_insert_eq by (by rewrite Hh).
  by destruct (Js.strEq type "movie"), any.
Qed.

End ProbeCached.

(** X7. The result of a probe sticks. When the counter of the type is not
    known, [hasType] probes the list and records 1 or 0; for as long as the
    statistics of the list are not written again and the entry has not
    expired, every [hasType] for that list and type returns the same answer
    without sending a request, whatever its sample size. A list probed
    empty thus stays empty for the manifest until something writes the
    statistics again (a page load that finds items does). *)
Theorem hasType_probe_is_cached env (lsid type : string) (sample : nat)
    (w : World) :
  heapOk w → type = "movie" ∨ type = "series" →
  counter w lsid (Js.strEq type "movie") = None →
  ∃ any w1, hasType env lsid type sample w = (Ok any, w1) ∧
    ∀ w2 sample', statsKept lsid w1 w2 →
      clock w2 ≤ clock w1 + STATS_TTL * 1000 →
      hasType env lsid type sample' w2 = (Ok any, w2).
Proof.
  intros Hok Ht Hc.
  destruct (hasType_probe env lsid type sample w Hok Ht Hc) as (any & w1 & Hh & Hl).
  exists any, w1. split; [done|]. intros w2 sample' Hkept Hlate.
  pose proof (Hl (clock w2) Hlate) as Hc2.
  rewrite <-(counter_kept lsid w1 w2 _ Hkept) in Hc2.
  rewrite (hasType_from_counter env lsid type sample' _ _ Ht Hc2).
  by destruct any.
Qed.

Lemma hasType_probe_is_cached_witness :
  ∃ any w1, hasType envDown "ls1" "movie" 120 world0 = (Ok any, w1) ∧
    ∀ t, t ≤ clock w1 + STATS_TTL * 1000 →
      hasType envDown "ls1" "movie" 5 (setClock w1 t) = (Ok any, setClock w1 t).
Proof.
  destruct (hasType_probe_is_cached envDown "ls1" "movie" 120 world0)
    as (any & w1 & Hh & Hlater).
  - intros k e H. simpl in H. by rewrite lookup_empty in H.
  - by left.
  - reflexivity.
  - exists any, w1. split; [done|]. intros t Ht. by apply Hlater.
Defined.

(** ** What the visibility gate blocks *)

(** X8. The visibility gate answers a request itself only with status 404,
    and only for a catalog id it can parse whose list the user's record on
    file holds with [discover: false] spelled out for the catalog's type; every
    other request (unknown user, unknown list, no visibility record, a
    missing flag, an id it cannot parse or decode) is passed on. The gate
    changes nothing. *)
Theorem gate_blocks_only_hidden env (req : Request) (w w' : World)
    (resp : Response) :
  visibilityGate env req w = (Ok (Some resp), w') →
  w' = w ∧ status resp = 404 ∧
  ∃ rawUid ls type uid lists hit v x,
    gateParse (r_catalogId req) = Some (rawUid, ls, type) ∧
    decodeURIComponent env rawUid = Some uid ∧
    readUserEntry env (clock w) uid = Some lists ∧
    find (gateHasId (Js.toLowerCase ls)) lists = Some hit ∧
    entryVisibility hit = Some v ∧
    (if Js.strEq type "movie" then vis_movie v else vis_series v) = Some x ∧
    v_discover x = Some false.
Proof.
  unfold visibilityGate, decode, getVisibilityFor. run.
  destruct (gateParse (r_catalogId req)) as [[[rawUid ls] type]|] eqn:Hp; [|done].
  destruct (decodeURIComponent env rawUid) as [uid|] eqn:Hd; [|done].
  destruct (readUserEntry env (clock w) uid) as [lists|] eqn:Hu; simpl; [|done].
  destruct (find (gateHasId (Js.toLowerCase ls)) lists) as [hit|] eqn:Hf; simpl; [|done].
  destruct (entryVisibility hit) as [v|] eqn:Hv; simpl; [|done].
  destruct (if Js.strEq type "movie" then vis_movie v else vis_series v)
    as [x|] eqn:Hx; simpl; [|done].
  destruct (v_discover x) as [[]|] eqn:Hdisc; simpl; [done| |done].
  intros H.
  assert (w' = w ∧ status resp = 404) as [-> Hs].
  { destruct (default true (v_home x)); simpl in H.
    - destruct (asksGenre req); by simplify_eq.
    - by simplify_eq. }
  split; [done|]. split; [done|].
  by exists rawUid, ls, type, uid, lists, hit, v, x.
Qed.

Lemma gate_blocks_only_hidden_witness :
  visibilityGate envDisabled (plainRequest "movie" "imdb-default-ls1-movies" [])
    worldDisabled
  = (Ok (Some (MkResponse 404 (ErrBody "CATALOG_DISABLED"))), worldDisabled) ∧
  ∃ lists hit v x,
    readUserEntry envDisabled 0 "default" = Some lists ∧
    find (gateHasId "ls1") lists = Some hit ∧
    entryVisibility hit = Some v ∧ vis_movie v = Some x ∧
    v_discover x = Some false.
Proof.
  assert (visibilityGate envDisabled
            (plainRequest "movie" "imdb-default-ls1-movies" []) worldDisabled
          = (Ok (Some (MkResponse 404 (ErrBody "CATALOG_DISABLED"))), worldDisabled))
    as H by (vm_compute; reflexivity).
  split; [exact H|].
  destruct (gate_blocks_only_hidden _ _ _ _ _ H)
    as (_ & _ & rawUid & ls & type & uid & lists & hit & v & x
        & Hp & Hd & Hu & Hf & Hv & Hx & Hdisc).
  vm_compute in Hp. injection Hp as <- <- <-.
  vm_compute in Hd. injection Hd as <-.
  exists lists, hit, v, x. done.
Defined.

Section CatalogIds.
Implicit Types (l r u ds : list ascii) (c : ascii).

Lemma forallb_eq_true {A} (f : A → bool) (l : list A) :
  forallb f l = true ↔ Forall (λ x, f x = true) l.
Proof.
  induction l as [|x l IH]; simpl; [by split; [constructor|]|].
  rewrite andb_true_iff, Forall_cons, IH. done.
Qed.

Lemma chars_app a b : Js.chars (a +:+ b) = Js.chars a ++ Js.chars b.
Proof. induction a as [|c a IH]; simpl; [done|]. by rewrite <-IH. Qed.

Lemma str_chars s : Js.str (Js.chars s) = s.
Proof. apply string_of_list_ascii_of_string. Qed.

Lemma chars_str l : Js.chars (Js.str l) = l.
Proof. apply list_ascii_of_string_of_list_ascii. Qed.

Lemma eqChar_eq a b : Js.eqChar a b = true ↔ a = b.
Proof.
  unfold Js.eqChar. rewrite N.eqb_eq. split; [apply StrFacts.code_inj|by intros ->].
Qed.

Lemma takeDigits_split r :
  r = takeDigits r ++ drop (length (takeDigits r)) r ∧
  Forall (λ c, Js.isDigit c = true) (takeDigits r).
Proof.
  induction r as [|c r [IH1 IH2]]; simpl; [done|].
  destruct (Js.isDigit c) eqn:E; simpl; [|done].
  split; [by rewrite <-IH1|by constructor].
Qed.

Lemma takeDigits_app ds c r :
  Forall (λ c, Js.isDigit c = true) ds → Js.isDigit c = false →
  takeDigits (ds ++ c :: r) = ds.
Proof.
  induction 1 as [|d ds Hd _ IH]; intros Hc; simpl; [by rewrite Hc|].
  by rewrite Hd, IH.
Qed.

(** What a match of [-(ls\d+)-(movies|series)$] says about the text. *)
Lemma matchTail_inv l ls :
  matchTail l = Some ls →
  ∃ d a b ds rest,
    l = d :: a :: b :: ds ++ rest ∧ ls = a :: b :: ds ∧
    Js.lowerChar a = "l"%char ∧ Js.lowerChar b = "s"%char ∧
    Forall (λ c, Js.isDigit c = true) ds ∧ length rest = 7%nat.
Proof.
  unfold matchTail. destruct l as [|d [|a [|b r]]]; try done.
  destruct (Js.eqChar d "-" && Js.eqChar (Js.lowerChar a) "l"
            && Js.eqChar (Js.lowerChar b) "s") eqn:E; [|done].
  apply andb_true_iff in E as [E Eb]. apply andb_true_iff in E as [_ Ea].
  apply eqChar_eq in Ea, Eb.
  destruct (negb (length (takeDigits r) =? 0)%nat && _) eqn:E2; [|done].
  intros [= <-]. apply andb_true_iff in E2 as [_ Hs].
  destruct (takeDigits_split r) as [Hr Hd].
  exists d, a, b, (takeDigits r), (drop (length (takeDigits r)) r).
  split; [by rewrite <-Hr|]. split; [done|]. split; [done|]. split; [done|].
  split; [done|].
  set (after := drop (length (takeDigits r)) r) in *.
  assert (length (Js.chars (Js.toLowerCase (Js.str after))) = length after) as Hlen.
  { unfold Js.toLowerCase. by rewrite chars_str, length_map, chars_str. }
  rewrite <-Hlen.
  apply orb_true_iff in Hs as [Hs|Hs]; apply StrFacts.strEq_true in Hs;
    by rewrite Hs.
Qed.

Variables (lsid suffix : string).
Hypothesis Hls : isLsid lsid = true.
Hypothesis Hsuffix : suffix = "movies" ∨ suffix = "series".

(** The text after the uid. *)
Definition idTail : list ascii :=
  "-"%char :: Js.chars lsid ++ "-"%char :: Js.chars suffix.

Lemma lsid_shape :
  ∃ ds, Js.chars lsid = "l"%char :: "s"%char :: ds ∧ ds ≠ [] ∧
        Forall (λ c, Js.isDigit c = true) ds.
Proof.
  unfold isLsid in Hls. destruct (Js.chars lsid) as [|a [|b ds]]; try done.
  apply andb_true_iff in Hls as [H Hd]. apply andb_true_iff in H as [H Hn].
  apply andb_true_iff in H as [Ha Hb]. apply eqChar_eq in Ha, Hb. subst.
  exists ds. split; [done|]. split.
  - intros ->. done.
  - by apply forallb_eq_true.
Qed.

Lemma matchTail_idTail : matchTail idTail = Some (Js.chars lsid).
Proof.
  destruct lsid_shape as (ds & Hc & Hn & Hd). unfold idTail. rewrite Hc.
  unfold matchTail. simpl.
  rewrite takeDigits_app by done. rewrite drop_app_length.
  assert (negb (length ds =? 0)%nat = true) as ->.
  { destruct ds; [done|]. done. }
  by destruct Hsuffix as [-> | ->].
Qed.

Lemma matchTail_early c u : matchTail ((c :: u) ++ idTail) = None.
Proof.
  destruct (matchTail ((c :: u) ++ idTail)) as [ls|] eqn:E; [|done]. exfalso.
  apply matchTail_inv in E as (d & a & b & ds' & rest & Hl & _ & Ha & Hb & Hd & Hr).
  destruct lsid_shape as (ds & Hc & _ & _).
  assert (length (Js.chars suffix) = 6%nat) as Hsl
    by by destruct Hsuffix as [-> | ->].
  assert (((c :: u) ++ idTail) !! length (c :: u) = Some "-"%char) as Hdash.
  { rewrite lookup_app_r by done. by rewrite Nat.sub_diag. }
  assert (length ((c :: u) ++ idTail) = (length (c :: u) + (10 + length ds))%nat)
    as Hlen.
  { unfold idTail. rewrite Hc. rewrite length_app. simpl.
    rewrite length_app. simpl. lia. }
  rewrite Hl in Hdash, Hlen. simpl in Hlen. rewrite length_app in Hlen.
  simpl in Hdash.
  destruct u as [|c1 [|c2 u]]; simpl in Hdash.
  - injection Hdash as ->. done.
  - injection Hdash as ->. done.
  - simpl in Hlen.
    rewrite lookup_app_l in Hdash by lia.
    eapply Forall_lookup_1 in Hd; [|exact Hdash]. done.
Qed.

Lemma matchUid_through acc u :
  u ≠ [] → Forall (λ c, isLineEnd c = false) u →
  matchUid acc (u ++ idTail) = Some (acc ++ u, Js.chars lsid).
Proof.
  revert acc. induction u as [|c u IH]; intros acc Hne Hu; [done|].
  apply Forall_cons in Hu as [Hc Hu]. cbn [app matchUid]. rewrite Hc.
  destruct u as [|c' u].
  - cbn [app]. by rewrite matchTail_idTail.
  - rewrite matchTail_early. rewrite IH by done.
    by rewrite <-app_assoc.
Qed.

Lemma takeUid_through u :
  Forall (λ c, Js.eqChar c "-" || Js.isSpace c = false) u →
  takeUid (u ++ idTail) = u.
Proof.
  induction 1 as [|c u Hc _ IH]; cbn [app takeUid]; [|by rewrite Hc, IH].
  unfold idTail. done.
Qed.

End CatalogIds.

(** X9. The catalog ids of the manifest come back as they were built: for
    a non-empty uid without line breaks and a list id of the form
    [ls<digits>], the pattern of [handleCatalog] applied to
    [imdb-<uid>-<lsid>-movies] (or [-series]) yields exactly that uid and
    that list id, also when the uid itself contains dashes; the pattern of
    the visibility gate does so when the uid holds no dash and no white
    space. *)
Theorem manifest_id_parses (uid lsid suffix : string) :
  uid ≠ "" → isLsid lsid = true → suffix = "movies" ∨ suffix = "series" →
  forallb (λ c, negb (isLineEnd c)) (Js.chars uid) = true →
  matchCatalogId (catalogIdOf uid lsid suffix) = Some (uid, lsid) ∧
  (forallb (λ c, negb (Js.eqChar c "-" || Js.isSpace c)) (Js.chars uid) = true →
   gateParse (catalogIdOf uid lsid suffix)
   = Some (uid, lsid, if Js.strEq suffix "movies" then "movie" else "series")).
Proof.
  intros Hne Hls Hsuffix Hu.
  assert (Js.chars uid ≠ []) as Hne'.
  { intros H. apply Hne. by rewrite <-(str_chars uid), H. }
  assert (Js.chars (catalogIdOf uid lsid suffix)
          = Js.chars "imdb-" ++ Js.chars uid ++ idTail lsid suffix) as Hc.
  { unfold catalogIdOf, idTail. by rewrite !chars_app. }
  split.
  - unfold matchCatalogId. rewrite Hc.
    set (X := Js.chars uid ++ idTail lsid suffix). simpl. rewrite drop_0. unfold X.
    rewrite (matchUid_through lsid suffix Hls Hsuffix [] (Js.chars uid) Hne').
    + simpl. by rewrite !str_chars.
    + apply forallb_eq_true in Hu. eapply Forall_impl; [exact Hu|].
      intros c Hx. by apply negb_true_iff in Hx.
  - intros Hd. unfold gateParse. rewrite Hc.
    set (X := Js.chars uid ++ idTail lsid suffix). simpl. rewrite ?drop_0.
    unfold X.
    assert (takeUid (Js.chars uid ++ idTail lsid suffix) = Js.chars uid) as Ht.
    { apply takeUid_through. apply forallb_eq_true in Hd.
      eapply Forall_impl; [exact Hd|].
      intros c Hx. by apply negb_true_iff in Hx. }
    rewrite Ht.
    assert ((length (Js.chars uid) =? 0)%nat = false) as ->.
    { apply Nat.eqb_neq. by destruct (Js.chars uid). }
    rewrite drop_app_length.
    rewrite (matchTail_idTail lsid suffix Hls Hsuffix).
    unfold idTail. simpl.
    replace (S (length (Js.chars lsid) + 1)) with (length (Js.chars lsid) + 2)%nat by lia.
    rewrite !str_chars.
    assert (drop (length (Js.chars lsid) + 2)
              ("-"%char :: Js.chars lsid ++ "-"%char :: Js.chars suffix)
            = Js.chars suffix) as ->.
    { change ("-"%char :: Js.chars lsid ++ "-"%char :: Js.chars suffix)
        with (["-"%char] ++ Js.chars lsid ++ ["-"%char] ++ Js.chars suffix).
      rewrite !app_assoc. apply drop_app_length'.
      rewrite !length_app. simpl. lia. }
    by rewrite str_chars.
Qed.

Lemma manifest_id_parses_witness :
  matchCatalogId (catalogIdOf "my-uid" "ls004" "series") = Some ("my-uid", "ls004") ∧
  gateParse (catalogIdOf "alice" "ls004" "movies") = Some ("alice", "ls004", "movie").
Proof.
  split.
  - apply (manifest_id_parses "my-uid" "ls004" "series"); [done|done|by right|done].
  - apply (manifest_id_parses "alice" "ls004" "movies"); [done|done|by left|done|done].
Defined.

(** ** The genre filter finds what is tagged *)

Section GenreFilter.
Implicit Types (canon parts : list string) (g p : string).

(** A member stays a member. *)
Lemma explodeStep_keeps canon p x : x ∈ canon → x ∈ explodeStep canon p.
Proof.
  intros Hx. unfold explodeStep.
  destruct (canonicalizeGenre p) as [c|]; [|done].
  destruct (negb (Js.truthy c)); [done|].
  destruct (mapGet GENRE_EXPANDS c) as [expand|].
  - apply fold_setAdd_elem. by left.
  - apply setAdd_elem. by left.
Qed.

Lemma explode_keeps parts canon x :
  x ∈ canon → x ∈ fold_left explodeStep parts canon.
Proof.
  revert canon. induction parts as [|p parts IH]; intros canon Hx; simpl; [done|].
  by apply IH, explodeStep_keeps.
Qed.

(** A non-empty part that is its own canonical form and has no expansion
    is added. *)
Lemma explode_adds parts canon g :
  canonicalizeGenre g = Some g → Js.truthy g = true →
  mapGet GENRE_EXPANDS g = None →
  g ∈ parts → g ∈ fold_left explodeStep parts canon.
Proof.
  intros Hc Ht He. revert canon.
  induction parts as [|p parts IH]; intros canon Hin; [by apply elem_of_nil in Hin|].
  apply elem_of_cons in Hin as [<-|Hin]; simpl; [|by apply IH].
  apply explode_keeps. unfold explodeStep. rewrite Hc, Ht, He. simpl.
  apply setAdd_elem. by right.
Qed.

End GenreFilter.

(** Every genre of the dropdown is non-empty, is its own canonical form
    and has no expansion. *)
Lemma default_genres_canonical :
  forallb (λ g, match canonicalizeGenre g, mapGet GENRE_EXPANDS g with
                | Some c, None => Js.strEq c g && Js.truthy g
                | _, _ => false
                end) DEFAULT_GENRES = true.
Proof. vm_compute. reflexivity. Qed.

(** X10. The genre filter finds every item that is tagged with the requested
    genre: for each genre [g] of the dropdown ([DEFAULT_GENRES]) and each
    record whose [genres] array lists [g], the filter for [g] keeps the
    record; a request for "Action & Adventure" keeps every record whose
    array lists "Action" or "Adventure". *)
Theorem genre_filter_finds_tagged (g : string) (m : meta) (l : list string) :
  g ∈ DEFAULT_GENRES → m_genres m = GArr l → g ∈ l →
  genreStage g [m] = [m] ∧
  (g = "Action" ∨ g = "Adventure" → genreStage "Action & Adventure" [m] = [m]).
Proof.
  intros Hg Hm Hin.
  assert (canonicalizeGenre g = Some g ∧ Js.truthy g = true
          ∧ mapGet GENRE_EXPANDS g = None) as (Hc & Ht & He).
  { pose proof default_genres_canonical as H.
    apply forallb_forall with (x := g) in H; [|by apply list_elem_of_In].
    destruct (canonicalizeGenre g) as [c|]; [|done].
    destruct (mapGet GENRE_EXPANDS g); [done|].
    apply andb_true_iff in H as [H Ht].
    by apply StrFacts.strEq_true in H as ->. }
  assert (g ∈ explodeToCanonicalSet (GArr l)) as Hex.
  { unfold explodeToCanonicalSet. simpl. by apply explode_adds. }
  assert (∀ raw, (∃ x, x ∈ wantedSet raw ∧ x = g) →
                 Js.truthy raw && negb (Js.strEq (Js.toLowerCase raw) "top") = true →
                 genreStage raw [m] = [m]) as Hstage.
  { intros raw (x & Hx & ->) Hraw. unfold genreStage. rewrite Hraw.
    assert (genreMatches raw (GArr l) = true) as Hmatch.
    { unfold genreMatches. apply existsb_exists. exists g.
      split; [by apply list_elem_of_In|]. by apply setHas_elem. }
    rewrite filter_cons_True; [done|]. by rewrite Hm. }
  split.
  - apply Hstage.
    + exists g. split; [|done]. unfold wantedSet. rewrite Hc, He.
      apply list_elem_of_singleton. done.
    + apply list_elem_of_In in Hg. simpl in Hg.
      repeat (destruct Hg as [<-|Hg]; [reflexivity|]). done.
  - intros Hor. apply Hstage; [|reflexivity].
    exists g. split; [|done].
    destruct Hor as [-> | ->]; vm_compute;
      [apply list_elem_of_here|apply list_elem_of_further, list_elem_of_here].
Qed.

Lemma genre_filter_finds_tagged_witness :
  genreStage "Adventure"
    [tagged "tt1" "Up" (GArr ["Animation"; "Adventure"])]
  = [tagged "tt1" "Up" (GArr ["Animation"; "Adventure"])].
Proof.
  apply (genre_filter_finds_tagged "Adventure" _ ["Animation"; "Adventure"]).
  - unfold DEFAULT_GENRES. apply list_elem_of_further, list_elem_of_here.
  - reflexivity.
  - apply list_elem_of_further, list_elem_of_here.
Defined.

Lemma ldTitleType_range ty k : ldTitleType ty = Some k → k ∈ PAGE_TITLE_TYPES.
Proof.
  unfold ldTitleType, PAGE_TITLE_TYPES.
  repeat (match goal with |- context [if ?c then _ else _] => destruct c end);
    intros [= <-]; set_solver.
Qed.

Lemma firstLdType_range types k : firstLdType types = Some k → k ∈ PAGE_TITLE_TYPES.
Proof.
  induction types as [|ty rest IH]; simpl; [done|].
  destruct (ldTitleType ty) as [k'|] eqn:E; [|done].
  intros [= <-]. by eapply ldTitleType_range.
Qed.

Lemma titleTypeFromPage_range ldTypes label k :
  titleTypeFromPage ldTypes label = Some k → k ∈ PAGE_TITLE_TYPES.
Proof.
  unfold titleTypeFromPage.
  destruct (firstLdType ldTypes) as [k'|] eqn:E.
  - intros [= <-]. by eapply firstLdType_range.
  - destruct label as [l|]; [|done]. unfold TITLE_TYPE_LABELS, PAGE_TITLE_TYPES.
    simpl.
    repeat (match goal with |- context [if ?c then _ else _] => destruct c end;
            [intros [= <-]; set_solver|]).
    done.
Qed.

(** X12. The title types read from a detail page and the bucket table do
    not speak the same language. Whatever the page holds, of the title
    types that [resolveTitleTypeFromImdb] can return only "tvMiniSeries"
    is mapped to the series bucket by [mapTitleTypeToBucket]; "tvSeries",
    "tvMovie" and "tvSpecial" are mapped to "unknown", so the HTML fallback
    of the classifier excludes such an id with reason "unknown" without
    asking the metadata service; "musicVideo" and "videoGame" are mapped to
    the movie bucket, whatever INCLUDE_MUSIC_VIDEO says. *)
Theorem page_title_type_buckets (inc : bool) (ldTypes : list string)
    (label : option string) (k : string) :
  titleTypeFromPage ldTypes label = Some k →
  (mapTitleTypeToBucket inc (Some k) = "series" ↔ k = "tvMiniSeries") ∧
  (mapTitleTypeToBucket inc (Some k) = "exclude"
   ↔ k = "podcastSeries" ∨ k = "podcastEpisode") ∧
  (k = "musicVideo" ∨ k = "videoGame" → mapTitleTypeToBucket inc (Some k) = "movie") ∧
  (k = "tvSeries" ∨ k = "tvMovie" ∨ k = "tvSpecial" →
   mapTitleTypeToBucket inc (Some k) = "unknown" ∧
   ∀ env pages i w,
     INCLUDE_MUSIC_VIDEO pages = inc →
     titleTypeOf pages (clock w) i = Some k →
     byTitleType env pages i w = (Ok (CExclude i "unknown"), w)).
Proof.
  intros Hk. apply titleTypeFromPage_range in Hk.
  unfold PAGE_TITLE_TYPES in Hk.
  assert ((mapTitleTypeToBucket inc (Some k) = "series" ↔ k = "tvMiniSeries") ∧
          (mapTitleTypeToBucket inc (Some k) = "exclude"
           ↔ k = "podcastSeries" ∨ k = "podcastEpisode") ∧
          (k = "musicVideo" ∨ k = "videoGame" →
           mapTitleTypeToBucket inc (Some k) = "movie") ∧
          (k = "tvSeries" ∨ k = "tvMovie" ∨ k = "tvSpecial" →
           mapTitleTypeToBucket inc (Some k) = "unknown")) as (H1 & H2 & H3 & H4).
  { repeat (apply elem_of_cons in Hk as [->|Hk]);
      [..|by apply elem_of_nil in Hk];
      destruct inc; vm_compute; intuition discriminate. }
  split; [done|]. split; [done|]. split; [done|].
  intros Hor. split; [by apply H4|].
  intros env pages i w Hi Ht.
  unfold byTitleType, resolveTitleTypeFromImdb. run.
  rewrite Ht, Hi, (H4 Hor). done.
Qed.

Lemma page_title_type_buckets_witness :
  titleTypeFromPage ["TVSeries"] None = Some "tvSeries" ∧
  mapTitleTypeToBucket false (Some "tvSeries") = "unknown".
Proof.
  split; [reflexivity|].
  apply (page_title_type_buckets false ["TVSeries"] None "tvSeries"); [reflexivity|].
  by left.
Defined.

(** ** What the classifier writes *)

Lemma idOf_toMeta m forcedType : idOf (toMeta m forcedType) = idOf m.
Proof. reflexivity. Qed.

Lemma honest_id env t type j m :
  honest env → resolvesAt env t type j m → idOf m = j.
Proof.
  intros Hh Hr. pose proof (Hh t type j m Hr) as Hj. destruct Hr as [_ Ht].
  unfold idOf, strOr, Js.orStr. rewrite Hj in *. simpl in Ht. by rewrite Ht.
Qed.


(** An episode whose detail page names its series: the series file gets
    the record of the series, under the id of the series. *)
Definition parentTitles (_ : Z) (type i : string) : response :=
  if Js.strEq type "series" && Js.strEq i "tt0000011"
  then Http true (Json (Some (typedItem i "series" "Eleven")))
  else Http false BadJson.

Definition pagesEpisode : Pages :=
  MkPages false
    (λ _ i, if Js.strEq i "tt0000010" then Some "tt0000011" else None)
    (λ _ _, None).

Example episode_filed_under_series :
  ∃ rs w', classifyAll (envWith parentTitles) pagesEpisode
             ["tt0000010"; "tt0000011"] world0 = (Ok rs, w') ∧
    moviesFile rs = [] ∧ idOf <$> seriesFile rs = ["tt0000011"].
Proof. eexists _, _. split; [vm_compute; reflexivity|]. vm_compute. done. Qed.

Module ConfigureFacts.
Import Configure.

Ltac srun := unfold sbind, sret, stry, liftW, getUser, setLists, _saveNow,
               setRegistry, setWorld, setMemGenres in *.

Lemma lowerChar_idem c : Js.lowerChar (Js.lowerChar c) = Js.lowerChar c.
Proof. by destruct c as [[] [] [] [] [] [] [] []]. Qed.

Lemma isDigit_lowerChar c : Js.isDigit (Js.lowerChar c) = Js.isDigit c.
Proof. by destruct c as [[] [] [] [] [] [] [] []]. Qed.

Lemma lowerChar_digit c : Js.isDigit c = true → Js.lowerChar c = c.
Proof. by destruct c as [[] [] [] [] [] [] [] []]. Qed.

Lemma chars_toLowerCase s :
  Js.chars (Js.toLowerCase s) = map Js.lowerChar (Js.chars s).
Proof. unfold Js.toLowerCase. by rewrite chars_str. Qed.

Lemma map_lower_digits ds :
  Forall (λ c, Js.isDigit c = true) ds → map Js.lowerChar ds = ds.
Proof.
  induction 1 as [|c ds Hc _ IH]; simpl; [done|]. by rewrite lowerChar_digit, IH.
Qed.

Lemma takeDigits_all ds :
  Forall (λ c, Js.isDigit c = true) ds → takeDigits ds = ds.
Proof. induction 1 as [|c ds Hc _ IH]; simpl; [done|]. by rewrite Hc, IH. Qed.

(** What the search for a list id finds is a list id. *)
Lemma matchLs_id l m :
  matchLs l = Some m →
  isListId (Js.toLowerCase (Js.str m)) = true ∧
  isLsid (Js.toLowerCase (Js.str m)) = true.
Proof.
  unfold matchLs. destruct l as [|a [|b r]]; try done.
  destruct (Js.eqChar (Js.lowerChar a) "l" && Js.eqChar (Js.lowerChar b) "s")
    eqn:E; [|done].
  destruct (6 <=? length (takeDigits r))%nat eqn:E6; [|done].
  intros [= <-]. apply andb_true_iff in E as [Ea Eb].
  apply eqChar_eq in Ea, Eb.
  destruct (takeDigits_split r) as [_ Hd].
  assert (forallb Js.isDigit (takeDigits r) = true) as Hall
    by by apply forallb_eq_true.
  unfold isListId, isLsid. rewrite chars_toLowerCase, chars_str. cbn [map].
  rewrite Ea, Eb, (map_lower_digits _ Hd), E6, Hall.
  split; [done|].
  destruct (takeDigits r); [done|]. done.
Qed.

Lemma findListId_id l m :
  findListId l = Some m →
  isListId (Js.toLowerCase (Js.str m)) = true ∧
  isLsid (Js.toLowerCase (Js.str m)) = true.
Proof.
  induction l as [|c r IH]; [done|]. cbn [findListId].
  destruct (matchLs (c :: r)) as [m'|] eqn:E; [|done].
  intros [= <-]. by eapply matchLs_id.
Qed.

(** A text that is a list id in lower case is found at its first character. *)
Lemma findListId_none l :
  findListId l = None → isListId (Js.toLowerCase (Js.str l)) = false.
Proof.
  intros Hn. destruct (isListId (Js.toLowerCase (Js.str l))) eqn:E; [|done].
  exfalso. unfold isListId in E. rewrite chars_toLowerCase, chars_str in E.
  destruct l as [|a [|b ds]]; try done. cbn [map] in E.
  rewrite !lowerChar_idem in E.
  apply andb_true_iff in E as [E Hd]. apply andb_true_iff in E as [E H6].
  rewrite length_map in H6.
  assert (Forall (λ c, Js.isDigit c = true) ds) as Hds.
  { apply forallb_eq_true in Hd. apply Forall_fmap in Hd.
    eapply Forall_impl; [exact Hd|]. intros c Hc. simpl in Hc.
    by rewrite isDigit_lowerChar in Hc. }
  cbn [findListId] in Hn. unfold matchLs in Hn.
  rewrite E, (takeDigits_all _ Hds), H6 in Hn. done.
Qed.

Section Facts.
Variable env : Env.
Variable listTitle : Z → string → string.
Implicit Types (s : Server) (uid lsid : string).

Lemma getUser_lists uid s :
  ∃ lists s0, getUser uid s = (Ok lists, s0) ∧
    lists = default [] (registry s !! uid) ∧
    world s0 = world s ∧ disk s0 = disk s ∧
    (∀ u l, registry s !! u = Some l → registry s0 !! u = Some l) ∧
    (∀ u, u ≠ uid → registry s0 !! u = registry s !! u).
Proof.
  unfold getUser. destruct (registry s !! uid) as [lists|] eqn:E.
  - eexists _, _. split; [done|]. by split_and!.
  - eexists _, _. split; [done|]. simpl. split_and!; try done.
    + intros u l Hu. rewrite lookup_insert_ne; [done|]. congruence.
    + intros u Hu. by rewrite lookup_insert_ne.
Qed.

(** The title that a POST uses and the lists it leaves. *)
Definition titleAt s lsid : string :=
  Js.orStr (Some (listTitle (clock (world s)) lsid)) ("IMDb List " +:+ lsid).

Definition withList lsid title (lists : list item) : list item :=
  if negb (existsb (hasIdOrLsid lsid) lists)
  then lists ++ [Obj (ListObj (Some lsid) None (Some title) (Some "discover") None)]
  else map (λ x, if hasId lsid x then renamed lsid title x else x) lists.

Lemma postList_cases uid src s :
  ∃ lists s0, getUser uid s = (Ok lists, s0) ∧
    match findListId (Js.chars (sourceOf src)) with
    | None =>
        ∃ msg, postList env listTitle uid src s
               = (Ok (ApiResponse 400 (ApiError msg)), s0)
    | Some m =>
        let lsid := Js.toLowerCase (Js.str m) in
        let r := <[uid := withList lsid (titleAt s0 lsid) lists]> (registry s0) in
        postList env listTitle uid src s
        = (Ok (ApiResponse 200 (ApiId lsid)),
           MkServer (fetchImdbIds env lsid (world s0)).2 r r (memGenres s0))
    end.
Proof.
  destruct (getUser_lists uid s) as (lists & s0 & Hg & _).
  exists lists, s0. split; [done|].
  destruct (findListId (Js.chars (sourceOf src))) as [m|] eqn:Ef.
  - unfold postList. unfold stry at 1. unfold sbind at 1. rewrite Hg.
    rewrite Ef.
    assert (Js.truthy (sourceOf src) = true) as ->.
    { destruct (sourceOf src); [by simpl in Ef|reflexivity]. }
    destruct (findListId_id _ _ Ef) as [Hid _]. cbn zeta. simpl negb. cbv iota.
    rewrite Hid. simpl negb. cbv iota.
    unfold titleAt, withList, fetchImdbIds. srun. unfold gets. simpl.
    by destruct (negb (existsb _ lists)).
  - unfold postList. unfold stry at 1. unfold sbind at 1. rewrite Hg.
    rewrite Ef.
    destruct (Js.truthy (sourceOf src)) eqn:Et; simpl; [|srun; by eexists].
    apply findListId_none in Ef. rewrite str_chars in Ef. rewrite Ef. simpl.
    srun. by eexists.
Qed.

Lemma hasId_fresh lsid o :
  Js.truthy lsid = true → l_id o = Some lsid → hasId lsid (Obj o) = true.
Proof.
  intros Ht Hid. unfold hasId, entryHasId. simpl. rewrite Hid. simpl.
  unfold Js.orStr. rewrite Ht. simpl. by apply StrFacts.strEq_true.
Qed.

Lemma hasId_renamed lsid title x :
  Js.truthy lsid = true → hasId lsid x = true →
  hasId lsid (renamed lsid title x) = true.
Proof.
  intros Ht. destruct x as [s'|o]; simpl; [|done].
  intros _. by apply hasId_fresh.
Qed.

Lemma renamed_twice lsid title x :
  renamed lsid title (renamed lsid title x) = renamed lsid title x.
Proof. by destruct x. Qed.

Lemma hasId_hasIdOrLsid lsid x : hasId lsid x = true → hasIdOrLsid lsid x = true.
Proof.
  unfold hasId, hasIdOrLsid. destruct x as [s'|o]; simpl; [done|].
  destruct (optTruthy (l_id o)); [done|done].
Qed.

Lemma isListId_truthy lsid : isListId lsid = true → Js.truthy lsid = true.
Proof.
  unfold isListId. intros H. destruct lsid; [done|reflexivity].
Qed.

(** Adding the list a second time changes nothing. *)
Lemma withList_twice lsid title lists :
  Js.truthy lsid = true →
  withList lsid title (withList lsid title lists) = withList lsid title lists.
Proof.
  intros Ht.
  destruct (existsb (hasIdOrLsid lsid) lists) eqn:Ex.
  - assert (withList lsid title lists
            = map (λ x, if hasId lsid x then renamed lsid title x else x) lists)
      as -> by (unfold withList; by rewrite Ex).
    unfold withList.
    assert (existsb (hasIdOrLsid lsid)
              (map (λ x, if hasId lsid x then renamed lsid title x else x) lists)
            = true) as ->.
    { apply existsb_exists in Ex as (x & Hin & Hx). apply existsb_exists.
      exists (if hasId lsid x then renamed lsid title x else x).
      split; [exact (in_map (λ x, if hasId lsid x then renamed lsid title x else x) lists x Hin)|].
      destruct (hasId lsid x) eqn:Eh; [|done].
      by apply hasId_hasIdOrLsid, hasId_renamed. }
    simpl. rewrite map_map. apply map_ext. intros x.
    destruct (hasId lsid x) eqn:Eh.
    + by rewrite hasId_renamed, renamed_twice.
    + by rewrite Eh.
  - assert (withList lsid title lists
            = lists ++ [Obj (ListObj (Some lsid) None (Some title)
                                     (Some "discover") None)])
      as -> by (unfold withList; by rewrite Ex).
    unfold withList. rewrite existsb_app. simpl.
    assert (hasIdOrLsid lsid
              (Obj (ListObj (Some lsid) None (Some title) (Some "discover") None))
            = true) as ->.
    { by apply hasId_hasIdOrLsid, hasId_fresh. }
    rewrite orb_true_r. simpl. rewrite map_app. simpl.
    rewrite hasId_fresh by done. simpl. f_equal.
    rewrite <-(map_id lists) at 2. apply map_ext_in. intros x Hin.
    destruct (hasId lsid x) eqn:Eh; [|done].
    exfalso. apply hasId_hasIdOrLsid in Eh.
    assert (existsb (hasIdOrLsid lsid) lists = true) as Hc
      by (apply existsb_exists; eauto).
    congruence.
Qed.

(** Removing the list after adding it. *)
Lemma withList_removed lsid title lists :
  Js.truthy lsid = true →
  Forall (λ x, hasId lsid x = false) lists →
  filter (λ x, hasId lsid x = false) (withList lsid title lists) = lists.
Proof.
  intros Ht Hno. unfold withList.
  assert (filter (λ x, hasId lsid x = false) lists = lists) as Hf.
  { clear -Hno. induction Hno as [|x l Hx _ IH]; [done|].
    rewrite filter_cons_True by done. by rewrite IH. }
  destruct (negb (existsb (hasIdOrLsid lsid) lists)).
  - rewrite filter_app, Hf. rewrite filter_cons_False.
    + by rewrite filter_nil, app_nil_r.
    + rewrite hasId_fresh by done. done.
  - assert (map (λ x, if hasId lsid x then renamed lsid title x else x) lists
            = lists) as ->; [|done].
    rewrite <-(map_id lists) at 2. apply map_ext_in. intros x Hin.
    apply list_elem_of_In in Hin. eapply Forall_forall in Hno; [|done].
    by rewrite Hno.
Qed.

End Facts.

Definition pairOf (given : option (bool * bool)) : bool * bool :=
  default (false, false) given.

Lemma withList_has env_title lsid lists :
  Js.truthy lsid = true →
  existsb (hasIdOrLsid lsid) (withList lsid env_title lists) = true.
Proof.
  intros Ht. unfold withList.
  destruct (existsb (hasIdOrLsid lsid) lists) eqn:Ex; simpl.
  - apply existsb_exists in Ex as (x & Hin & Hx). apply existsb_exists.
    exists (if hasId lsid x then renamed lsid env_title x else x).
    split; [exact (in_map (λ x, if hasId lsid x then renamed lsid env_title x else x) lists x Hin)|].
    destruct (hasId lsid x) eqn:Eh; [|done].
    by apply hasId_hasIdOrLsid, hasId_renamed.
  - rewrite existsb_app. simpl. rewrite orb_false_r.
    apply orb_true_iff. right. by apply hasId_hasIdOrLsid, hasId_fresh.
Qed.

(** X13. [POST /api/user/:uid/lists] accepts a source exactly when its
    trimmed text contains [ls] followed by at least six digits (in either
    case): it then answers 200 with the first such id in lower case, the
    user's lists hold an entry for that id, and users.json is written.
    Otherwise it answers 400 and leaves every user's lists, the file and
    the caches as they were. It never answers 500. *)
Theorem postList_validates env listTitle (uid : string) (src : option string)
    (s : Server) :
  ∃ resp s', postList env listTitle uid src s = (Ok resp, s') ∧
    match findListId (Js.chars (sourceOf src)) with
    | Some m =>
        let lsid := Js.toLowerCase (Js.str m) in
        resp = ApiResponse 200 (ApiId lsid) ∧ isListId lsid = true ∧
        isLsid lsid = true ∧ disk s' = registry s' ∧
        ∃ lists, registry s' !! uid = Some lists ∧
                 existsb (hasIdOrLsid lsid) lists = true
    | None =>
        a_status resp = 400 ∧ disk s' = disk s ∧ world s' = world s ∧
        ∀ u l, registry s !! u = Some l → registry s' !! u = Some l
    end.
Proof.
  destruct (postList_cases env listTitle uid src s) as (lists & s0 & Hg & Hp).
  destruct (getUser_lists uid s) as (lists' & s0' & Hg' & _ & Hw & Hd & Hr & _).
  rewrite Hg in Hg'. injection Hg' as <- <-.
  destruct (findListId (Js.chars (sourceOf src))) as [m|] eqn:Ef.
  - eexists _, _. split; [exact Hp|]. cbn zeta.
    destruct (findListId_id _ _ Ef) as [Hid Hls].
    split; [done|]. split; [done|]. split; [done|]. split; [done|].
    eexists. split; [apply lookup_insert_eq|].
    apply withList_has. by apply isListId_truthy.
  - destruct Hp as (msg & Hp). eexists _, _. split; [exact Hp|]. done.
Qed.

(** X14. Adding a list is idempotent: a second POST of the same source,
    when the list page still reports the same title, answers as the first
    did and leaves the registry exactly as the first left it. *)
Theorem postList_twice env listTitle (uid : string) (src : option string)
    (s s1 : Server) (resp : apiResponse) :
  postList env listTitle uid src s = (Ok resp, s1) → a_status resp = 200 →
  (∀ lsid, listTitle (clock (world s1)) lsid = listTitle (clock (world s)) lsid) →
  ∃ s2, postList env listTitle uid src s1 = (Ok resp, s2) ∧
        registry s2 = registry s1 ∧ disk s2 = registry s1.
Proof.
  intros Hpost Hok Htitle.
  destruct (postList_cases env listTitle uid src s) as (lists & s0 & Hg & Hp).
  destruct (getUser_lists uid s) as (lists' & s0' & Hg' & _ & Hw & _).
  rewrite Hg in Hg'. injection Hg' as <- <-.
  destruct (postList_cases env listTitle uid src s1) as (lists1 & s01 & Hg1 & Hp1).
  destruct (findListId (Js.chars (sourceOf src))) as [m|] eqn:Ef.
  2:{ destruct Hp as (msg & Hp). rewrite Hp in Hpost. by simplify_eq. }
  cbn zeta in *. rewrite Hp in Hpost. injection Hpost as Hresp Hs1.
  destruct (findListId_id _ _ Ef) as [Hid _]. apply isListId_truthy in Hid.
  set (lsid := Js.toLowerCase (Js.str m)) in *.
  assert (registry s1
          = <[uid:=withList lsid (titleAt listTitle s0 lsid) lists]> (registry s0))
    as Hr1 by by rewrite <-Hs1.
  assert (titleAt listTitle s1 lsid = titleAt listTitle s0 lsid) as Ht1.
  { unfold titleAt. by rewrite Htitle, Hw. }
  unfold getUser in Hg1. rewrite Hr1, lookup_insert_eq in Hg1.
  injection Hg1 as <- <-.
  rewrite Hresp in Hp1. eexists. split; [exact Hp1|]. simpl.
  rewrite Ht1, withList_twice by done.
  rewrite Hr1 at 1 3. by rewrite insert_insert_eq.
Qed.

(** X15. [DELETE] undoes [POST]: when the user's lists held no entry with
    the id before the list was added, deleting the id after the POST gives
    the user back exactly the lists held before, and leaves the lists of
    the other users alone. *)
Theorem post_then_delete_restores env listTitle (uid lsid : string)
    (src : option string) (s s1 : Server) :
  postList env listTitle uid src s = (Ok (ApiResponse 200 (ApiId lsid)), s1) →
  Forall (λ x, hasId lsid x = false) (default [] (registry s !! uid)) →
  ∃ s2, deleteList uid lsid s1 = (Ok (ApiResponse 200 ApiOk), s2) ∧
        registry s2 !! uid = Some (default [] (registry s !! uid)) ∧
        (∀ u, u ≠ uid → registry s2 !! u = registry s !! u) ∧
        disk s2 = registry s2.
Proof.
  intros Hpost Hno.
  destruct (postList_cases env listTitle uid src s) as (lists & s0 & Hg & Hp).
  destruct (getUser_lists uid s) as (lists' & s0' & Hg' & Hl & _ & _ & _ & Hother).
  rewrite Hg in Hg'. injection Hg' as <- <-. rewrite <-Hl in *.
  destruct (findListId (Js.chars (sourceOf src))) as [m|] eqn:Ef.
  2:{ destruct Hp as (msg & Hp). rewrite Hp in Hpost. by simplify_eq. }
  cbn zeta in *. rewrite Hp in Hpost. injection Hpost as <- <-.
  destruct (findListId_id _ _ Ef) as [Hid _]. apply isListId_truthy in Hid.
  unfold deleteList. srun. simpl. rewrite lookup_insert_eq.
  eexists. split; [done|]. simpl. rewrite lookup_insert_eq.
  rewrite withList_removed by done.
  split; [done|]. split; [|done].
  intros u Hu. rewrite !lookup_insert_ne by done. by apply Hother.
Qed.

Lemma hasId_patched lsid body x :
  Js.truthy lsid = true → hasId lsid (patched lsid body x) = hasId lsid x.
Proof.
  intros Ht. unfold patched. destruct (hasId lsid x) eqn:Eh; simpl; [|done].
  destruct x as [s'|o].
  - apply hasId_fresh; [done|].
    destruct (b_name body), (optTruthy (b_showIn body)), (b_visibility body) as [[]|];
      done.
  - unfold hasId, entryHasId in *. simpl in *.
    destruct (b_name body), (optTruthy (b_showIn body)), (b_visibility body) as [[]|];
      done.
Qed.

Lemma patched_visibility lsid body vm vs x :
  b_visibility body = Some (vm, vs) → hasId lsid x = true →
  visibilityFor (Some (erase (patched lsid body x))) = (pairOf vm, pairOf vs).
Proof.
  intros Hb Hx. unfold patched. rewrite Hx, Hb. simpl.
  unfold visibilityFor. simpl. by destruct vm as [[]|], vs as [[]|].
Qed.

(** X16. [PATCH] with a [visibility] object settles all four flags of the
    entries with that id: each flag is the truth value of what the body
    gives for it, and a flag or a whole type missing from the body becomes
    [false] (so a body that names only the movie flags switches the series
    catalog off). The number of entries does not change, and the entry
    that the catalog handler then finds for the id carries those flags. *)
Theorem patch_sets_visibility (uid lsid : string) (body : patchBody)
    (vm vs : option (bool * bool)) (s : Server) :
  Js.truthy lsid = true → b_visibility body = Some (vm, vs) →
  ∃ s' lists',
    patchList uid lsid body s = (Ok (ApiResponse 200 ApiOk), s') ∧
    registry s' !! uid = Some lists' ∧
    length lists' = length (default [] (registry s !! uid)) ∧
    (∀ x', x' ∈ lists' → hasId lsid x' = true →
           visibilityFor (Some (erase x')) = (pairOf vm, pairOf vs)) ∧
    (existsb (hasId lsid) (default [] (registry s !! uid)) = true →
     visibilityFor (findEntry (erase <$> lists') lsid) = (pairOf vm, pairOf vs)).
Proof.
  intros Ht Hb.
  destruct (getUser_lists uid s) as (lists & s0 & Hg & Hl & _).
  unfold patchList. unfold sbind at 1. rewrite Hg. srun. simpl.
  eexists _, _. split; [done|]. simpl. rewrite lookup_insert_eq.
  split; [done|]. rewrite <-Hl. split; [by rewrite length_map|].
  assert (∀ x', x' ∈ map (patched lsid body) lists → hasId lsid x' = true →
                visibilityFor (Some (erase x')) = (pairOf vm, pairOf vs)) as Hall.
  { intros x' Hin Hx'. apply list_elem_of_fmap in Hin as (x & -> & Hin).
    rewrite hasId_patched in Hx' by done. by eapply patched_visibility. }
  split; [done|].
  intros Hex. unfold findEntry.
  destruct (find (entryHasId lsid) (erase <$> map (patched lsid body) lists))
    as [e|] eqn:Ef.
  - apply find_some in Ef as [Hin He].
    apply list_elem_of_In, list_elem_of_fmap in Hin as (x' & -> & Hin).
    by apply Hall.
  - exfalso. apply existsb_exists in Hex as (x & Hin & Hx).
    eapply find_none in Ef.
    2:{ apply in_map, in_map, Hin. }
    fold (hasId lsid (patched lsid body x)) in Ef.
    rewrite hasId_patched in Ef by done. congruence.
Qed.

(** A fresh server, and the state after user [u1] has added a list by its
    address. *)
Definition server0 : Server := MkServer world0 ∅ ∅ ∅.
Definition listAddress : option string :=
  Some " https://www.imdb.com/list/LS0123456/ ".
Definition afterPost : Server :=
  (postList envDown (λ _ _, "Top 250") "u1" listAddress server0).2.

Lemma postList_twice_witness :
  ∃ s2, postList envDown (λ _ _, "Top 250") "u1" listAddress afterPost
        = (Ok (ApiResponse 200 (ApiId "ls0123456")), s2) ∧
        registry s2 = registry afterPost ∧ disk s2 = registry afterPost.
Proof.
  apply (postList_twice envDown (λ _ _, "Top 250") "u1" listAddress server0).
  - vm_compute. reflexivity.
  - reflexivity.
  - intros lsid. reflexivity.
Defined.

Lemma post_then_delete_restores_witness :
  ∃ s2, deleteList "u1" "ls0123456" afterPost = (Ok (ApiResponse 200 ApiOk), s2) ∧
        registry s2 !! "u1" = Some [] ∧
        (∀ u, u ≠ "u1" → registry s2 !! u = None) ∧
        disk s2 = registry s2.
Proof.
  apply (post_then_delete_restores envDown (λ _ _, "Top 250") "u1" "ls0123456"
           listAddress server0 afterPost).
  - vm_compute. reflexivity.
  - constructor.
Defined.

Lemma patch_sets_visibility_witness :
  ∃ s' lists',
    patchList "u1" "ls0123456"
      (PatchBody None None (Some (Some (false, true), None))) afterPost
    = (Ok (ApiResponse 200 ApiOk), s') ∧
    registry s' !! "u1" = Some lists' ∧
    visibilityFor (findEntry (erase <$> lists') "ls0123456")
    = ((false, true), (false, false)).
Proof.
  destruct (patch_sets_visibility "u1" "ls0123456"
              (PatchBody None None (Some (Some (false, true), None)))
              (Some (false, true)) None afterPost)
    as (s' & lists' & Hp & Hr & _ & _ & Hv); [reflexivity|reflexivity|].
  exists s', lists'. split; [done|]. split; [done|].
  apply Hv. vm_compute. reflexivity.
Defined.

Example postList_examples :
  (postList envDown (λ _ _, "Top 250") "u1" (Some "  ") server0).1
  = Ok (ApiResponse 400 (ApiError "Missing src")) ∧
  (postList envDown (λ _ _, "Top 250") "u1" (Some "ls12345") server0).1
  = Ok (ApiResponse 400 (ApiError "Invalid IMDb list id or URL")) ∧
  registry afterPost !! "u1"
  = Some [Obj (ListObj (Some "ls0123456") None (Some "Top 250")
                       (Some "discover") None)].
Proof. vm_compute. done. Qed.

End ConfigureFacts.

Module ManifestFacts.
Import Configure ConfigureFacts.

(** Every cached genre list is part of the dropdown, in dropdown order. *)
Definition genresOk (s : Server) : Prop :=
  ∀ k e, memGenres s !! k = Some e → sublist (e_v e) DEFAULT_GENRES.

Section Facts.
Variable env : Env.
Implicit Types (s : Server) (w : World) (uid lsid type : string).

Lemma collectGenres_total type ids have w :
  ∃ r w', collectGenres env type ids have w = (Ok r, w').
Proof.
  revert have w. induction ids as [|i rest IH]; intros have w; simpl.
  - by eexists _, _.
  - unfold bind. destruct (typed_total env type i w) as (r & w1 & ->).
    destruct r as [m|]; apply IH.
Qed.

Lemma hasType_total lsid type sample w :
  ∃ b w', hasType env lsid type sample w = (Ok b, w').
Proof.
  unfold hasType, hasTypeDuring, derefStats, fetchImdbIds, writeStats,
    setCacheStats, cacheWrite. run.
  destruct (statsObject lsid w) as [[r|e] w1] eqn:Es.
  2:{ destruct (statsObject_cases w lsid) as [(? & ? & ? & ?)|[_ (? & ? & ?)]];
        congruence. }
  simpl.
  destruct (negb (Js.strEq type "movie" || Js.strEq type "series"));
    [by eexists _, _|].
  destruct (if Js.strEq type "movie"
            then st_movie (default freshStats (heap w1 !! r))
            else st_series (default freshStats (heap w1 !! r)));
    [by eexists _, _|].
  set (w2 := setClock w1 (clock w1 + listLatency env (clock w1) lsid)).
  destruct (probeAny_total env type (take sample (listIds env (clock w1) lsid)) w2)
    as (any & w3 & ->).
  by eexists _, _.
Qed.

Lemma liftW_total {A} (c : M A) s :
  (∀ w, ∃ r w', c w = (Ok r, w')) →
  ∃ r s', liftW c s = (Ok r, s') ∧ registry s' = registry s ∧
          disk s' = disk s ∧ memGenres s' = memGenres s.
Proof.
  intros H. unfold liftW. destruct (H (world s)) as (r & w' & ->).
  by eexists _, _.
Qed.

Lemma listGenresForType_ok lsid type s :
  genresOk s →
  ∃ arr s', listGenresForType env lsid type s = (Ok arr, s') ∧
    sublist arr DEFAULT_GENRES ∧ genresOk s' ∧
    registry s' = registry s ∧ disk s' = disk s.
Proof.
  intros Hok. unfold listGenresForType, getCacheGenres, cacheRead. unfold sbind at 1.
  destruct (memGenres s !! genresKey lsid type) as [e|] eqn:He.
  - destruct (negb (e_exp e =? 0) && (e_exp e <? clock (world s))) eqn:Hx.
    + set (s1 := setMemGenres s (delete (genresKey lsid type) (memGenres s))).
      assert (genresOk s1) as Hok1.
      { intros k e' Hk. unfold s1 in Hk. simpl in Hk.
        apply lookup_delete_Some in Hk as [_ Hk]. by eapply Hok. }
      unfold sbind at 1.
      destruct (liftW_total (fetchImdbIds env lsid) s1) as (ids & s2 & -> & Hr2 & Hd2 & Hm2).
      { intros w. unfold fetchImdbIds. by eexists _, _. }
      unfold sbind at 1.
      destruct (liftW_total (collectGenres env type ids []) s2)
        as (have & s3 & -> & Hr3 & Hd3 & Hm3).
      { intros w. apply collectGenres_total. }
      unfold setCacheGenres, cacheWrite. srun.
      eexists _, _. split; [done|]. split; [apply sublist_filter|].
      split; [|simpl; split; [rewrite Hr3, Hr2|rewrite Hd3, Hd2]; done].
      intros k e'. simpl. intros Hk.
      apply lookup_insert_Some in Hk as [[_ <-]|[_ Hk]]; simpl.
      * apply sublist_filter.
      * rewrite Hm3, Hm2 in Hk. by eapply Hok1.
    + srun. eexists _, _. split; [done|]. split; [by eapply Hok|].
      split; [|done]. by destruct s.
  - set (s1 := setMemGenres s (memGenres s)).
    assert (genresOk s1) as Hok1 by done.
    unfold sbind at 1.
    destruct (liftW_total (fetchImdbIds env lsid) s1) as (ids & s2 & -> & Hr2 & Hd2 & Hm2).
    { intros w. unfold fetchImdbIds. by eexists _, _. }
    unfold sbind at 1.
    destruct (liftW_total (collectGenres env type ids []) s2)
      as (have & s3 & -> & Hr3 & Hd3 & Hm3).
    { intros w. apply collectGenres_total. }
    unfold setCacheGenres, cacheWrite. srun.
    eexists _, _. split; [done|]. split; [apply sublist_filter|].
    split; [|simpl; split; [rewrite Hr3, Hr2|rewrite Hd3, Hd2]; done].
    intros k e'. simpl. intros Hk.
    apply lookup_insert_Some in Hk as [[_ <-]|[_ Hk]]; simpl.
    * apply sublist_filter.
    * rewrite Hm3, Hm2 in Hk. by eapply Hok1.
Qed.

End Facts.

(** X17. The genre list of a catalog is always made of dropdown genres:
    when the genre cache holds only such lists, [listGenresForType] never
    throws and returns a list that keeps the order of [DEFAULT_GENRES] and
    leaves out some of its members (so it has no duplicates and no genre
    from outside the dropdown, whatever the records of the list carry);
    the cache keeps that property and the user registry is not touched. *)
Theorem listGenresForType_within_dropdown env (lsid type : string) (s : Server) :
  genresOk s →
  ∃ arr s', listGenresForType env lsid type s = (Ok arr, s') ∧
    sublist arr DEFAULT_GENRES ∧ NoDup arr ∧ genresOk s' ∧
    registry s' = registry s ∧ disk s' = disk s.
Proof.
  intros Hok.
  destruct (listGenresForType_ok env lsid type s Hok)
    as (arr & s' & H & Hs & Hok' & Hr & Hd).
  exists arr, s'. split_and!; try done.
  eapply sublist_NoDup; [|exact Hs].
  apply (bool_decide_unpack _). vm_compute. done.
Qed.

(** What the manifest says about one catalog: it belongs to an entry [l]
    of the user's lists and to one of the two types, the entry is visible
    for that type on some surface, and the genre parameter is built from
    the genre list and the home flag. *)
Definition catalogOk (uid : string) (lists : list item) (c : catalog) : Prop :=
  ∃ l suffix flags,
    l ∈ lists ∧
    ((c_type c = "movie" ∧ suffix = "movies" ∧
      flags = (visibilityFor (Some (erase l))).1) ∨
     (c_type c = "series" ∧ suffix = "series" ∧
      flags = (visibilityFor (Some (erase l))).2)) ∧
    c_id c = catalogIdOf uid (lsidOf l) suffix ∧ c_name c = nameOf l ∧
    flags.1 || flags.2 = true ∧
    sublist (c_genres c) DEFAULT_GENRES ∧
    last (c_extra c)
    = Some (ExtraDef "genre"
              (Some (if flags.2 then c_genres c else "Top" :: c_genres c))
              (Some (negb flags.2))).

Section ManifestOk.
Variable env : Env.
Implicit Types (s : Server) (uid : string) (l : item).

Lemma catalogOk_mono uid lists lists' c :
  (∀ l, l ∈ lists → l ∈ lists') → catalogOk uid lists c → catalogOk uid lists' c.
Proof.
  intros Hsub (l & suffix & flags & Hin & H). exists l, suffix, flags.
  split; [by apply Hsub|done].
Qed.

Lemma typeCatalog_ok uid l type suffix flags has s :
  genresOk s →
  (type = "movie" ∧ suffix = "movies" ∧ flags = (visibilityFor (Some (erase l))).1) ∨
  (type = "series" ∧ suffix = "series" ∧ flags = (visibilityFor (Some (erase l))).2) →
  ∃ cs s', typeCatalog env uid l type suffix flags has s = (Ok cs, s') ∧
    Forall (catalogOk uid [l]) cs ∧ genresOk s' ∧
    registry s' = registry s ∧ disk s' = disk s.
Proof.
  intros Hok Hty. unfold typeCatalog.
  destruct (has && (flags.1 || flags.2)) eqn:E.
  - apply andb_true_iff in E as [_ Hvis]. unfold sbind.
    destruct (listGenresForType_ok env (lsidOf l) type s Hok)
      as (arr & s' & -> & Hs & Hok' & Hr & Hd).
    unfold sret. eexists _, _. split; [done|]. split; [|done].
    constructor; [|constructor].
    exists l, suffix, flags. split; [apply list_elem_of_here|].
    split; [|done]. simpl. destruct Hty as [(-> & ? & ?)|(-> & ? & ?)]; auto.
  - unfold sret. eexists _, _. split; [done|]. split; [constructor|done].
Qed.

Lemma manifestCatalogs_ok uid lists s :
  genresOk s →
  ∃ cs s', manifestCatalogs env uid lists s = (Ok cs, s') ∧
    Forall (catalogOk uid lists) cs ∧ genresOk s' ∧
    registry s' = registry s ∧ disk s' = disk s.
Proof.
  revert s. induction lists as [|l rest IH]; intros s Hok; cbn [manifestCatalogs].
  - unfold sret. eexists _, _. split; [done|]. split; [constructor|done].
  - cbn zeta. unfold sbind at 1.
    destruct (liftW_total (hasType env (lsidOf l) "movie" 120) s)
      as (hm & s1 & -> & Hr1 & Hd1 & Hm1); [intros w; apply hasType_total|].
    unfold sbind at 1.
    destruct (liftW_total (hasType env (lsidOf l) "series" 120) s1)
      as (hs & s2 & -> & Hr2 & Hd2 & Hm2); [intros w; apply hasType_total|].
    assert (genresOk s2) as Hok2.
    { intros k e. rewrite Hm2, Hm1. apply Hok. }
    unfold sbind at 1.
    destruct (typeCatalog_ok uid l "movie" "movies"
                (visibilityFor (Some (erase l))).1 hm s2 Hok2)
      as (ms & s3 & -> & Hms & Hok3 & Hr3 & Hd3); [by left|].
    unfold sbind at 1.
    destruct (typeCatalog_ok uid l "series" "series"
                (visibilityFor (Some (erase l))).2 hs s3 Hok3)
      as (ss & s4 & -> & Hss & Hok4 & Hr4 & Hd4); [by right|].
    unfold sbind at 1.
    destruct (IH s4 Hok4) as (more & s5 & -> & Hmore & Hok5 & Hr5 & Hd5).
    unfold sret. eexists _, _. split; [done|].
    split; [|split; [done|split; congruence]].
    rewrite !Forall_app. split_and!.
    + eapply Forall_impl; [exact Hms|]. intros c. apply catalogOk_mono.
      intros x Hx. apply list_elem_of_singleton in Hx as ->. apply list_elem_of_here.
    + eapply Forall_impl; [exact Hss|]. intros c. apply catalogOk_mono.
      intros x Hx. apply list_elem_of_singleton in Hx as ->. apply list_elem_of_here.
    + eapply Forall_impl; [exact Hmore|]. intros c. apply catalogOk_mono.
      intros x Hx. by apply list_elem_of_further.
Qed.

End ManifestOk.


Lemma genresOk_server0 : genresOk server0.
Proof. intros k e H. simpl in H. by rewrite lookup_empty in H. Qed.

Lemma listGenresForType_within_dropdown_witness :
  ∃ arr s', listGenresForType envComedy "ls0123456" "movie" server0 = (Ok arr, s') ∧
    sublist arr DEFAULT_GENRES ∧ NoDup arr ∧ genresOk s' ∧
    registry s' = registry server0 ∧ disk s' = disk server0.
Proof.
  apply (listGenresForType_within_dropdown envComedy "ls0123456" "movie" server0).
  apply genresOk_server0.
Defined.


Example manifest_example :
  match (manifestHandler envComedy (Some "u1") afterPost).1 with
  | Ok mf => mf_catalogs mf
  | Throw _ => []
  end
  = [catalogFor "u1" "ls0123456" "Top 250" "movie" "movies" (true, false)
       ["Comedy"]].
Proof. vm_compute. reflexivity. Qed.

End ManifestFacts.

Module EpParentFacts.
Import EpParent.

Lemma mapGet_mapSet k v (m : lru) : mapGet (mapSet k v m) k = Some v.
Proof.
  induction m as [|[k' v'] r IH]; simpl.
  - by rewrite String.eqb_refl.
  - destruct (Js.strEq k' k) eqn:E; simpl; by rewrite E.
Qed.

Lemma mapGet_mapSet_ne k k' v (m : lru) :
  k ≠ k' → mapGet (mapSet k v m) k' = mapGet m k'.
Proof.
  intros Hne. induction m as [|[k0 v0] r IH]; simpl.
  - by apply StrFacts.strEq_false in Hne as ->.
  - destruct (Js.strEq k0 k) eqn:E; simpl.
    + apply StrFacts.strEq_true in E as ->.
      by apply StrFacts.strEq_false in Hne as ->.
    + by rewrite IH.
Qed.

Lemma length_mapSet k v (m : lru) :
  (length (mapSet k v m) ≤ S (length m))%nat.
Proof.
  induction m as [|[k' v'] r IH]; simpl; [lia|].
  destruct (Js.strEq k' k); simpl; lia.
Qed.

Lemma mapSet_keys k v (m : lru) :
  NoDup m.*1 → NoDup (mapSet k v m).*1 ∧ ∀ x, x ∈ (mapSet k v m).*1 ↔ x = k ∨ x ∈ m.*1.
Proof.
  induction m as [|[k' v'] r IH]; simpl; intros Hnd.
  - split; [apply NoDup_singleton|]. intros x.
    rewrite list_elem_of_singleton, elem_of_nil. tauto.
  - apply NoDup_cons in Hnd as [Hk' Hnd]. destruct (IH Hnd) as [IH1 IH2].
    destruct (Js.strEq k' k) eqn:E; simpl.
    + apply StrFacts.strEq_true in E as ->. split; [by apply NoDup_cons|].
      intros x. rewrite !elem_of_cons. tauto.
    + apply StrFacts.strEq_false in E. split.
      * apply NoDup_cons. split; [|done]. rewrite IH2. intros [?|?]; [done|done].
      * intros x. rewrite !elem_of_cons, IH2. tauto.
Qed.

Lemma mapGet_None (m : lru) k : k ∉ m.*1 → mapGet m k = None.
Proof.
  induction m as [|[k' v'] r IH]; simpl; [done|]. intros Hk.
  apply not_elem_of_cons in Hk as [Hne Hk].
  assert (k' ≠ k) as Hne' by done.
  apply StrFacts.strEq_false in Hne' as ->. by apply IH.
Qed.

Lemma mapGet_mapDelete k (m : lru) : mapGet (mapDelete k m) k = None.
Proof.
  induction m as [|[k' v'] r IH]; [done|].
  unfold mapDelete in *. destruct (Js.strEq k' k) eqn:E.
  - by rewrite filter_cons_False by (simpl; by rewrite E).
  - rewrite filter_cons_True by done. simpl. by rewrite E.
Qed.

(** X19. The episode cache is bounded and evicts by age of insertion: a
    Map of at most 1001 entries has at most 1001 entries after
    [lruSetEpParent]; when it held more than 1000, the tenth of the
    entries that was inserted first is gone afterwards (whether or not
    those entries were read in between, since a read never moves an
    entry), and the entry just set is present. *)
Theorem lruSet_bounded (now : Z) (i parent : string) (m : lru) :
  NoDup m.*1 → (length m ≤ 1001)%nat →
  let m' := lruSetEpParent now i parent m in
  (length m' ≤ 1001)%nat ∧ NoDup m'.*1 ∧ mapGet m' i = Some (parent, now) ∧
  ((1000 < length m)%nat →
   ∀ k, k ∈ (take (length m / 10) m).*1 → k ≠ i → mapGet m' k = None).
Proof.
  intros Hnd Hlen m'. unfold m', lruSetEpParent.
  set (m0 := if (1000 <? length m)%nat then drop (toDelete (length m)) m else m).
  assert (NoDup m0.*1) as Hnd0.
  { unfold m0. destruct (1000 <? length m)%nat; [|done].
    rewrite fmap_drop. eapply sublist_NoDup; [exact Hnd|apply sublist_drop]. }
  assert (length m0 ≤ 1000)%nat as Hlen0.
  { unfold m0. destruct (1000 <? length m)%nat eqn:E.
    - apply Nat.ltb_lt in E. assert (length m = 1001%nat) as Hl by lia.
      rewrite length_drop, Hl. vm_compute. lia.
    - apply Nat.ltb_ge in E. lia. }
  split; [pose proof (length_mapSet i (parent, now) m0); lia|].
  split; [by apply mapSet_keys|]. split; [apply mapGet_mapSet|].
  intros Hbig k Hk Hne.
  rewrite mapGet_mapSet_ne by done. apply mapGet_None.
  unfold m0. apply Nat.ltb_lt in Hbig as Hb. rewrite Hb.
  assert (toDelete (length m) = (length m / 10)%nat) as ->.
  { unfold toDelete. assert (length m = 1001%nat) as -> by lia. done. }
  rewrite fmap_drop. rewrite fmap_take in Hk.
  rewrite <-(take_drop (length m / 10) m.*1) in Hnd.
  apply NoDup_app in Hnd as (_ & Hdisj & _). by apply Hdisj.
Qed.

(** X20. Round trip of the episode cache: the parent stored by
    [lruSetEpParent] at time [t] is what [lruGetEpParent] returns at every
    time up to [t + ttl], and the read leaves the Map as it is; read later
    than that, the entry is deleted and the answer is [null]. *)
Theorem lruSet_lruGet_round_trip (ttl t t' : Z) (i parent : string) (m : lru) :
  let m' := lruSetEpParent t i parent m in
  (t' - t ≤ ttl → lruGetEpParent ttl t' i m' = (Some parent, m')) ∧
  (ttl < t' - t →
   lruGetEpParent ttl t' i m' = (None, mapDelete i m') ∧
   (lruGetEpParent ttl t' i (mapDelete i m')).1 = None).
Proof.
  intros m'. unfold lruGetEpParent.
  assert (mapGet m' i = Some (parent, t)) as -> by apply mapGet_mapSet.
  split.
  - intros H. by apply Z.ltb_ge in H as ->.
  - intros H. apply Z.ltb_lt in H as ->. split; [done|].
    by rewrite mapGet_mapDelete.
Qed.

Definition manyEpisodes : lru :=
  imap (λ n _, (String (ascii_of_nat n) (String (ascii_of_nat (n / 256)) ""),
                ("tt0903747", 0))) (replicate 1001 ()).

Lemma lruSet_bounded_witness :
  (length (lruSetEpParent 5 "tt0959621" "tt0903747" manyEpisodes) ≤ 1001)%nat.
Proof.
  apply (lruSet_bounded 5 "tt0959621" "tt0903747" manyEpisodes).
  - apply (bool_decide_unpack _). vm_compute. done.
  - vm_compute. lia.
Defined.

Example lruSet_evicts_oldest :
  length (lruSetEpParent 5 "tt0959621" "tt0903747" manyEpisodes) = 902%nat ∧
  head (lruSetEpParent 5 "tt0959621" "tt0903747" manyEpisodes)
  = manyEpisodes !! 100%nat.
Proof. vm_compute. done. Qed.

End EpParentFacts.

(** ** The server with file caches: [getActualGenres] *)

(** [for (const genre of item.genres) genreSet.add(genre)] for the items
    whose [genres] is an array. *)
Definition genresOfItem (genreSet : list string) (item : meta) : list string :=
  match m_genres item with
  | GArr l => fold_left setAdd l genreSet
  | _ => genreSet
  end.

(** [Array.from(genreSet).sort()]: the default sort compares strings by
    code units. *)
Definition getActualGenres (items : list meta) : list string :=
  jsSort strCmp (fold_left genresOfItem items []).

(** ** [uniqById] keeps the first record of every id *)

(** X21. [uniqById] removes duplicates by id and nothing else: the result
    is the input with some records left out and the order kept; no two of
    its records have the same id; every id of the input (records without
    an id apart) is still there; and the record kept for an id is the first
    record of the input with that id. *)
Theorem uniqById_keeps_first (arr : list meta) :
  sublist (uniqById arr) arr ∧ NoDup (idOf <$> uniqById arr) ∧
  (∀ x, x ∈ arr → optTruthy (m_id x) = true →
        ∃ y, y ∈ uniqById arr ∧ idOf y = idOf x) ∧
  (∀ y, y ∈ uniqById arr →
        optTruthy (m_id y) = true ∧ firstWithId (idOf y) arr = Some y).
Proof.
  unfold uniqById. split_and!.
  - apply uniqLoop_sublist.
  - apply uniqLoop_NoDup.
  - intros x Hx Ht.
    destruct (uniqLoop_covers [] arr x Hx Ht) as [Hin|H]; [|done].
    by apply elem_of_nil in Hin.
  - intros y Hy. split.
    + by apply uniqLoop_fresh in Hy as [? _].
    + by eapply uniqLoop_first.
Qed.

Example uniqById_example :
  uniqById [typedItem "tt0903747" "series" "Breaking Bad"; typedItem "tt1" "series" "X";
            typedItem "tt0903747" "series" "Breaking Bad (again)"]
  = [typedItem "tt0903747" "series" "Breaking Bad"; typedItem "tt1" "series" "X"].
Proof. vm_compute. reflexivity. Qed.

(** ** [extractTtIds] returns title ids that occur in the text *)

(** A title id as the pattern accepts it: [tt] and at least six digits. *)
Definition isTtId (i : string) : bool :=
  match Js.chars i with
  | a :: b :: ds =>
      Js.eqChar a "t"%char && Js.eqChar b "t"%char
      && (6 <=? length ds)%nat && forallb Js.isDigit ds
  | _ => false
  end.

Section Extract.
Implicit Types (l m pre rest : list ascii).

Definition ttMatchOf l m : Prop :=
  ∃ ds pre rest,
    m = "t"%char :: "t"%char :: ds ∧ Forall (λ c, Js.isDigit c = true) ds ∧
    (6 ≤ length ds)%nat ∧ l = pre ++ m ++ rest.

Lemma matchTt_inv l ds :
  matchTt l = Some ds →
  Forall (λ c, Js.isDigit c = true) ds ∧ (6 ≤ length ds)%nat ∧
  ∃ rest, l = "t"%char :: "t"%char :: ds ++ rest ∧
          drop (S (S (length ds))) l = rest.
Proof.
  unfold matchTt. destruct l as [|a [|b r]]; try done.
  destruct (Js.eqChar a "t" && Js.eqChar b "t") eqn:E; [|done].
  apply andb_true_iff in E as [Ea Eb]. apply eqChar_eq in Ea, Eb. subst.
  destruct (6 <=? length (takeDigits r))%nat eqn:E6; [|done].
  intros [= <-]. destruct (takeDigits_split r) as [Hr Hd].
  split; [done|]. split; [by apply Nat.leb_le|].
  exists (drop (length (takeDigits r)) r). split; [by rewrite <-Hr|done].
Qed.

Lemma matchAllTt_matches fuel l :
  Forall (ttMatchOf l) (matchAllTt fuel l).
Proof.
  revert l. induction fuel as [|fuel IH]; intros l; simpl; [constructor|].
  destruct l as [|a r]; [constructor|].
  destruct (matchTt (a :: r)) as [ds|] eqn:E.
  - apply matchTt_inv in E as (Hd & H6 & rest & Hl & Hrest).
    simpl in Hrest. rewrite Hrest. constructor.
    + exists ds, [], rest. by rewrite Hl.
    + eapply Forall_impl; [apply IH|]. intros m (ds' & pre & rest' & -> & ? & ? & ->).
      exists ds', ("t"%char :: "t"%char :: ds ++ pre), rest'.
      split; [done|]. split; [done|]. split; [done|].
      rewrite Hl. simpl. by rewrite <-app_assoc.
  - eapply Forall_impl; [apply IH|]. intros m (ds' & pre & rest' & -> & ? & ? & ->).
    by exists ds', (a :: pre), rest'.
Qed.

Lemma startsWith_app m rest : Js.startsWith m (m ++ rest) = true.
Proof.
  induction m as [|c m IH]; simpl; [done|].
  rewrite IH, andb_true_r. by apply eqChar_eq.
Qed.

Lemma includesChars_head l m :
  Js.startsWith m l = true → Js.includesChars l m = true.
Proof. intros H. destruct l; simpl; by rewrite H. Qed.

Lemma includesChars_app pre m rest : Js.includesChars (pre ++ m ++ rest) m = true.
Proof.
  induction pre as [|c pre IH]; simpl.
  - apply includesChars_head, startsWith_app.
  - rewrite IH. apply orb_true_r.
Qed.

Lemma fold_setAdd_NoDup (xs acc : list string) :
  NoDup acc → NoDup (fold_left setAdd xs acc).
Proof.
  revert acc. induction xs as [|x xs IH]; intros acc Hnd; simpl; [done|].
  apply IH. unfold setAdd. destruct (setHas acc x) eqn:E; [done|].
  apply NoDup_app. split; [done|]. split; [|apply NoDup_singleton].
  intros y Hy ->%list_elem_of_singleton. apply setHas_elem in Hy. congruence.
Qed.

End Extract.

(** X22. [extractTtIds] returns each id once, and only title ids that the
    text holds: every member of the result is [tt] followed by at least six
    digits and occurs in the text; an empty text gives no ids. *)
Theorem extractTtIds_ids (html : string) :
  NoDup (extractTtIds html) ∧
  Forall (λ i, isTtId i = true ∧ Js.includes html i = true) (extractTtIds html) ∧
  extractTtIds "" = [].
Proof.
  unfold extractTtIds. destruct (negb (Js.truthy html)).
  { split; [constructor|]. split; [constructor|done]. }
  split; [apply fold_setAdd_NoDup; constructor|]. split; [|done].
  apply Forall_forall. intros i Hi.
  apply fold_setAdd_elem in Hi as [Hi|Hi]; [by apply elem_of_nil in Hi|].
  apply list_elem_of_fmap in Hi as (m & -> & Hm).
  pose proof (matchAllTt_matches (S (length (Js.chars html))) (Js.chars html)) as Hall.
  eapply Forall_forall in Hall; [|exact Hm].
  destruct Hall as (ds & pre & rest & -> & Hd & H6 & Hl).
  split.
  - unfold isTtId. rewrite chars_str.
    apply Nat.leb_le in H6. rewrite H6.
    assert (forallb Js.isDigit ds = true) as -> by by apply forallb_eq_true.
    done.
  - unfold Js.includes. rewrite chars_str, Hl. apply includesChars_app.
Qed.

Example extractTtIds_example :
  extractTtIds "<a href='/title/tt0111161/'>x</a> tt12345 <b data-tconst='tt0068646'> /title/tt0111161/"
  = ["tt0111161"; "tt0068646"].
Proof. vm_compute. reflexivity. Qed.

(** ** Sort parameters are normalised once and for all *)

Lemma toLowerCase_idem s : Js.toLowerCase (Js.toLowerCase s) = Js.toLowerCase s.
Proof.
  unfold Js.toLowerCase. rewrite chars_str, map_map. f_equal.
  apply map_ext. intros c. apply ConfigureFacts.lowerChar_idem.
Qed.

(** X23. The normalisation of the sort parameters is idempotent and does
    not look at the case of letters: [normalizeSortKey] applied to its own
    result returns that result, and gives the same key for a word and for
    its lower-case form; [normalizeOrder] only ever returns "asc" or
    "desc", and returns its own result unchanged. *)
Theorem sort_parameters_normalised (k v : option string) :
  normalizeSortKey (Some (normalizeSortKey k)) = normalizeSortKey k ∧
  normalizeSortKey (Some (Js.toLowerCase (Js.orStr k ""))) = normalizeSortKey k ∧
  (normalizeOrder v = "asc" ∨ normalizeOrder v = "desc") ∧
  normalizeOrder (Some (normalizeOrder v)) = normalizeOrder v.
Proof.
  assert (∀ sk, Js.toLowerCase sk = sk →
            normalizeSortKey (Some sk)
            = (if negb (Js.truthy sk) then ""
               else if inList sk ["alpha"; "alphabetical"; "title"; "name"] then "name"
               else if inList sk ["year"; "date"; "released"] then "year"
               else if inList sk ["imdb"; "score"; "rating"; "vote"; "votes";
                                  "popularity"; "popular"; "trending"; "hot"]
               then "rating"
               else if inList sk ["runtime"; "duration"; "length"] then "runtime"
               else if inList sk ["added"; "recent"; "new"; "updated"] then "added"
               else sk)) as Hlow.
  { intros sk Hsk. unfold normalizeSortKey. unfold Js.orStr.
    destruct (Js.truthy sk) eqn:Et; [by rewrite Hsk, Et|].
    destruct sk; [done|done]. }
  split_and!.
  - remember (normalizeSortKey k) as r eqn:Hr. unfold normalizeSortKey in Hr.
    set (sk := Js.toLowerCase (Js.orStr k "")) in Hr.
    assert (Js.toLowerCase sk = sk) as Hsk by apply toLowerCase_idem.
    destruct (negb (Js.truthy sk)) eqn:E0; [by subst r|].
    destruct (inList sk ["alpha"; "alphabetical"; "title"; "name"]) eqn:E1;
      [by subst r|].
    destruct (inList sk ["year"; "date"; "released"]) eqn:E2; [by subst r|].
    destruct (inList sk ["imdb"; "score"; "rating"; "vote"; "votes"; "popularity";
                         "popular"; "trending"; "hot"]) eqn:E3; [by subst r|].
    destruct (inList sk ["runtime"; "duration"; "length"]) eqn:E4; [by subst r|].
    destruct (inList sk ["added"; "recent"; "new"; "updated"]) eqn:E5; [by subst r|].
    subst r. by rewrite (Hlow sk Hsk), E0, E1, E2, E3, E4, E5.
  - rewrite Hlow by apply toLowerCase_idem. done.
  - unfold normalizeOrder. destruct (inList _ _); auto.
  - remember (normalizeOrder v) as r eqn:Hr. unfold normalizeOrder in Hr.
    destruct (inList _ _); by subst r.
Qed.

Example sort_parameters_examples :
  normalizeSortKey (Some "IMDB") = "rating" ∧ normalizeSortKey None = "" ∧
  normalizeSortKey (Some "Budget") = "budget" ∧
  normalizeOrder (Some "Reverse") = "desc" ∧ normalizeOrder (Some "up") = "asc".
Proof. vm_compute. done. Qed.

(** ** [getActualGenres] returns a sorted set *)

Lemma strCmp_strict (l : list string) : StrictOn strCmp l.
Proof.
  split.
  - intros a b c _ _ _. unfold strCmp.
    destruct (Js.strLt a b) eqn:E1; [|by destruct (Js.strLt b a)].
    destruct (Js.strLt b c) eqn:E2; [|by destruct (Js.strLt c b)].
    by rewrite (StrFacts.strLt_trans _ _ _ E1 E2).
  - intros a b _ _. unfold strCmp.
    destruct (Js.strLt a b); [done|]. by destruct (Js.strLt b a).
  - intros a b _ _. apply strCmp_eq.
  - intros a _. unfold strCmp. by rewrite StrFacts.strLt_irrefl.
Qed.

Lemma genresOfItem_elem genreSet item g :
  g ∈ genresOfItem genreSet item
  ↔ g ∈ genreSet ∨ ∃ l, m_genres item = GArr l ∧ g ∈ l.
Proof.
  unfold genresOfItem. destruct (m_genres item) as [|s|l].
  - split; [auto|]. by intros [?|(l & ? & _)].
  - split; [auto|]. by intros [?|(l & ? & _)].
  - rewrite fold_setAdd_elem. split.
    + intros [?|?]; [by left|right; by exists l].
    + intros [?|(l' & [= <-] & ?)]; auto.
Qed.

Lemma genresOfItem_NoDup genreSet item :
  NoDup genreSet → NoDup (genresOfItem genreSet item).
Proof.
  intros H. unfold genresOfItem. destruct (m_genres item); try done.
  by apply fold_setAdd_NoDup.
Qed.

Lemma genreSet_spec items genreSet :
  NoDup genreSet →
  NoDup (fold_left genresOfItem items genreSet) ∧
  ∀ g, g ∈ fold_left genresOfItem items genreSet
       ↔ g ∈ genreSet ∨ ∃ item l, item ∈ items ∧ m_genres item = GArr l ∧ g ∈ l.
Proof.
  revert genreSet. induction items as [|item items IH]; intros genreSet Hnd; simpl.
  - split; [done|]. intros g. split; [auto|].
    intros [?|(item & l & Hin & _)]; [done|]. by apply elem_of_nil in Hin.
  - destruct (IH _ (genresOfItem_NoDup genreSet item Hnd)) as [IH1 IH2].
    split; [done|]. intros g. rewrite IH2, genresOfItem_elem. split.
    + intros [[?|(l & ? & ?)]|(it & l & ? & ? & ?)].
      * by left.
      * right. exists item, l. split; [apply list_elem_of_here|done].
      * right. exists it, l. split; [by apply list_elem_of_further|done].
    + intros [?|(it & l & [->|Hin]%elem_of_cons & ? & ?)].
      * left. by left.
      * left. right. by exists l.
      * right. by exists it, l.
Qed.

(** X24. [getActualGenres] returns the genres of the items as a sorted set:
    the result is in strictly increasing order of code units (so it holds
    no genre twice), and a genre is in it exactly when the [genres] array
    of some item lists it. *)
Theorem getActualGenres_sorted_set (items : list meta) :
  StronglySorted (λ a b, Js.strLt a b = true) (getActualGenres items) ∧
  ∀ g, g ∈ getActualGenres items
       ↔ ∃ item l, item ∈ items ∧ m_genres item = GArr l ∧ g ∈ l.
Proof.
  unfold getActualGenres.
  destruct (genreSet_spec items [] (NoDup_nil_2 (A:=string))) as [Hnd Hin].
  set (gs := fold_left genresOfItem items []) in *.
  split.
  - destruct (jsSort_increasing strCmp gs (strCmp_strict gs) Hnd gs) as [Hs _];
      [done|done|].
    eapply StronglySorted_weaken; [|exact Hs].
    intros a b _ _. unfold strCmp. destruct (Js.strLt a b); [done|].
    by destruct (Js.strLt b a).
  - intros g. rewrite jsSort_perm, Hin. split; [|auto].
    intros [H|H]; [by apply elem_of_nil in H|done].
Qed.

Example getActualGenres_example :
  getActualGenres [tagged "tt1" "A" (GArr ["Drama"; "Crime"]);
                   tagged "tt2" "B" (GStr "Comedy");
                   tagged "tt3" "C" (GArr ["Crime"; "Action"])]
  = ["Action"; "Crime"; "Drama"].
Proof. vm_compute. reflexivity. Qed.

(** ** The canonical form of a genre is stable *)

Section Canonical.
Implicit Types (l r x y : list ascii) (c : ascii) (b : bool).

(** Words of characters outside the separator class, with one space between
    two words: the texts that [_normGenre] returns, the empty one apart. *)
Inductive Words : list ascii → Prop :=
  | words_one c : isGenreSep c = false → Words [c]
  | words_more c r : isGenreSep c = false → Words r → Words (c :: r)
  | words_space c r : isGenreSep c = false → Words r → Words (c :: " "%char :: r).

(** The output of [collapseSeps]: after a space comes a character that is
    not a separator; with [b] the text does not start with a space. *)
Inductive Collapsed : bool → list ascii → Prop :=
  | collapsed_nil b : Collapsed b []
  | collapsed_space y : Collapsed true y → Collapsed false (" "%char :: y)
  | collapsed_char b c y : isGenreSep c = false → Collapsed false y → Collapsed b (c :: y).

Lemma collapseSeps_collapsed b x : Collapsed b (collapseSeps b x).
Proof.
  revert b. induction x as [|c x IH]; intros b; simpl; [constructor|].
  destruct (isGenreSep c) eqn:E.
  - destruct b; [apply IH|]. constructor. apply IH.
  - by constructor.
Qed.

Lemma isSpace_sep c : Js.isSpace c = true → isGenreSep c = true.
Proof. intros H. unfold isGenreSep. by rewrite H. Qed.

Lemma sep_space : isGenreSep " " = true.
Proof. reflexivity. Qed.

Lemma space_isSpace : Js.isSpace " " = true.
Proof. reflexivity. Qed.

Lemma notsep_notspace c : isGenreSep c = false → Js.isSpace c = false.
Proof.
  intros H. destruct (Js.isSpace c) eqn:E; [|done].
  apply isSpace_sep in E. congruence.
Qed.

(** A collapsed text is empty, or words, possibly with a space before and
    a space after them. *)
Lemma collapsed_cases b y :
  Collapsed b y →
  ∃ (lead trail : bool) l,
    (l = [] ∨ Words l) ∧ (b = true → lead = false) ∧
    y = (if lead then [" "%char] else []) ++ l ++ (if trail then [" "%char] else []) ∧
    (l = [] → trail = false).
Proof.
  induction 1 as [b|y _ (lead & trail & l & Hl & Hb & -> & Ht)
                   |b c y Hc _ (lead & trail & l & Hl & _ & -> & Ht)].
  - exists false, false, []. split; [by left|]. by split.
  - rewrite Hb by done. simpl.
    exists true, trail, l. split; [done|]. split; [done|]. by split.
  - destruct lead.
    + destruct Hl as [->|Hl].
      * rewrite Ht by done. simpl.
        exists false, true, [c]. split; [right; by constructor|]. by split.
      * exists false, trail, (c :: " "%char :: l).
        split; [right; by constructor|]. split; [done|]. by split.
    + destruct Hl as [->|Hl].
      * rewrite Ht by done. simpl.
        exists false, false, [c]. split; [right; by constructor|]. by split.
      * exists false, trail, (c :: l).
        split; [right; by constructor|]. split; [done|]. by split.
Qed.

Lemma Words_head l : Words l → ∃ c r, l = c :: r ∧ isGenreSep c = false.
Proof. destruct 1; eauto. Qed.

Lemma Words_last l : Words l → ∃ r c, l = r ++ [c] ∧ isGenreSep c = false.
Proof.
  induction 1 as [c Hc|c r Hc _ (r' & c' & -> & Hc')|c r Hc _ (r' & c' & -> & Hc')].
  - by exists [], c.
  - by exists (c :: r'), c'.
  - by exists (c :: " "%char :: r'), c'.
Qed.

Lemma dropSpaces_words l : Words l → Js.dropSpaces l = l.
Proof.
  intros (c & r & -> & Hc)%Words_head. simpl. by rewrite (notsep_notspace c Hc).
Qed.

Lemma trimChars_words l : Words l → Js.trimChars l = l.
Proof.
  intros Hw. unfold Js.trimChars. rewrite (dropSpaces_words l Hw).
  destruct (Words_last l Hw) as (r & c & -> & Hc).
  rewrite rev_app_distr. simpl. rewrite (notsep_notspace c Hc).
  by rewrite <-rev_unit, rev_involutive.
Qed.

Lemma trimChars_framed (lead trail : bool) l :
  l = [] ∨ Words l →
  Js.trimChars ((if lead then [" "%char] else []) ++ l
                ++ (if trail then [" "%char] else [])) = l.
Proof.
  intros Hl.
  assert (∀ x, Js.trimChars (" "%char :: x) = Js.trimChars x) as Hlead.
  { intros x. reflexivity. }
  assert (∀ x, x = [] ∨ Words x → Js.trimChars (x ++ [" "%char]) = Js.trimChars x)
    as Htrail.
  { intros x [->|Hx]; [reflexivity|].
    unfold Js.trimChars. rewrite (dropSpaces_words x Hx).
    assert (Js.dropSpaces (x ++ [" "%char]) = x ++ [" "%char]) as ->.
    { destruct (Words_head x Hx) as (c & r & -> & Hc). simpl.
      by rewrite (notsep_notspace c Hc). }
    by rewrite rev_unit. }
  assert (Js.trimChars l = l) as Hid.
  { destruct Hl as [->|Hl]; [done|by apply trimChars_words]. }
  destruct lead, trail; simpl; rewrite ?Hlead, ?app_nil_r, ?Htrail; done.
Qed.

Lemma collapse_words l :
  Words l → collapseSeps false l = l ∧ collapseSeps true l = l.
Proof.
  induction 1 as [c Hc|c r Hc _ [IH1 IH2]|c r Hc _ [IH1 IH2]]; simpl;
    rewrite Hc, ?sep_space; simpl.
  - done.
  - by rewrite IH1.
  - by rewrite IH2.
Qed.

Lemma Words_no_dash l : Words l → "-"%char ∉ l.
Proof.
  induction 1 as [c Hc|c r Hc _ IH|c r Hc _ IH].
  - intros H%list_elem_of_singleton. by subst.
  - intros [H|?]%elem_of_cons; [by subst|done].
  - intros [H|[H|?]%elem_of_cons]%elem_of_cons; [by subst|done|done].
Qed.

(** Lower case survives collapsing and trimming. *)
Definition Lower l : Prop := Forall (λ c, Js.lowerChar c = c) l.

Lemma Lower_map l : Lower (map Js.lowerChar l).
Proof.
  apply Forall_forall. intros c (c' & -> & _)%list_elem_of_fmap.
  apply ConfigureFacts.lowerChar_idem.
Qed.

Lemma Lower_id l : Lower l → map Js.lowerChar l = l.
Proof. induction 1 as [|c l Hc _ IH]; simpl; [done|]. by rewrite Hc, IH. Qed.

Lemma Lower_collapse b l : Lower l → Lower (collapseSeps b l).
Proof.
  intros H. revert b. induction H as [|c l Hc _ IH]; intros b; simpl; [constructor|].
  destruct (isGenreSep c); [|constructor; [exact Hc|apply IH]].
  destruct b; [apply IH|]. constructor; [reflexivity|apply IH].
Qed.

Lemma Lower_dropSpaces l : Lower l → Lower (Js.dropSpaces l).
Proof.
  induction 1 as [|c l Hc Hl IH]; simpl; [constructor|].
  destruct (Js.isSpace c); [done|by constructor].
Qed.

Lemma Lower_trim l : Lower l → Lower (Js.trimChars l).
Proof.
  intros H. unfold Js.trimChars.
  apply Forall_rev, Lower_dropSpaces, Forall_rev, Lower_dropSpaces, H.
Qed.

(** The characters of a normalised genre. *)
Lemma normGenre_chars s :
  ∃ l, Js.chars (_normGenre s) = l ∧ (l = [] ∨ Words l) ∧ Lower l.
Proof.
  unfold _normGenre, Js.trim. rewrite !chars_str.
  rewrite ConfigureFacts.chars_toLowerCase.
  set (x := map Js.lowerChar (Js.chars s)).
  destruct (collapsed_cases false _ (collapseSeps_collapsed false x))
    as (lead & trail & l & Hl & _ & Hy & _).
  exists l. split.
  - rewrite Hy. by apply trimChars_framed.
  - split; [done|].
    assert (Lower (Js.trimChars (collapseSeps false x))) as HL.
    { apply Lower_trim, Lower_collapse, Lower_map. }
    rewrite Hy, trimChars_framed in HL by done. done.
Qed.

(** [_normGenre] returns its own results unchanged. *)
Lemma normGenre_fixed key :
  (Js.chars key = [] ∨ Words (Js.chars key)) → Lower (Js.chars key) →
  _normGenre key = key.
Proof.
  intros Hw Hl. unfold _normGenre, Js.trim.
  rewrite !chars_str, ConfigureFacts.chars_toLowerCase, (Lower_id _ Hl).
  destruct Hw as [Hw|Hw].
  - rewrite Hw. simpl. rewrite <-(str_chars key), Hw. done.
  - rewrite (proj1 (collapse_words _ Hw)), trimChars_words by done.
    apply str_chars.
Qed.

(** Joining what [split] gave restores the text. *)
Fixpoint joinChars (ls : list (list ascii)) : list ascii :=
  match ls with
  | [] => []
  | [x] => x
  | x :: r => x ++ " "%char :: joinChars r
  end.

Lemma splitOn_cons sep cur l :
  ∃ x (rs : list (list ascii)), Js.splitOn sep cur l = x :: rs.
Proof.
  revert cur. induction l as [|c l IH]; intros cur; simpl; [by eexists _, _|].
  destruct (Js.eqChar c sep); [by eexists _, _|apply IH].
Qed.

Lemma joinChars_splitOn cur l :
  joinChars (Js.splitOn " " cur l) = rev cur ++ l.
Proof.
  revert cur. induction l as [|c l IH]; intros cur; simpl.
  - by rewrite app_nil_r.
  - destruct (Js.eqChar c " ") eqn:E.
    + apply eqChar_eq in E as ->.
      destruct (splitOn_cons " " [] l) as (x & rs & Hx).
      specialize (IH []). rewrite Hx in *. simpl in *. by rewrite IH.
    + rewrite IH. simpl. by rewrite <-app_assoc.
Qed.

Lemma chars_joinWith ws :
  Js.chars (Js.joinWith " " ws) = joinChars (map Js.chars ws).
Proof.
  induction ws as [|w ws IH]; [done|].
  destruct ws as [|w' ws]; [done|].
  change (Js.joinWith " " (w :: w' :: ws))
    with (w +:+ " " +:+ Js.joinWith " " (w' :: ws)).
  rewrite !chars_app, IH. done.
Qed.

Lemma lower_upper c : Js.lowerChar (Js.upperChar c) = Js.lowerChar c.
Proof. by destruct c as [[] [] [] [] [] [] [] []]. Qed.

Lemma lower_capitalize w :
  map Js.lowerChar (Js.chars (capitalize w)) = map Js.lowerChar (Js.chars w).
Proof. destruct w as [|c w]; [done|]. simpl. by rewrite lower_upper. Qed.

Lemma joinChars_cons x y (rs : list (list ascii)) :
  joinChars (x :: y :: rs) = x ++ " "%char :: joinChars (y :: rs).
Proof. reflexivity. Qed.

Lemma lower_joinChars (ws : list string) :
  map Js.lowerChar (joinChars (map Js.chars (map capitalize ws)))
  = map Js.lowerChar (joinChars (map Js.chars ws)).
Proof.
  induction ws as [|w ws IH]; [done|].
  destruct ws as [|w' ws]; [apply lower_capitalize|].
  rewrite !(map_cons _ w), !(map_cons _ (capitalize w)).
  rewrite !(map_cons _ w') in *. rewrite !(map_cons _ (capitalize w')) in *.
  rewrite !joinChars_cons. rewrite !map_app, !(map_cons _ " "%char), lower_capitalize.
  by rewrite IH.
Qed.

(** The capitalised words, in lower case, are the key they came from. *)
Lemma map_chars_str (ls : list (list ascii)) : map Js.chars (map Js.str ls) = ls.
Proof.
  induction ls as [|x ls IH]; simpl; [done|]. by rewrite chars_str, IH.
Qed.

Lemma lower_words key :
  Lower (Js.chars key) →
  Js.toLowerCase (Js.joinWith " " (map capitalize (Js.split key " "))) = key.
Proof.
  intros Hl. unfold Js.toLowerCase, Js.split.
  rewrite chars_joinWith, lower_joinChars, map_chars_str.
  rewrite joinChars_splitOn. simpl. rewrite (Lower_id _ Hl). apply str_chars.
Qed.

End Canonical.

(** Every alias that a normalised key can reach names a canonical form. *)
Lemma aliases_canonical :
  forallb (λ kv, Js.includes kv.1 "-"
                 || match canonicalizeGenre kv.2 with
                    | Some c => Js.strEq c kv.2
                    | None => false
                    end) GENRE_ALIASES = true.
Proof. vm_compute. reflexivity. Qed.

Lemma mapGet_member {V} (m : list (string * V)) k v :
  mapGet m k = Some v → (k, v) ∈ m.
Proof.
  induction m as [|[k' v'] m IH]; simpl; [done|].
  destruct (Js.strEq k' k) eqn:E.
  - apply StrFacts.strEq_true in E as ->. intros [= ->]. apply list_elem_of_here.
  - intros H. by apply list_elem_of_further, IH.
Qed.

Lemma includes_dash s : Js.includes s "-" = true → "-"%char ∈ Js.chars s.
Proof.
  unfold Js.includes. change (Js.chars "-") with ["-"%char].
  induction (Js.chars s) as [|c l IH]; simpl; [done|].
  intros [H|H]%orb_true_iff.
  - rewrite andb_true_r in H. apply eqChar_eq in H as <-. apply list_elem_of_here.
  - by apply list_elem_of_further, IH.
Qed.

Lemma normGenre_lower w : _normGenre (Js.toLowerCase w) = _normGenre w.
Proof. unfold _normGenre. by rewrite toLowerCase_idem. Qed.

(** X11. [canonicalizeGenre] is idempotent: a non-empty canonical form is
    its own canonical form, whether it came from the alias table or from
    the capitalised words of the normalised input. *)
Theorem canonicalizeGenre_idempotent (s c : string) :
  canonicalizeGenre s = Some c → c ≠ "" → canonicalizeGenre c = Some c.
Proof.
  unfold canonicalizeGenre at 1.
  destruct (negb (Js.truthy s)); [done|].
  destruct (normGenre_chars s) as (l & Hl & Hw & Hlow).
  set (key := _normGenre s) in *.
  destruct (mapGet GENRE_ALIASES key) as [a|] eqn:Ea.
  - intros [= <-] _. apply mapGet_member in Ea.
    pose proof aliases_canonical as Hall.
    rewrite forallb_forall in Hall. apply list_elem_of_In, Hall in Ea.
    simpl in Ea. apply orb_true_iff in Ea as [Hd|Hc].
    + exfalso. apply includes_dash in Hd. rewrite Hl in Hd.
      destruct Hw as [->|Hw]; [by apply elem_of_nil in Hd|].
      by apply (Words_no_dash l Hw).
    + destruct (canonicalizeGenre a) as [c'|]; [|done].
      by apply StrFacts.strEq_true in Hc as ->.
  - set (words := Js.joinWith " " (map capitalize (Js.split key " "))).
    destruct (Js.strEq words "Sci Fi") eqn:Es; [by intros [= <-] _|].
    intros [= <-] Hne.
    assert (_normGenre words = key) as Hkey.
    { rewrite <-normGenre_lower. unfold words. rewrite lower_words by by rewrite Hl.
      apply normGenre_fixed; by rewrite Hl. }
    unfold canonicalizeGenre.
    assert (Js.truthy words = true) as ->.
    { destruct words; [done|reflexivity]. }
    simpl negb. cbv iota. rewrite Hkey, Ea. fold words. by rewrite Es.
Qed.

Lemma canonicalizeGenre_idempotent_witness :
  canonicalizeGenre " science-FICTION " = Some "Sci-Fi" ∧
  canonicalizeGenre "Sci-Fi" = Some "Sci-Fi".
Proof.
  split; [reflexivity|].
  by apply (canonicalizeGenre_idempotent " science-FICTION " "Sci-Fi").
Defined.

